(** * web-search-zaimcp: the BigModel [webSearchPrime] client adapter

    A shallow embedding of the two implementations the repository ships,

    - [src/tools/bigmodel-web-search-prime.ts] (the typed tool:
      [bigmodelWebSearchPrime] and its helpers), and
    - [src/index.js] (the minimal CommonJS helper: [webSearchPrime] and
      its underscore-prefixed helpers),

    followed by the properties of the payload unwrapper, the item
    normalizer, the connection cache and the orchestrators.

    Conventions of the model.

    - Untyped JavaScript data (decoded payloads, tool arguments, the
      objects [index.js] builds) is a [JsValue].  An object is the list of
      its property definitions in definition order; a later definition of
      a key overrides an earlier one, as in an object literal.
    - Numbers are IEEE-754 doubles ([PrimFloat.float]).
    - Strings are sequences of 8-bit code units ([String.string]).
    - What the platform provides ([JSON.parse], [JSON.stringify],
      [new URL], the MCP SDK client over its HTTP transport) is a
      parameter of the development: the class [Host].
    - One call runs to completion before the next one starts; the
      module-level maps, the clock and the record of transport activity
      are threaded through a small state-and-outcome monad. *)

From Stdlib Require Import ZArith String Ascii List Bool Lia PrimFloat.
From Stdlib Require Import Floats.SpecFloat Floats.FloatOps.
From stdpp Require Import base option list gmap strings pretty.

Set Warnings "-register-all".
Local Open Scope string_scope.
Local Open Scope list_scope.
Local Open Scope Z_scope.

(** ** JavaScript values *)

Inductive JsValue : Type :=
| JUndefined
| JNull
| JBool (b : bool)
| JNum (x : float)
| JStr (s : string)
| JArr (xs : list JsValue)
| JObj (fields : list (string * JsValue)).

(** [typeof v]. *)
Definition typeof (v : JsValue) : string :=
  match v with
  | JUndefined => "undefined"
  | JNull => "object"
  | JBool _ => "boolean"
  | JNum _ => "number"
  | JStr _ => "string"
  | JArr _ => "object"
  | JObj _ => "object"
  end.

(** [ToBoolean v]: what [!v], [a || b] and [if (v)] look at. *)
Definition truthy (v : JsValue) : bool :=
  match v with
  | JUndefined | JNull => false
  | JBool b => b
  | JNum x => negb (PrimFloat.eqb x 0%float || PrimFloat.is_nan x)
  | JStr s => negb (String.eqb s "")
  | JArr _ | JObj _ => true
  end.

(** [v === undefined || v === null]: what [??] and [?.] look at. *)
Definition nullish (v : JsValue) : bool :=
  match v with
  | JUndefined | JNull => true
  | _ => false
  end.

Definition isArray (v : JsValue) : bool :=
  match v with
  | JArr _ => true
  | _ => false
  end.

(** The value bound to [k] by the last definition of [k] in [fields]. *)
Fixpoint lookup_last (k : string) (fields : list (string * JsValue))
  : option JsValue :=
  match fields with
  | [] => None
  | (k', v) :: rest =>
      match lookup_last k rest with
      | Some w => Some w
      | None => if String.eqb k' k then Some v else None
      end
  end.

(** Property read [o.k] (also [o?.k], which differs only in not throwing
    on [null] and [undefined]).  The sources guard every plain read so
    that it never throws, and read only keys that no built-in prototype
    of an object or array defines, so a value other than an object with
    that key yields [undefined]. *)
Definition get (o : JsValue) (k : string) : JsValue :=
  match o with
  | JObj fields => default JUndefined (lookup_last k fields)
  | _ => JUndefined
  end.

(** [a ?? b] and [a || b]. *)
Definition nullish_coalesce (a b : JsValue) : JsValue :=
  if nullish a then b else a.

Definition js_or (a b : JsValue) : JsValue :=
  if truthy a then a else b.

Declare Scope js_scope.
Delimit Scope js_scope with js.
Bind Scope js_scope with JsValue.
Notation "o .[ k ]" := (get o k)
  (at level 1, left associativity, format "o .[ k ]") : js_scope.
Infix "??" := nullish_coalesce (at level 60, right associativity) : js_scope.
Infix "||" := js_or (at level 50, left associativity) : js_scope.

(** The own enumerable properties an object spread [{...v}] copies. *)
Definition spread_entries (v : JsValue) : list (string * JsValue) :=
  match v with
  | JObj fields => fields
  | JArr xs => imap (fun i x => (pretty i, x)) xs
  | _ => []
  end.

(** ** The host platform *)

(** What a thrown or rejected value can be. *)
Inductive ErrorCode : Type :=
| MISSING_API_KEY
| MCP_TOOL_ERROR
| INVALID_RESPONSE
| TRANSPORT_OR_CONNECT_ERROR.

Inductive Thrown : Type :=
| Foreign (e : JsValue)
    (** a value this code did not construct: what the SDK rejected with,
        or a response attached as [details] *)
| TypeError (message : string)
| Error (message : string)
| BigModelMCPError (message : string) (code : ErrorCode)
                   (details : option Thrown).

(** A promise handed out by the SDK, described by its fate: it settles
    [elapsed] milliseconds after it was created, fulfilled ([inl]) or
    rejected ([inr]), or it never settles. *)
Inductive Promise (A : Type) : Type :=
| Settles (elapsed : Z) (r : A + Thrown)
| Never.
Arguments Settles {A} elapsed r.
Arguments Never {A}.

(** An MCP [Client]: its identity and the transport it was connected
    through. *)
Record Client : Type := {
  client_id : nat;
  client_endpoint : string;
  client_headers : gmap string string
}.

Class Host : Type := {
  (** [JSON.parse(text)]; [None] when it throws. *)
  JSON_parse : string -> option JsValue;
  (** [JSON.stringify(v)]; [None] when it returns [undefined]. *)
  JSON_stringify : JsValue -> option string;
  (** whether [new URL(endpoint)] returns rather than throws *)
  URL_valid : string -> bool;
  (** [client.connect(transport)] *)
  sdk_connect : Client -> Promise unit;
  (** [client.listTools()] *)
  sdk_listTools : Client -> Promise JsValue;
  (** [client.callTool({ name, arguments })] *)
  sdk_callTool : Client -> string -> JsValue -> Promise JsValue
}.

(** ** Payload unwrapper *)

Section Unwrapper.
Context `{Host}.

(** The loop of [parsePossiblyNestedJson] / [_parseNestedJson] with
    [n] iterations left: a decode failure breaks out with the value
    held so far. *)
Fixpoint parse_rounds (n : nat) (val : JsValue) : JsValue :=
  match n with
  | O => val
  | S n' =>
      match val with
      | JStr s =>
          match JSON_parse s with
          | Some v => parse_rounds n' v
          | None => val
          end
      | _ => parse_rounds n' val
      end
  end.

(** bigmodel-web-search-prime.ts, lines 324-337. *)
Definition parsePossiblyNestedJson (text : string) : JsValue :=
  parse_rounds 2 (JStr text).

(** index.js, lines 31-43. *)
Definition _parseNestedJson (text : string) : JsValue :=
  parse_rounds 2 (JStr text).

(** The wrapper probe shared by both sources:
    [(Array.isArray(o.items) && o.items) ||
     (Array.isArray(o.results) && o.results) ||
     (Array.isArray(o.data) && o.data) || null]. *)
Definition wrapped_array (o : JsValue) : option (list JsValue) :=
  match o.["items"]%js with
  | JArr xs => Some xs
  | _ =>
      match o.["results"]%js with
      | JArr xs => Some xs
      | _ =>
          match o.["data"]%js with
          | JArr xs => Some xs
          | _ => None
          end
      end
  end.

(** What one parsed block contributes: the elements of an array, the
    elements of the array an object wraps, and nothing otherwise.  An
    empty wrapped array is falsy under [if (arr)] only if it is [null];
    arrays are always truthy, so every found array is pushed. *)
Definition block_contribution (parsed : JsValue) : list JsValue :=
  match parsed with
  | JArr xs => xs
  | _ =>
      if truthy parsed && String.eqb (typeof parsed) "object"
      then default [] (wrapped_array parsed)
      else []
  end.

(** bigmodel-web-search-prime.ts, lines 340-361. *)
Fixpoint parseItemsFromBlocks_loop (blocks out : list JsValue)
  : list JsValue :=
  match blocks with
  | [] => out
  | b :: rest =>
      match b.["type"]%js, b.["text"]%js with
      | JStr ty, JStr text =>
          if String.eqb ty "text"
          then parseItemsFromBlocks_loop rest
                 (out ++ block_contribution (parsePossiblyNestedJson text))
          else parseItemsFromBlocks_loop rest out
      | _, _ => parseItemsFromBlocks_loop rest out
      end
  end.

Definition parseItemsFromBlocks (blocks : list JsValue) : list JsValue :=
  parseItemsFromBlocks_loop blocks [].

(** index.js, lines 46-66. *)
Fixpoint _extractArrayFromBlocks_loop (blocks out : list JsValue)
  : list JsValue :=
  match blocks with
  | [] => out
  | b :: rest =>
      if negb (truthy b) then _extractArrayFromBlocks_loop rest out
      else
        match b.["type"]%js, b.["text"]%js with
        | JStr ty, JStr text =>
            if String.eqb ty "text"
            then _extractArrayFromBlocks_loop rest
                   (out ++ block_contribution (_parseNestedJson text))
            else _extractArrayFromBlocks_loop rest out
        | _, _ => _extractArrayFromBlocks_loop rest out
        end
  end.

Definition _extractArrayFromBlocks (blocks : list JsValue) : list JsValue :=
  _extractArrayFromBlocks_loop blocks [].

End Unwrapper.

(** ** Item normalizer *)

(** *** bigmodel-web-search-prime.ts *)

Record WebSearchPrimeItem : Type := {
  title : JsValue;
  url : string;
  summary : JsValue;
  icon : JsValue;
  siteName : JsValue;
  media : JsValue;
  publishedAt : JsValue;
  refer : JsValue;
  raw : JsValue
}.

(** Lines 372-378: the alias chain, then
    [if (!url || typeof url !== 'string') continue]. *)
Definition resolveUrl (o : JsValue) : option string :=
  let url :=
    (o.["link"] ??
     o.["url"] ??
     o.["href"] ??
     (if String.eqb (typeof o.["sourceUrl"]) "string"
      then o.["sourceUrl"] else JUndefined))%js in
  if negb (truthy url) || negb (String.eqb (typeof url) "string") then None
  else match url with
       | JStr u => Some u
       | _ => None
       end.

(** Lines 380-384. *)
Definition resolveTitle (o : JsValue) (url : string) : JsValue :=
  (o.["title"] ?? o.["name"] ?? o.["page_title"] ?? JStr url)%js.

(** Lines 369-407: one iteration of the loop up to the [seen] test;
    [None] is [continue]. *)
Definition normalizeItem (r : JsValue) : option WebSearchPrimeItem :=
  if negb (truthy r) || negb (String.eqb (typeof r) "object") then None
  else
    let o := r in
    match resolveUrl o with
    | None => None
    | Some url =>
        Some {| title := resolveTitle o url;
                url := url;
                summary :=
                  (o.["content"] ?? o.["summary"] ?? o.["description"])%js;
                icon := (o.["icon"] ?? o.["favicon"])%js;
                siteName :=
                  (o.["website"] ?? o.["site"] ?? o.["siteName"])%js;
                media := (o.["media"] ?? JUndefined)%js;
                publishedAt :=
                  (o.["publish_date"] ?? o.["published_at"] ??
                   o.["date"] ?? JUndefined)%js;
                refer := (o.["refer"] ?? JUndefined)%js;
                raw := o |}
    end.

(** Lines 364-425. *)
Fixpoint normalizeItems_loop (raw : list JsValue) (seen : gset string)
    (result : list WebSearchPrimeItem) : list WebSearchPrimeItem :=
  match raw with
  | [] => result
  | r :: rest =>
      match normalizeItem r with
      | None => normalizeItems_loop rest seen result
      | Some item =>
          if bool_decide (url item ∈ seen)
          then normalizeItems_loop rest seen result
          else normalizeItems_loop rest ({[url item]} ∪ seen)
                 (result ++ [item])
      end
  end.

Definition normalizeItems (raw : list JsValue) : list WebSearchPrimeItem :=
  normalizeItems_loop raw ∅ [].

(** *** index.js *)

(** Line 74-75: [r.link || r.url || r.href || r.sourceUrl], then
    [if (!link || typeof link !== 'string') continue]. *)
Definition _resolveLink (r : JsValue) : option string :=
  let link := (r.["link"] || r.["url"] || r.["href"] || r.["sourceUrl"])%js in
  if negb (truthy link) || negb (String.eqb (typeof link) "string") then None
  else match link with
       | JStr l => Some l
       | _ => None
       end.

(** Lines 73-88: one iteration up to the [seen] test, yielding the link
    and the object literal that is pushed. *)
Definition _normalizeItem (r : JsValue) : option (string * JsValue) :=
  if negb (truthy r) || negb (String.eqb (typeof r) "object") then None
  else
    match _resolveLink r with
    | None => None
    | Some link =>
        Some (link,
              JObj [ ("title", (r.["title"] || r.["name"] || JStr link)%js);
                     ("url", JStr link);
                     ("summary",
                      (r.["content"] || r.["summary"] || r.["description"])%js);
                     ("icon", (r.["icon"] || r.["favicon"])%js);
                     ("siteName",
                      (r.["website"] || r.["site"] || r.["siteName"])%js);
                     ("media", r.["media"]%js);
                     ("publishedAt",
                      (r.["publish_date"] || r.["published_at"] ||
                       r.["date"])%js);
                     ("refer", r.["refer"]%js);
                     ("raw", r) ])
    end.

(** Lines 69-91. *)
Fixpoint _normalizeItems_loop (rawArr : list JsValue) (seen : gset string)
    (out : list JsValue) : list JsValue :=
  match rawArr with
  | [] => out
  | r :: rest =>
      match _normalizeItem r with
      | None => _normalizeItems_loop rest seen out
      | Some (link, item) =>
          if bool_decide (link ∈ seen)
          then _normalizeItems_loop rest seen out
          else _normalizeItems_loop rest ({[link]} ∪ seen) (out ++ [item])
      end
  end.

Definition _normalizeItems (rawArr : list JsValue) : list JsValue :=
  _normalizeItems_loop rawArr ∅ [].

(** *** What the specification asks of a normalization pass *)

(** The records of [rs] that have a key, each kept only at the first
    position where its key occurs. *)
Definition spec_first_seen (key : JsValue → option string)
    (rs : list JsValue) : list JsValue :=
  omap (λ i : nat,
          r ← rs !! i;
          u ← key r;
          if bool_decide (Some u ∈ key <$> take i rs) then None else Some r)
       (seq 0 (length rs)).


(** ** The world a call runs in *)

(** What the transport layer is asked to do, in order. *)
Inductive Event : Type :=
| NewTransport (endpoint : string) (headers : gmap string string)
| Connect (c : Client)
| ListTools (c : Client)
| CallTool (c : Client) (name : string) (arguments : JsValue).

(** How an awaited computation ends; [Pending] is a promise that never
    settles. *)
Inductive Outcome (A : Type) : Type :=
| Resolved (a : A)
| Rejected (e : Thrown)
| Pending.
Arguments Resolved {A} a.
Arguments Rejected {A} e.
Arguments Pending {A}.

Record World : Type := {
  (** the reading of [Date.now()] *)
  now : Z;
  (** [process.env.BIGMODEL_API_KEY] *)
  BIGMODEL_API_KEY : option string;
  (** [clientCache] of bigmodel-web-search-prime.ts: each promise stored
      under a key, as it has settled *)
  clientCache : gmap string (Outcome Client);
  (** [_clientCache] of index.js *)
  _clientCache : gmap string (Outcome Client);
  (** the identity the next [new Client] gets *)
  next_client_id : nat;
  (** the transport activity so far *)
  trace : list Event
}.

Definition advance (d : Z) (w : World) : World :=
  {| now := now w + d; BIGMODEL_API_KEY := BIGMODEL_API_KEY w;
     clientCache := clientCache w; _clientCache := _clientCache w;
     next_client_id := next_client_id w; trace := trace w |}.

Definition record_event (ev : Event) (w : World) : World :=
  {| now := now w; BIGMODEL_API_KEY := BIGMODEL_API_KEY w;
     clientCache := clientCache w; _clientCache := _clientCache w;
     next_client_id := next_client_id w; trace := trace w ++ [ev] |}.

Definition fresh_client_id (w : World) : World :=
  {| now := now w; BIGMODEL_API_KEY := BIGMODEL_API_KEY w;
     clientCache := clientCache w; _clientCache := _clientCache w;
     next_client_id := S (next_client_id w); trace := trace w |}.

(** [clientCache.set(key, p)] and [_clientCache.set(key, p)]. *)
Definition clientCache_set (key : string) (p : Outcome Client) (w : World)
  : World :=
  {| now := now w; BIGMODEL_API_KEY := BIGMODEL_API_KEY w;
     clientCache := <[key := p]> (clientCache w);
     _clientCache := _clientCache w;
     next_client_id := next_client_id w; trace := trace w |}.

Definition _clientCache_set (key : string) (p : Outcome Client) (w : World)
  : World :=
  {| now := now w; BIGMODEL_API_KEY := BIGMODEL_API_KEY w;
     clientCache := clientCache w;
     _clientCache := <[key := p]> (_clientCache w);
     next_client_id := next_client_id w; trace := trace w |}.

(** An asynchronous computation: from a world to how it ends and the
    world it leaves. *)
Definition Async (A : Type) : Type := World → Outcome A * World.

Definition ret {A} (a : A) : Async A := λ w, (Resolved a, w).

Definition throw {A} (e : Thrown) : Async A := λ w, (Rejected e, w).

Definition bind {A B} (m : Async A) (k : A → Async B) : Async B :=
  λ w, match m w with
       | (Resolved a, w') => k a w'
       | (Rejected e, w') => (Rejected e, w')
       | (Pending, w') => (Pending, w')
       end.

Notation "x <- m ;; k" := (bind m (λ x, k))
  (at level 100, m at next level, right associativity).
Notation "m ;;; k" := (bind m (λ _, k))
  (at level 100, right associativity).

(** How a promise has ended once nothing is left to wait for. *)
Definition fate {A} (p : Promise A) : Outcome A :=
  match p with
  | Settles _ (inl a) => Resolved a
  | Settles _ (inr e) => Rejected e
  | Never => Pending
  end.

(** [await p], for a promise created at this instant. *)
Definition await {A} (p : Promise A) : Async A :=
  λ w, match p with
       | Settles d _ => (fate p, advance d w)
       | Never => (Pending, w)
       end.

(** [await p], for a promise that has already run its course. *)
Definition await_settled {A} (p : Outcome A) : Async A := λ w, (p, w).

Definition Date_now : Async Z := λ w, (Resolved (now w), w).

Definition emit (ev : Event) : Async unit :=
  λ w, (Resolved tt, record_event ev w).

(** [p.then(v => f(v))]. *)
Definition then_ {A B} (p : Promise A) (f : A → B) : Promise B :=
  match p with
  | Settles d (inl a) => Settles d (inl (f a))
  | Settles d (inr e) => Settles d (inr e)
  | Never => Never
  end.

(** [p.catch(e => { throw g(e) })]. *)
Definition catch_rethrow {A} (p : Promise A) (g : Thrown → Thrown)
  : Promise A :=
  match p with
  | Settles d (inl a) => Settles d (inl a)
  | Settles d (inr e) => Settles d (inr (g e))
  | Never => Never
  end.

(** ** Strings the sources compute *)

Definition dquote : string := String "034"%char "".

(** [ToInt32]. *)
Definition ToInt32 (z : Z) : Z :=
  let m := z mod 2 ^ 32 in
  if m <? 2 ^ 31 then m else m - 2 ^ 32.

(** [hashKey] (bigmodel-web-search-prime.ts, lines 286-294) and
    [_hashKey] (index.js, lines 8-15). *)
Fixpoint hashKey_loop (s : string) (h : Z) : Z :=
  match s with
  | EmptyString => h
  | String c rest =>
      let h := ToInt32 (Z.shiftl h 5) - h + Z.of_nat (nat_of_ascii c) in
      let h := ToInt32 h in
      hashKey_loop rest h
  end.

Definition hashKey (s : string) : string :=
  "k" +:+ pretty (Z.abs (hashKey_loop s 0)).

Definition _hashKey (s : string) : string :=
  "k" +:+ pretty (Z.abs (hashKey_loop s 0)).

(** The code units [String.prototype.trim] strips (those below 256):
    tab, line feed, vertical tab, form feed, carriage return, space and
    no-break space. *)
Definition is_trim_space (c : ascii) : bool :=
  let n := nat_of_ascii c in
  ((9 <=? n) && (n <=? 13) || (n =? 32) || (n =? 160))%nat.

Fixpoint trimStart (s : string) : string :=
  match s with
  | EmptyString => EmptyString
  | String c rest => if is_trim_space c then trimStart rest else s
  end.

Definition trim (s : string) : string :=
  String.rev (trimStart (String.rev (trimStart s))).

Definition DEFAULT_ENDPOINT : string :=
  "https://open.bigmodel.cn/api/mcp/web_search_prime/mcp".

Definition TOOL_NAME : string := "webSearchPrime".

(** ** bigmodel-web-search-prime.ts: sessions and the search call *)

Module BigModelMCPOptions.
Record t : Type := {
  apiKey : option string;
  endpoint : option string;
  transportHeaders : option (gmap string string);
  reuseConnection : option bool;
  validateToolAvailability : option bool;
  timeoutMs : option Z
}.
End BigModelMCPOptions.

Record Meta : Type := {
  meta_endpoint : string;
  meta_toolName : string;
  meta_tookMs : Z;
  meta_requestedCount : JsValue;
  meta_returnedCount : nat;
  meta_reusedConnection : bool
}.

Record WebSearchPrimeOutput : Type := {
  items : list WebSearchPrimeItem;
  rawBlocks : list JsValue;
  meta : Meta
}.

(** Lines 258-261:
    [{ Authorization: `Bearer ${apiKey}`, ...(headers ?? {}) }].
    The spread comes second, so a caller's entry for a key replaces the
    one written before it. *)
Definition mergedHeaders (apiKey : string)
    (headers : option (gmap string string)) : gmap string string :=
  default ∅ headers ∪ {[ "Authorization" := "Bearer " +:+ apiKey ]}.

(** [setTimeout(callback, delay)] as Node.js documents it: a delay
    larger than 2147483647 or less than 1 is set to 1. *)
Definition TIMEOUT_MAX : Z := 2 ^ 31 - 1.

Definition setTimeout_delay (delay : Z) : Z :=
  if (delay <? 1) || (TIMEOUT_MAX <? delay) then 1 else delay.

(** Lines 296-321.  With a positive [timeoutMs] a timer is armed with
    [setTimeout(..., timeoutMs)]; the promise wins the race if it
    settles strictly before the timer is due, and a promise that settles
    later, or never, loses it.  The message names [timeoutMs] as
    passed, whatever delay the timer runs with. *)
Definition withSoftTimeout {T} (p : Promise T) (timeoutMs : option Z)
  : Promise T :=
  match timeoutMs with
  | None => p
  | Some t =>
      if (t =? 0) || (t <=? 0) then p
      else
        let due := setTimeout_delay t in
        let timed_out :=
          Settles due
            (inr (BigModelMCPError
                    ("MCP call soft-timeout after " +:+ pretty t +:+ "ms")
                    TRANSPORT_OR_CONNECT_ERROR None)) in
        match p with
        | Settles d r => if d <? due then Settles d r else timed_out
        | Never => timed_out
        end
  end.

Section Tool.
Context `{Host}.

(** Lines 253-284.  The function is synchronous: [new URL(endpoint)] may
    throw before anything is constructed ([inl]); otherwise the promise
    of the connected client is returned ([inr]). *)
Definition createClientPromise (endpoint apiKey : string)
    (headers : option (gmap string string)) (w : World)
  : (Thrown + Promise Client) * World :=
  let mergedHeaders := mergedHeaders apiKey headers in
  if negb (URL_valid endpoint) then (inl (TypeError "Invalid URL"), w)
  else
    let w := record_event (NewTransport endpoint mergedHeaders) w in
    let client := {| client_id := next_client_id w;
                     client_endpoint := endpoint;
                     client_headers := mergedHeaders |} in
    let w := fresh_client_id w in
    let w := record_event (Connect client) w in
    (inr (catch_rethrow
            (then_ (sdk_connect client) (λ _, client))
            (λ e, BigModelMCPError "Failed to connect MCP client"
                    TRANSPORT_OR_CONNECT_ERROR (Some e))),
     w).

(** Lines 229-242. *)
Definition getOrCreateClient (endpoint apiKey : string)
    (headers : option (gmap string string)) : Async Client :=
  λ w,
    let key := endpoint +:+ "::" +:+ hashKey apiKey in
    match clientCache w !! key with
    | Some existing => await_settled existing w
    | None =>
        match createClientPromise endpoint apiKey headers w with
        | (inl e, w) => (Rejected e, w)
        | (inr existing, w) =>
            let w := clientCache_set key (fate existing) w in
            await existing w
        end
    end.

(** Lines 244-251. *)
Definition createEphemeralClient (endpoint apiKey : string)
    (headers : option (gmap string string)) : Async Client :=
  λ w,
    match createClientPromise endpoint apiKey headers w with
    | (inl e, w) => (Rejected e, w)
    | (inr p, w) => await p w
    end.

(** Lines 142-143: the endpoint and the credential a call resolves. *)
Definition resolvedEndpoint (options : BigModelMCPOptions.t) : string :=
  default DEFAULT_ENDPOINT (BigModelMCPOptions.endpoint options).

Definition resolvedApiKey (options : BigModelMCPOptions.t) (w : World)
  : option string :=
  match BigModelMCPOptions.apiKey options with
  | Some k => Some k
  | None => BIGMODEL_API_KEY w
  end.

(** Line 144: [!apiKey || apiKey.trim() === '']. *)
Definition apiKey_missing (apiKey : option string) : bool :=
  match apiKey with
  | None => true
  | Some k => String.eqb k "" || String.eqb (trim k) ""
  end.

(** Lines 154-157. *)
Definition acquireClient (options : BigModelMCPOptions.t)
    (endpoint apiKey : string) : Async Client :=
  let reusedConnection :=
    negb (bool_decide (BigModelMCPOptions.reuseConnection options
                       = Some false)) in
  if reusedConnection
  then getOrCreateClient endpoint apiKey
         (BigModelMCPOptions.transportHeaders options)
  else createEphemeralClient endpoint apiKey
         (BigModelMCPOptions.transportHeaders options).

(** Lines 168-170:
    [Array.isArray(toolList?.tools)
       ? toolList.tools.some(t => t?.name === TOOL_NAME) : false]. *)
Definition tool_exists (toolList : JsValue) : bool :=
  match toolList.["tools"]%js with
  | JArr tools =>
      existsb (λ t, match t.["name"]%js with
                    | JStr n => String.eqb n TOOL_NAME
                    | _ => false
                    end) tools
  | _ => false
  end.

(** Lines 160-178. *)
Definition validateTool (options : BigModelMCPOptions.t) (endpoint : string)
    (client : Client) : Async unit :=
  if bool_decide (BigModelMCPOptions.validateToolAvailability options
                  = Some true)
  then
    emit (ListTools client) ;;;
    toolList <- await
      (catch_rethrow (sdk_listTools client)
         (λ e, BigModelMCPError "Failed to list tools on MCP server"
                 TRANSPORT_OR_CONNECT_ERROR (Some e))) ;;
    if negb (tool_exists toolList)
    then throw (BigModelMCPError
                  ("Tool " +:+ dquote +:+ TOOL_NAME +:+ dquote +:+
                   " not found on MCP endpoint " +:+ endpoint)
                  INVALID_RESPONSE (Some (Foreign toolList)))
    else ret tt
  else ret tt.

(** Lines 181-194. *)
Definition invokeTool (options : BigModelMCPOptions.t) (client : Client)
    (params : JsValue) : Async JsValue :=
  emit (CallTool client TOOL_NAME params) ;;;
  let callPromise :=
    catch_rethrow (sdk_callTool client TOOL_NAME params)
      (λ e, BigModelMCPError
              ("MCP callTool(" +:+ dquote +:+ TOOL_NAME +:+ dquote +:+
               ") failed")
              TRANSPORT_OR_CONNECT_ERROR (Some e)) in
  await (withSoftTimeout callPromise (BigModelMCPOptions.timeoutMs options)).

(** Lines 204-206: [Array.isArray(result?.content) ? result.content : []]. *)
Definition content_blocks (result : JsValue) : list JsValue :=
  match result.["content"]%js with
  | JArr blocks => blocks
  | _ => []
  end.

(** Lines 138-225. *)
Definition bigmodelWebSearchPrime (params : JsValue)
    (options : BigModelMCPOptions.t) : Async WebSearchPrimeOutput :=
  λ w,
    let endpoint := resolvedEndpoint options in
    let apiKey := resolvedApiKey options w in
    if apiKey_missing apiKey
    then throw (BigModelMCPError
                  "Missing BigModel API key: pass options.apiKey or set BIGMODEL_API_KEY"
                  MISSING_API_KEY None) w
    else
      let apiKey := default "" apiKey in
      (start <- Date_now ;;
       let reusedConnection :=
         negb (bool_decide (BigModelMCPOptions.reuseConnection options
                            = Some false)) in
       client <- acquireClient options endpoint apiKey ;;
       validateTool options endpoint client ;;;
       result <- invokeTool options client params ;;
       if truthy result.["isError"]%js
       then throw (BigModelMCPError
                     ("MCP tool " +:+ dquote +:+ TOOL_NAME +:+ dquote +:+
                      " returned isError=true")
                     MCP_TOOL_ERROR (Some (Foreign result)))
       else
         let rawBlocks := content_blocks result in
         let parsedItems := parseItemsFromBlocks rawBlocks in
         let items := normalizeItems parsedItems in
         finish <- Date_now ;;
         let tookMs := finish - start in
         ret {| items := items;
                rawBlocks := rawBlocks;
                meta := {| meta_endpoint := endpoint;
                           meta_toolName := TOOL_NAME;
                           meta_tookMs := tookMs;
                           meta_requestedCount := params.["count"]%js;
                           meta_returnedCount := length items;
                           meta_reusedConnection := reusedConnection |} |}) w.

End Tool.

(** ** index.js: the minimal helper *)

(** The options bag, as index.d.ts declares it. *)
Module WebSearchPrimeOptions.
Record t : Type := {
  apiKey : option string;
  endpoint : option string;
  reuseConnection : option bool
}.
End WebSearchPrimeOptions.

(** Lines 18-28. *)
Definition _toParams (input : JsValue) : JsValue :=
  if String.eqb (typeof input) "string"
  then JObj [ ("search_query", input);
              ("count", JNum 10);
              ("content_size", JStr "medium");
              ("location", JStr "cn") ]
  else JObj ([ ("count", JNum 10);
               ("content_size", JStr "medium");
               ("location", JStr "cn") ] ++ spread_entries input).

Section Index.
Context `{Host}.

(** Lines 118-125: the immediately invoked async function.  It runs up
    to its first [await] at once; a throwing [new URL(endpoint)] rejects
    the promise it returns. *)
Definition _connectClient (endpoint apiKey : string) (w : World)
  : Promise Client * World :=
  if negb (URL_valid endpoint)
  then (Settles 0 (inr (TypeError "Invalid URL")), w)
  else
    let headers : gmap string string :=
      {[ "Authorization" := "Bearer " +:+ apiKey ]} in
    let w := record_event (NewTransport endpoint headers) w in
    let client := {| client_id := next_client_id w;
                     client_endpoint := endpoint;
                     client_headers := headers |} in
    let w := fresh_client_id w in
    let w := record_event (Connect client) w in
    (then_ (sdk_connect client) (λ _, client), w).

(** Lines 112-114. *)
Definition _cacheKey (options : WebSearchPrimeOptions.t)
    (endpoint apiKey : string) : Async string :=
  if bool_decide (WebSearchPrimeOptions.reuseConnection options = Some false)
  then (t <- Date_now ;; ret ("ephemeral::" +:+ pretty t))
  else ret (endpoint +:+ "::" +:+ _hashKey apiKey).

(** Lines 116-128. *)
Definition _acquireClient (cacheKey endpoint apiKey : string)
  : Async Client :=
  λ w,
    match _clientCache w !! cacheKey with
    | Some clientPromise => await_settled clientPromise w
    | None =>
        let '(clientPromise, w) := _connectClient endpoint apiKey w in
        let w := _clientCache_set cacheKey (fate clientPromise) w in
        await clientPromise w
    end.

(** Lines 100-101: [options.endpoint || DEFAULT_ENDPOINT] and
    [options.apiKey || process.env.BIGMODEL_API_KEY]. *)
Definition _resolvedEndpoint (options : WebSearchPrimeOptions.t) : string :=
  match WebSearchPrimeOptions.endpoint options with
  | Some e => if String.eqb e "" then DEFAULT_ENDPOINT else e
  | None => DEFAULT_ENDPOINT
  end.

Definition _resolvedApiKey (options : WebSearchPrimeOptions.t) (w : World)
  : option string :=
  match WebSearchPrimeOptions.apiKey options with
  | Some k => if String.eqb k "" then BIGMODEL_API_KEY w else Some k
  | None => BIGMODEL_API_KEY w
  end.

(** Line 102: [!apiKey]. *)
Definition _apiKey_missing (apiKey : option string) : bool :=
  match apiKey with
  | None => true
  | Some k => String.eqb k ""
  end.

(** Lines 99-139.  The two dynamic imports of the SDK modules are taken
    to succeed. *)
Definition webSearchPrime (queryOrParams : JsValue)
    (options : WebSearchPrimeOptions.t) : Async JsValue :=
  λ w,
    let endpoint := _resolvedEndpoint options in
    let apiKey := _resolvedApiKey options w in
    if _apiKey_missing apiKey
    then throw (Error
                  "Missing BigModel API key: pass options.apiKey or set BIGMODEL_API_KEY")
           w
    else
      let apiKey := default "" apiKey in
      let params := _toParams queryOrParams in
      (cacheKey <- _cacheKey options endpoint apiKey ;;
       client <- _acquireClient cacheKey endpoint apiKey ;;
       emit (CallTool client "webSearchPrime" params) ;;;
       result <- await (sdk_callTool client "webSearchPrime" params) ;;
       if truthy result && truthy result.["isError"]%js
       then throw (Error
                     ("MCP tool " +:+ dquote +:+ "webSearchPrime" +:+ dquote
                      +:+ " error: "
                      +:+ default "undefined" (JSON_stringify result)))
       else
         let rawBlocks := content_blocks result in
         let parsed := _extractArrayFromBlocks rawBlocks in
         let items := _normalizeItems parsed in
         ret (JObj [ ("items", JArr items);
                     ("rawBlocks", JArr rawBlocks) ])) w.

End Index.

(** ** A reference host *)

(** A JSON codec for the grammar of ECMA-404 over 8-bit strings, used to
    instantiate [Host] in examples: a lexer written as a state machine
    over the characters, a recursive-descent parser over the tokens, and
    a printer.  Numbers are read with correct rounding to the nearest
    double and printed as exact decimal expansions. *)

Inductive Token : Type :=
| TLBracket | TRBracket | TLBrace | TRBrace | TColon | TComma
| TString (s : string)
| TNumber (x : float)
| TTrue | TFalse | TNull.

Inductive LexState : Type :=
| LexDefault
| LexString (acc : string)
| LexEscape (acc : string)
| LexUnicode (acc : string) (digits : list nat)
| LexBare (raw : string).

Definition snoc (s : string) (c : ascii) : string := s +:+ String c "".

Definition is_json_ws (c : ascii) : bool :=
  let n := nat_of_ascii c in
  ((n =? 32) || (n =? 9) || (n =? 10) || (n =? 13))%nat.

Definition is_digit (c : ascii) : bool :=
  let n := nat_of_ascii c in ((48 <=? n) && (n <=? 57))%nat.

Definition is_letter (c : ascii) : bool :=
  let n := nat_of_ascii c in
  ((65 <=? n) && (n <=? 90) || (97 <=? n) && (n <=? 122))%nat.

(** The characters of numbers and of [true], [false], [null]. *)
Definition is_bare (c : ascii) : bool :=
  let n := nat_of_ascii c in
  (is_digit c || is_letter c || (n =? 43) || (n =? 45) || (n =? 46))%nat.

Definition hex_value (c : ascii) : option nat :=
  let n := nat_of_ascii c in
  if ((48 <=? n) && (n <=? 57))%nat then Some (n - 48)%nat
  else if ((97 <=? n) && (n <=? 102))%nat then Some (n - 87)%nat
  else if ((65 <=? n) && (n <=? 70))%nat then Some (n - 55)%nat
  else None.

Definition hex_digit (d : nat) : ascii :=
  ascii_of_nat (if (d <? 10)%nat then 48 + d else 87 + d)%nat.

(** *** Numbers *)

Definition digit_value (c : ascii) : Z := Z.of_nat (nat_of_ascii c) - 48.

Fixpoint digits_value (ds : list ascii) (acc : Z) : Z :=
  match ds with
  | [] => acc
  | d :: rest => digits_value rest (10 * acc + digit_value d)
  end.

Fixpoint take_digits (s : string) : list ascii * string :=
  match s with
  | String c rest =>
      if is_digit c
      then let '(ds, r) := take_digits rest in (c :: ds, r)
      else ([], s)
  | EmptyString => ([], s)
  end.

(** The double nearest to [(-1)^neg * m * 10^e10], ties to even. *)
Definition decimal_to_float (neg : bool) (m : Z) (e10 : Z) : float :=
  let ndigits := Z.of_nat (String.length (pretty m)) in
  if m =? 0 then (if neg then neg_zero else zero)
  else if 309 <=? ndigits - 1 + e10
       then (if neg then neg_infinity else infinity)
  else if ndigits + e10 <=? -324 then (if neg then neg_zero else zero)
  else if 0 <=? e10
       then SF2Prim (binary_normalize prec emax
                       ((if neg then -1 else 1) * m * 10 ^ e10) 0 false)
  else SF2Prim (SFdiv prec emax
                  (S754_finite neg (Z.to_pos m) 0)
                  (S754_finite false (Z.to_pos (10 ^ (- e10))) 0)).

(** [-? int frac? exp?] with [int] free of leading zeros. *)
Definition number_of_literal (s : string) : option float :=
  let '(neg, s) := match s with
                   | String "-" r => (true, r)
                   | _ => (false, s)
                   end in
  let '(int, s) := take_digits s in
  match int with
  | [] => None
  | d :: more =>
      if (nat_of_ascii d =? 48)%nat && negb (bool_decide (more = []))
      then None
      else
        frac_s ← match s with
                 | String "." r =>
                     let '(frac, s) := take_digits r in
                     if bool_decide (frac = []) then None else Some (frac, s)
                 | _ => Some ([], s)
                 end;
        let '(frac, s) := frac_s in
        exp_s ← match s with
                | String c r =>
                    if ((nat_of_ascii c =? 101) || (nat_of_ascii c =? 69))%nat
                    then
                      let '(eneg, r) :=
                        match r with
                        | String "-" r' => (true, r')
                        | String "+" r' => (false, r')
                        | _ => (false, r)
                        end in
                      let '(ds, s) := take_digits r in
                      if bool_decide (ds = []) then None
                      else Some ((if eneg then -1 else 1) * digits_value ds 0,
                                 s)
                    else None
                | EmptyString => Some (0, s)
                end;
        let '(exp, s) := exp_s in
        if negb (String.eqb s "") then None
        else Some (decimal_to_float neg (digits_value (int ++ frac) 0)
                     (exp - Z.of_nat (length frac)))
  end.

(** *** Lexer *)

Definition bare_token (raw : string) : option Token :=
  if String.eqb raw "true" then Some TTrue
  else if String.eqb raw "false" then Some TFalse
  else if String.eqb raw "null" then Some TNull
  else TNumber <$> number_of_literal raw.

Definition lex_start (c : ascii) : option (list Token * LexState) :=
  let n := nat_of_ascii c in
  if is_json_ws c then Some ([], LexDefault)
  else if (n =? 91)%nat then Some ([TLBracket], LexDefault)
  else if (n =? 93)%nat then Some ([TRBracket], LexDefault)
  else if (n =? 123)%nat then Some ([TLBrace], LexDefault)
  else if (n =? 125)%nat then Some ([TRBrace], LexDefault)
  else if (n =? 58)%nat then Some ([TColon], LexDefault)
  else if (n =? 44)%nat then Some ([TComma], LexDefault)
  else if (n =? 34)%nat then Some ([], LexString "")
  else if is_bare c then Some ([], LexBare (String c ""))
  else None.

Definition unescape (c : ascii) : option ascii :=
  let n := nat_of_ascii c in
  if ((n =? 34) || (n =? 92) || (n =? 47))%nat then Some c
  else if (n =? 98)%nat then Some (ascii_of_nat 8)
  else if (n =? 102)%nat then Some (ascii_of_nat 12)
  else if (n =? 110)%nat then Some (ascii_of_nat 10)
  else if (n =? 114)%nat then Some (ascii_of_nat 13)
  else if (n =? 116)%nat then Some (ascii_of_nat 9)
  else None.

Definition lex_step (st : LexState) (c : ascii)
  : option (list Token * LexState) :=
  let n := nat_of_ascii c in
  match st with
  | LexDefault => lex_start c
  | LexString acc =>
      if (n =? 34)%nat then Some ([TString acc], LexDefault)
      else if (n =? 92)%nat then Some ([], LexEscape acc)
      else if (n <? 32)%nat then None
      else Some ([], LexString (snoc acc c))
  | LexEscape acc =>
      if (n =? 117)%nat then Some ([], LexUnicode acc [])
      else c' ← unescape c; Some ([], LexString (snoc acc c'))
  | LexUnicode acc digits =>
      d ← hex_value c;
      let digits := (digits ++ [d])%list in
      if (length digits =? 4)%nat
      then
        let code := fold_left (λ a d, 16 * a + d)%nat digits 0%nat in
        if (code <? 256)%nat
        then Some ([], LexString (snoc acc (ascii_of_nat code)))
        else None
      else Some ([], LexUnicode acc digits)
  | LexBare raw =>
      if is_bare c then Some ([], LexBare (snoc raw c))
      else
        t ← bare_token raw;
        '(ts, st) ← lex_start c;
        Some (t :: ts, st)
  end.

(** The lexer proper; [toks] holds the tokens found so far, latest
    first. *)
Definition lex_end (st : LexState) (toks : list Token)
  : option (list Token) :=
  match st with
  | LexDefault => Some (rev toks)
  | LexBare raw => t ← bare_token raw; Some (rev (t :: toks))
  | _ => None
  end.

Fixpoint lex (st : LexState) (toks : list Token) (s : string)
  : option (list Token) :=
  match s with
  | EmptyString => lex_end st toks
  | String c rest =>
      match lex_step st c with
      | Some (ts, st) => lex st (rev_append ts toks) rest
      | None => None
      end
  end.

(** *** Parser *)

(** The elements of an array after its opening bracket, and the members
    of an object after its opening brace, given the parser of values
    ([value]); [n] bounds the number of elements. *)
Fixpoint parse_elements (value : list Token → option (JsValue * list Token))
    (n : nat) (acc : list JsValue) (ts : list Token)
  : option (JsValue * list Token) :=
  match n with
  | O => None
  | S n =>
      match value ts with
      | Some (v, TComma :: ts) => parse_elements value n (acc ++ [v]) ts
      | Some (v, TRBracket :: ts) => Some (JArr (acc ++ [v]), ts)
      | _ => None
      end
  end.

Fixpoint parse_members (value : list Token → option (JsValue * list Token))
    (n : nat) (acc : list (string * JsValue)) (ts : list Token)
  : option (JsValue * list Token) :=
  match n with
  | O => None
  | S n =>
      match ts with
      | TString k :: TColon :: ts =>
          match value ts with
          | Some (v, TComma :: ts) =>
              parse_members value n (acc ++ [(k, v)]) ts
          | Some (v, TRBrace :: ts) => Some (JObj (acc ++ [(k, v)]), ts)
          | _ => None
          end
      | _ => None
      end
  end.

Fixpoint parse_value (fuel : nat) (ts : list Token)
  : option (JsValue * list Token) :=
  match fuel with
  | O => None
  | S fuel =>
      match ts with
      | TNull :: ts => Some (JNull, ts)
      | TTrue :: ts => Some (JBool true, ts)
      | TFalse :: ts => Some (JBool false, ts)
      | TNumber x :: ts => Some (JNum x, ts)
      | TString s :: ts => Some (JStr s, ts)
      | TLBracket :: TRBracket :: ts => Some (JArr [], ts)
      | TLBracket :: ts => parse_elements (parse_value fuel) fuel [] ts
      | TLBrace :: TRBrace :: ts => Some (JObj [], ts)
      | TLBrace :: ts => parse_members (parse_value fuel) fuel [] ts
      | _ => None
      end
  end.

Definition ref_JSON_parse (text : string) : option JsValue :=
  ts ← lex LexDefault [] text;
  match parse_value (S (length ts)) ts with
  | Some (v, []) => Some v
  | _ => None
  end.

(** *** Printer *)

Definition escape_char (c : ascii) : string :=
  let n := nat_of_ascii c in
  let bs := ascii_of_nat 92 in
  if (n =? 34)%nat then String bs (String c "")
  else if (n =? 92)%nat then String bs (String c "")
  else if (n =? 8)%nat then String bs "b"
  else if (n =? 12)%nat then String bs "f"
  else if (n =? 10)%nat then String bs "n"
  else if (n =? 13)%nat then String bs "r"
  else if (n =? 9)%nat then String bs "t"
  else if (n <? 32)%nat
       then String bs
              ("u00" +:+ String (hex_digit (n / 16))
                           (String (hex_digit (n mod 16)) ""))
  else String c "".

Fixpoint escape (s : string) : string :=
  match s with
  | EmptyString => EmptyString
  | String c rest => escape_char c +:+ escape rest
  end.

Definition quote (s : string) : string :=
  String (ascii_of_nat 34) (escape s +:+ dquote).

Fixpoint strip_trailing_zeros (fuel : nat) (n : Z) (k : Z) : Z * Z :=
  match fuel with
  | O => (n, k)
  | S fuel =>
      if (0 <? k) && (n mod 10 =? 0)
      then strip_trailing_zeros fuel (n / 10) (k - 1)
      else (n, k)
  end.

Fixpoint zeros (n : nat) : string :=
  match n with
  | O => ""
  | S n => String "0" (zeros n)
  end.

(** The decimal expansion of [n / 10^k] for [0 <= n]. *)
Definition decimal_text (n k : Z) : string :=
  let '(n, k) := strip_trailing_zeros (Z.to_nat k) n k in
  if k =? 0 then pretty n
  else
    let int := n / 10 ^ k in
    let frac := pretty (n mod 10 ^ k) in
    pretty int +:+ "." +:+
    zeros (Z.to_nat k - String.length frac) +:+ frac.

Definition number_text (x : float) : string :=
  match Prim2SF x with
  | S754_nan | S754_infinity _ => "null"
  | S754_zero _ => "0"
  | S754_finite s m e =>
      (if s then "-" else "") +:+
      (if 0 <=? e then pretty (Z.pos m * 2 ^ e)
       else decimal_text (Z.pos m * 5 ^ (- e)) (- e))
  end.

Fixpoint join (sep : string) (parts : list string) : string :=
  match parts with
  | [] => ""
  | [p] => p
  | p :: rest => p +:+ sep +:+ join sep rest
  end.

(** The members an object prints: each key once, at the place of its
    first definition and with the text of its last, keys bound to
    [undefined] left out. *)
Fixpoint effective_members (seen : list string)
    (printed : list (string * option string)) (all : list (string * option string))
  : list string :=
  match printed with
  | [] => []
  | (k, _) :: rest =>
      if bool_decide (k ∈ seen) then effective_members seen rest all
      else
        match (fix last (l : list (string * option string)) :=
                 match l with
                 | [] => None
                 | (k', t) :: l' =>
                     match last l' with
                     | Some r => Some r
                     | None => if String.eqb k' k then Some t else None
                     end
                 end) all with
        | Some (Some text) =>
            (quote k +:+ ":" +:+ text) :: effective_members (k :: seen) rest all
        | _ => effective_members (k :: seen) rest all
        end
  end.

Fixpoint ref_JSON_stringify (v : JsValue) : option string :=
  match v with
  | JUndefined => None
  | JNull => Some "null"
  | JBool b => Some (if b then "true" else "false")
  | JNum x => Some (number_text x)
  | JStr s => Some (quote s)
  | JArr xs =>
      Some ("[" +:+
            join "," (map (λ x, default "null" (ref_JSON_stringify x)) xs)
            +:+ "]")
  | JObj fields =>
      let printed :=
        map (λ kv, (fst kv, ref_JSON_stringify (snd kv))) fields in
      Some ("{" +:+ join "," (effective_members [] printed printed) +:+ "}")
  end.

(** A host whose server lets every client connect in [connect_ms]
    milliseconds and answers every [listTools] with [tools] and every
    [callTool] with [response]. *)
Definition ref_host (connect_ms : Z) (tools response : Promise JsValue)
  : Host :=
  {| JSON_parse := ref_JSON_parse;
     JSON_stringify := ref_JSON_stringify;
     URL_valid := λ e, String.prefix "http://" e || String.prefix "https://" e;
     sdk_connect := λ _, Settles connect_ms (inl tt);
     sdk_listTools := λ _, tools;
     sdk_callTool := λ _ _ _, response |}.


(** *** Sample data *)

(** The specification's end-to-end example: one record, encoded once
    and twice, and the response that carries it in a text block. *)
Definition sample_records : list JsValue :=
  [ JObj [("title", JStr "T"); ("link", JStr "http://x");
          ("content", JStr "S")] ].

Definition sample_once : string :=
  Eval vm_compute in default "" (ref_JSON_stringify (JArr sample_records)).

Definition sample_twice : string :=
  Eval vm_compute in default "" (ref_JSON_stringify (JStr sample_once)).

Definition sample_params : JsValue :=
  JObj [("search_query", JStr "test"); ("count", JNum 5)].

Definition sample_response : JsValue :=
  JObj [("content",
         JArr [JObj [("type", JStr "text"); ("text", JStr sample_once)]])].

Definition sample_tools : JsValue :=
  JObj [("tools", JArr [JObj [("name", JStr "webSearchPrime")]])].

(** A server that connects in 3 ms, lists the tool after 2 ms and
    answers a call after 40 ms with [response]. *)
Definition sample_host (response : JsValue) : Host :=
  ref_host 3 (Settles 2 (inl sample_tools)) (Settles 40 (inl response)).

(** A server that connects and lists the tool but never answers a
    call, and one whose calls fail after 7 ms. *)
Definition silent_host : Host :=
  ref_host 3 (Settles 2 (inl sample_tools)) Never.

Definition failing_host : Host :=
  ref_host 3 (Settles 2 (inl sample_tools))
    (Settles 7 (inr (Foreign (JStr "socket hang up")))).

(** A server on the same machine: everything settles within the
    millisecond. *)
Definition instant_host : Host :=
  ref_host 0 (Settles 0 (inl sample_tools)) (Settles 0 (inl sample_response)).

(** A fresh process at clock reading 1000 with no ambient credential. *)
Definition world0 : World :=
  {| now := 1000; BIGMODEL_API_KEY := None;
     clientCache := ∅; _clientCache := ∅;
     next_client_id := 0; trace := [] |}.

(** ** The loop both normalizers share *)

(** A pass over [rs] that turns each record into an optional keyed item
    ([view]) and keeps an item only the first time its key is met. *)
Section FirstSeenLoop.
Context {I : Type} (view : JsValue → option (string * I)).

Fixpoint first_seen_loop (rs : list JsValue) (seen : gset string)
    (out : list I) : list I :=
  match rs with
  | [] => out
  | r :: rest =>
      match view r with
      | None => first_seen_loop rest seen out
      | Some (u, item) =>
          if bool_decide (u ∈ seen)
          then first_seen_loop rest seen out
          else first_seen_loop rest ({[u]} ∪ seen) (out ++ [item])
      end
  end.

(** The key under which a record is filed, if it has one. *)
Definition view_key (r : JsValue) : option string := fst <$> view r.

(** The item, if any, the pass over [rs] keeps at position [i]. *)
Definition kept_at (rs : list JsValue) (i : nat) : option I :=
  r ← rs !! i;
  ui ← view r;
  if bool_decide (Some ui.1 ∈ view_key <$> take i rs)
  then None else Some ui.2.

End FirstSeenLoop.

(** A text block, as the transport produces it. *)
Definition text_block (text : string) : JsValue :=
  JObj [("type", JStr "text"); ("text", JStr text)].

(** The code of an error, when it is one of this code's own. *)
Definition thrown_code (e : Thrown) : option ErrorCode :=
  match e with
  | BigModelMCPError _ code _ => Some code
  | _ => None
  end.

(** The view of a record the TypeScript loop works on: its item under
    the item's URL. *)
Definition view_item (r : JsValue) : option (string * WebSearchPrimeItem) :=
  (λ item, (url item, item)) <$> normalizeItem r.

(** The first of [candidates] that is neither [undefined] nor [null]. *)
Definition first_present (candidates : list JsValue) : option JsValue :=
  find (λ v, negb (nullish v)) candidates.

(** The code of a rejection, and the value of a resolution. *)
Definition outcome_code {A} (o : Outcome A) : option ErrorCode :=
  match o with
  | Rejected e => thrown_code e
  | _ => None
  end.

Definition resolved_value {A} (o : Outcome A) : option A :=
  match o with
  | Resolved a => Some a
  | _ => None
  end.

(** A computation leaves the TypeScript module's cache as it found it. *)
Definition keeps_clientCache {A} (m : Async A) : Prop :=
  ∀ w, clientCache (m w).2 = clientCache w.

(** Every code unit of [s] is one that [trim] strips. *)
Fixpoint all_trim_space (s : string) : bool :=
  match s with
  | EmptyString => true
  | String c rest => is_trim_space c && all_trim_space rest
  end.

(** The defaults [_toParams] writes before the caller's own entries. *)
Definition default_params : list (string * JsValue) :=
  [ ("count", JNum 10); ("content_size", JStr "medium");
    ("location", JStr "cn") ].

(** Options of a call that passes only a credential, and its variants. *)
Definition key_only : BigModelMCPOptions.t :=
  {| BigModelMCPOptions.apiKey := Some "k";
     BigModelMCPOptions.endpoint := None;
     BigModelMCPOptions.transportHeaders := None;
     BigModelMCPOptions.reuseConnection := None;
     BigModelMCPOptions.validateToolAvailability := None;
     BigModelMCPOptions.timeoutMs := None |}.

Definition with_timeout (t : Z) : BigModelMCPOptions.t :=
  {| BigModelMCPOptions.apiKey := Some "k";
     BigModelMCPOptions.endpoint := None;
     BigModelMCPOptions.transportHeaders := None;
     BigModelMCPOptions.reuseConnection := None;
     BigModelMCPOptions.validateToolAvailability := Some true;
     BigModelMCPOptions.timeoutMs := Some t |}.

Definition _key_only : WebSearchPrimeOptions.t :=
  {| WebSearchPrimeOptions.apiKey := Some "k";
     WebSearchPrimeOptions.endpoint := None;
     WebSearchPrimeOptions.reuseConnection := None |}.

(** The keys a pass over [rs] has met, starting from [seen]. *)
Fixpoint seen_after {I : Type} (view : JsValue → option (string * I))
    (rs : list JsValue) (seen : gset string) : gset string :=
  match rs with
  | [] => seen
  | r :: rest =>
      match view r with
      | None => seen_after view rest seen
      | Some (u, _) =>
          if bool_decide (u ∈ seen) then seen_after view rest seen
          else seen_after view rest ({[u]} ∪ seen)
      end
  end.

(** The four alias fields a URL is resolved from. *)
Definition url_aliases : list string := ["link"; "url"; "href"; "sourceUrl"].

(** An alias field as providers usually send it: absent, or a non-empty
    string. *)
Definition plain_alias (v : JsValue) : bool :=
  match v with
  | JUndefined => true
  | JStr s => negb (String.eqb s "")
  | _ => false
  end.

(** *** Resolving a record's URL, in words *)

(** The specification's rule, first-present-wins over the aliases
    [link], [url], [href], [sourceUrl]: the first of the four fields
    that holds a value (one that is neither [undefined] nor [null])
    decides, and the record has a resolvable URL exactly when that value
    is a non-empty text.  A record that is not an object holds no
    field. *)
Definition spec_resolve_url (r : JsValue) : option string :=
  match first_present ((λ k, r.[k]%js) <$> url_aliases) with
  | Some (JStr u) => if String.eqb u "" then None else Some u
  | _ => None
  end.

(** The same rule with "holds a value" read as "is truthy": empty
    strings, zero, [NaN] and [false] are passed over like [undefined] and
    [null], and the first of the four fields that is left decides. *)
Definition first_truthy_url (r : JsValue) : option string :=
  match find truthy ((λ k, r.[k]%js) <$> url_aliases) with
  | Some (JStr u) => Some u
  | _ => None
  end.

(** Two records whose [link] holds a value that is no URL while their
    [url] holds one, and the text of a block that carries them. *)
Definition empty_link_record : JsValue :=
  JObj [("title", JStr "T"); ("link", JStr ""); ("url", JStr "http://x")].

Definition numeric_link_record : JsValue :=
  JObj [("title", JStr "U"); ("link", JNum 5); ("url", JStr "http://y")].

Definition odd_link_text : string :=
  Eval vm_compute in
    default "" (ref_JSON_stringify
                  (JArr [empty_link_record; numeric_link_record])).

(** The polynomial the fingerprint loop evaluates, without the 32-bit
    wrap: [h * 31^n + c1 * 31^(n-1) + ... + cn] for code units
    [c1 ... cn]. *)
Fixpoint hash_poly (s : string) (h : Z) : Z :=
  match s with
  | EmptyString => h
  | String c rest => hash_poly rest (31 * h + Z.of_nat (nat_of_ascii c))
  end.

(** A server that accepts the transport but never completes the
    connect; one whose listing names another tool; a response flagged as
    an error; and options naming an endpoint that is no URL. *)
Definition stalled_host : Host :=
  {| JSON_parse := ref_JSON_parse;
     JSON_stringify := ref_JSON_stringify;
     URL_valid := λ e, String.prefix "http://" e || String.prefix "https://" e;
     sdk_connect := λ _, Never;
     sdk_listTools := λ _, Never;
     sdk_callTool := λ _ _ _, Never |}.

Definition other_tools : JsValue :=
  JObj [("tools", JArr [JObj [("name", JStr "webSearch")]])].

Definition untooled_host : Host :=
  ref_host 3 (Settles 2 (inl other_tools)) (Settles 40 (inl sample_response)).

Definition error_response : JsValue :=
  JObj [("isError", JBool true);
        ("content", JArr [text_block "quota exceeded"])].

Definition bad_endpoint : BigModelMCPOptions.t :=
  {| BigModelMCPOptions.apiKey := Some "k";
     BigModelMCPOptions.endpoint := Some "open.bigmodel.cn/api/mcp";
     BigModelMCPOptions.transportHeaders := None;
     BigModelMCPOptions.reuseConnection := None;
     BigModelMCPOptions.validateToolAvailability := None;
     BigModelMCPOptions.timeoutMs := None |}.

(** * Properties *)

(** Closed statements about sample inputs are settled by evaluating
    both sides, conjunct by conjunct. *)
Ltac by_evaluation :=
  intros; repeat apply conj; vm_compute;
  first [reflexivity | discriminate | done].

(** ** The first-seen loop *)

Lemma omap_cons_eq {A B} (f : A → option B) (x : A) (l : list A) :
  omap f (x :: l)
  = match f x with
    | Some y => y :: omap f l
    | None => omap f l
    end.
Proof. reflexivity. Qed.

Section FirstSeenLoopFacts.
Context {I : Type} (view : JsValue → option (string * I)).

Local Abbreviation key := (view_key view).

Lemma first_seen_loop_app (rs : list JsValue) (seen : gset string)
    (out : list I) :
  first_seen_loop view rs seen out = out ++ first_seen_loop view rs seen [].
Proof.
  revert seen out. induction rs as [|r rs IH]; intros seen out; simpl.
  - by rewrite app_nil_r.
  - destruct (view r) as [[u item]|]; [|apply IH].
    case_bool_decide; [apply IH|].
    rewrite (IH _ (out ++ [item])), (IH _ ([] ++ [item])).
    by rewrite <- app_assoc.
Qed.

(** With [seen] holding the keys of the records already passed ([pre]),
    the loop appends exactly the items kept at the positions of [rs]. *)
Lemma first_seen_loop_kept (pre rs : list JsValue) (seen : gset string)
    (out : list I) :
  (∀ u, u ∈ seen ↔ Some u ∈ key <$> pre) →
  first_seen_loop view rs seen out
  = out ++ omap (kept_at view (pre ++ rs)) (seq (length pre) (length rs)).
Proof.
  revert pre seen out. induction rs as [|r rs IH]; intros pre seen out Hseen.
  { simpl. by rewrite app_nil_r. }
  assert (Hk : kept_at view (pre ++ r :: rs) (length pre)
               = ui ← view r;
                 if bool_decide (Some ui.1 ∈ key <$> pre)
                 then None else Some ui.2).
  { unfold kept_at. by rewrite list_lookup_middle, take_app_length. }
  assert (Hc : pre ++ r :: rs = (pre ++ [r]) ++ rs)
    by (by rewrite <- app_assoc).
  assert (Hsnoc : ∀ u', Some u' ∈ key <$> (pre ++ [r])
                        ↔ Some u' ∈ key <$> pre ∨ Some u' = key r).
  { intros u'. rewrite fmap_app, elem_of_app. simpl.
    by rewrite list_elem_of_singleton. }
  assert (Hlen : S (length pre) = length (pre ++ [r]))
    by (rewrite length_app; simpl; lia).
  change (length (r :: rs)) with (S (length rs)).
  cbn [first_seen_loop seq]. rewrite omap_cons_eq, Hk, Hc, Hlen. clear Hk.
  unfold view_key in Hsnoc at 3.
  destruct (view r) as [[u item]|] eqn:Hv; cbn [mbind option_bind fst snd].
  - case_bool_decide as Hin.
    + rewrite bool_decide_true by (by apply Hseen).
      apply IH. intros u'. rewrite Hsnoc, <- Hseen. simpl.
      split; [tauto|]. intros [?|[= ->]]; done.
    + rewrite bool_decide_false by (by rewrite <- Hseen).
      rewrite (IH (pre ++ [r]) ({[u]} ∪ seen) (out ++ [item])).
      * by rewrite <- app_assoc.
      * intros u'. rewrite elem_of_union, elem_of_singleton, Hsnoc, <- Hseen.
        simpl. split; intros [?|?]; simplify_eq; auto.
  - apply IH. intros u'. rewrite Hsnoc, <- Hseen. simpl.
    split; [tauto|]. intros [?|?]; done.
Qed.

Lemma first_seen_loop_length (rs : list JsValue) (seen : gset string)
    (out : list I) :
  (length (first_seen_loop view rs seen out) ≤ length out + length rs)%nat.
Proof.
  revert seen out. induction rs as [|r rs IH]; intros seen out; simpl.
  - lia.
  - destruct (view r) as [[u item]|].
    + case_bool_decide.
      * specialize (IH seen out). lia.
      * specialize (IH ({[u]} ∪ seen) (out ++ [item])).
        rewrite length_app in IH. simpl in IH. lia.
    + specialize (IH seen out). lia.
Qed.

(** Keys of kept items never repeat, whatever reads the key back from an
    item ([key_of]). *)
Lemma first_seen_loop_NoDup (key_of : I → string) (rs : list JsValue)
    (seen : gset string) (out : list I) :
  (∀ r u item, view r = Some (u, item) → key_of item = u) →
  NoDup (key_of <$> out) →
  (∀ item, item ∈ out → key_of item ∈ seen) →
  NoDup (key_of <$> first_seen_loop view rs seen out).
Proof.
  intros Hkey. revert seen out.
  induction rs as [|r rs IH]; intros seen out Hnd Hsub; simpl; [done|].
  destruct (view r) as [[u item]|] eqn:Hv; [|by apply IH].
  case_bool_decide as Hin; [by apply IH|].
  apply IH.
  - rewrite fmap_app. apply NoDup_app. split; [done|]. split.
    + intros k Hk. simpl. rewrite list_elem_of_singleton. intros ->.
      apply list_elem_of_fmap in Hk as (it & Heq & Hit).
      apply Hin. rewrite <- (Hkey _ _ _ Hv), Heq. by apply Hsub.
    + simpl. apply NoDup_singleton.
  - intros it. rewrite elem_of_app, list_elem_of_singleton.
    intros [Hit| ->].
    + apply elem_of_union_r. by apply Hsub.
    + apply elem_of_union_l, elem_of_singleton. by apply (Hkey _ _ _ Hv).
Qed.

End FirstSeenLoopFacts.

Lemma kept_at_origin {I} (view : JsValue → option (string * I))
    (rs : list JsValue) (i : nat) (item : I) :
  kept_at view rs i = Some item →
  ∃ r u, rs !! i = Some r ∧ view r = Some (u, item).
Proof.
  unfold kept_at. destruct (rs !! i) as [r|]; [|done]. simpl.
  destruct (view r) as [[u it]|] eqn:Hv; [|done]. simpl.
  case_bool_decide; [done|]. intros [= ->]. eauto.
Qed.

(** Reading the record back from each kept item gives the records the
    specification selects. *)
Lemma kept_records {I} (view : JsValue → option (string * I))
    (key : JsValue → option string) (record : I → JsValue)
    (rs : list JsValue) :
  (∀ r, fst <$> view r = key r) →
  (∀ r u item, view r = Some (u, item) → record item = r) →
  record <$> omap (kept_at view rs) (seq 0 (length rs))
  = spec_first_seen key rs.
Proof.
  intros Hkey Hrec. unfold spec_first_seen.
  induction (seq 0 (length rs)) as [|i idx IH]; [done|].
  rewrite !omap_cons_eq.
  assert (Hi : record <$> kept_at view rs i
               = (r ← rs !! i;
                  u ← key r;
                  if bool_decide (Some u ∈ key <$> take i rs)
                  then None else Some r)).
  { unfold kept_at. destruct (rs !! i) as [r|]; [|done]. simpl.
    rewrite <- (Hkey r).
    rewrite (list_fmap_ext (view_key view) key (take i rs))
      by (intros; apply Hkey).
    destruct (view r) as [[u it]|] eqn:Hv; [|done]. simpl.
    case_bool_decide; [done|]. simpl. by rewrite (Hrec _ _ _ Hv). }
  rewrite <- Hi.
  destruct (kept_at view rs i); simpl; [f_equal|]; apply IH.
Qed.

(** ** Item normalizer *)

(** The TypeScript loop is the first-seen loop over [normalizeItem]. *)
Lemma normalizeItems_loop_first_seen (rs : list JsValue) (seen : gset string)
    (result : list WebSearchPrimeItem) :
  normalizeItems_loop rs seen result
  = first_seen_loop view_item rs seen result.
Proof.
  revert seen result. induction rs as [|r rs IH]; intros seen result; [done|].
  simpl. unfold view_item. destruct (normalizeItem r) as [item|]; simpl.
  - case_bool_decide; apply IH.
  - apply IH.
Qed.

Lemma _normalizeItems_loop_first_seen (rs : list JsValue) (seen : gset string)
    (out : list JsValue) :
  _normalizeItems_loop rs seen out
  = first_seen_loop _normalizeItem rs seen out.
Proof.
  revert seen out. induction rs as [|r rs IH]; intros seen out; [done|].
  simpl. destruct (_normalizeItem r) as [[link item]|]; simpl.
  - case_bool_decide; apply IH.
  - apply IH.
Qed.

Lemma resolveUrl_not_object (r : JsValue) :
  negb (truthy r) || negb (String.eqb (typeof r) "object") = true →
  resolveUrl r = None.
Proof. by destruct r. Qed.

Lemma _resolveLink_not_object (r : JsValue) :
  negb (truthy r) || negb (String.eqb (typeof r) "object") = true →
  _resolveLink r = None.
Proof. by destruct r. Qed.

Lemma normalizeItem_Some (r : JsValue) (item : WebSearchPrimeItem) :
  normalizeItem r = Some item →
  resolveUrl r = Some (url item) ∧ raw item = r
  ∧ title item = resolveTitle r (url item).
Proof.
  unfold normalizeItem.
  destruct (negb (truthy r) || negb (String.eqb (typeof r) "object"));
    [done|].
  destruct (resolveUrl r) as [u|]; [|done]. by intros [= <-].
Qed.

Lemma view_item_key (r : JsValue) : fst <$> view_item r = resolveUrl r.
Proof.
  unfold view_item, normalizeItem.
  destruct (negb (truthy r) || negb (String.eqb (typeof r) "object")) eqn:Hg.
  - by rewrite resolveUrl_not_object.
  - by destruct (resolveUrl r).
Qed.

Lemma _normalizeItem_Some (r : JsValue) (link : string) (item : JsValue) :
  _normalizeItem r = Some (link, item) →
  _resolveLink r = Some link
  ∧ item.["raw"]%js = r
  ∧ item.["url"]%js = JStr link
  ∧ item.["title"]%js = (r.["title"] || r.["name"] || JStr link)%js.
Proof.
  unfold _normalizeItem.
  destruct (negb (truthy r) || negb (String.eqb (typeof r) "object"));
    [done|].
  destruct (_resolveLink r) as [l|]; [|done]. by intros [= <- <-].
Qed.

Lemma _normalizeItem_key (r : JsValue) :
  fst <$> _normalizeItem r = _resolveLink r.
Proof.
  unfold _normalizeItem.
  destruct (negb (truthy r) || negb (String.eqb (typeof r) "object")) eqn:Hg.
  - by rewrite _resolveLink_not_object.
  - by destruct (_resolveLink r).
Qed.

(** The kept items, position by position. *)
Lemma normalizeItems_kept (rs : list JsValue) :
  normalizeItems rs = omap (kept_at view_item rs) (seq 0 (length rs)).
Proof.
  unfold normalizeItems. rewrite normalizeItems_loop_first_seen.
  by rewrite (first_seen_loop_kept view_item [] rs ∅ [])
    by (intros u; simpl; rewrite elem_of_nil; set_solver).
Qed.

Lemma _normalizeItems_kept (rs : list JsValue) :
  _normalizeItems rs = omap (kept_at _normalizeItem rs) (seq 0 (length rs)).
Proof.
  unfold _normalizeItems. rewrite _normalizeItems_loop_first_seen.
  by rewrite (first_seen_loop_kept _normalizeItem [] rs ∅ [])
    by (intros u; simpl; rewrite elem_of_nil; set_solver).
Qed.

Lemma normalizeItems_origin (rs : list JsValue) (item : WebSearchPrimeItem) :
  item ∈ normalizeItems rs → ∃ r, r ∈ rs ∧ normalizeItem r = Some item.
Proof.
  rewrite normalizeItems_kept, list_elem_of_omap.
  intros (i & _ & Hk). apply kept_at_origin in Hk as (r & u & Hi & Hv).
  exists r. split; [by eapply list_elem_of_lookup_2|].
  unfold view_item in Hv. destruct (normalizeItem r); by simplify_eq/=.
Qed.

Lemma _normalizeItems_origin (rs : list JsValue) (item : JsValue) :
  item ∈ _normalizeItems rs →
  ∃ r link, r ∈ rs ∧ _normalizeItem r = Some (link, item).
Proof.
  rewrite _normalizeItems_kept, list_elem_of_omap.
  intros (i & _ & Hk). apply kept_at_origin in Hk as (r & u & Hi & Hv).
  exists r, u. split; [by eapply list_elem_of_lookup_2|done].
Qed.

(** What [normalizeItems] returns for any list of records. *)
Lemma normalizeItems_spec (rs : list JsValue) :
  raw <$> normalizeItems rs = spec_first_seen resolveUrl rs
  ∧ Forall (λ item, resolveUrl (raw item) = Some (url item)) (normalizeItems rs)
  ∧ NoDup (url <$> normalizeItems rs)
  ∧ (length (normalizeItems rs) ≤ length rs)%nat.
Proof.
  split; [|split; [|split]].
  - rewrite normalizeItems_kept. apply kept_records.
    + apply view_item_key.
    + intros r u item Hv. unfold view_item in Hv.
      destruct (normalizeItem r) as [it|] eqn:Hn; simplify_eq/=.
      by apply normalizeItem_Some in Hn as (_ & ? & _).
  - apply Forall_forall. intros item Hin.
    apply normalizeItems_origin in Hin as (r & _ & Hn).
    apply normalizeItem_Some in Hn as (? & -> & _). done.
  - unfold normalizeItems. rewrite normalizeItems_loop_first_seen.
    apply first_seen_loop_NoDup.
    + intros r u item Hv. unfold view_item in Hv.
      destruct (normalizeItem r); by simplify_eq/=.
    + constructor.
    + intros item Hin. by apply elem_of_nil in Hin.
  - unfold normalizeItems. rewrite normalizeItems_loop_first_seen.
    apply (first_seen_loop_length view_item rs ∅ []).
Qed.

(** What [_normalizeItems] returns for any list of records. *)
Lemma _normalizeItems_spec (rs : list JsValue) :
  (λ item, item.["raw"]%js) <$> _normalizeItems rs
  = spec_first_seen _resolveLink rs
  ∧ Forall (λ item, ∃ link, item.["url"]%js = JStr link
                            ∧ _resolveLink item.["raw"]%js = Some link)
      (_normalizeItems rs)
  ∧ NoDup ((λ item, item.["url"]%js) <$> _normalizeItems rs)
  ∧ (length (_normalizeItems rs) ≤ length rs)%nat.
Proof.
  split; [|split; [|split]].
  - rewrite _normalizeItems_kept. apply kept_records.
    + apply _normalizeItem_key.
    + intros r u item Hv. by apply _normalizeItem_Some in Hv as (_ & ? & _).
  - apply Forall_forall. intros item Hin.
    apply _normalizeItems_origin in Hin as (r & link & _ & Hn).
    apply _normalizeItem_Some in Hn as (? & -> & ? & _). eauto.
  - set (key_of := λ item : JsValue,
                     match item.["url"]%js with JStr u => u | _ => "" end).
    assert (Hnd : NoDup (key_of <$> _normalizeItems rs)).
    { unfold _normalizeItems. rewrite _normalizeItems_loop_first_seen.
      apply first_seen_loop_NoDup.
      - intros r u item Hv. unfold key_of.
        apply _normalizeItem_Some in Hv as (_ & _ & -> & _). done.
      - constructor.
      - intros item Hin. by apply elem_of_nil in Hin. }
    rewrite (list_fmap_ext _ (λ item, JStr (key_of item))
               (_normalizeItems rs)).
    + rewrite (list_fmap_compose key_of JStr).
      apply NoDup_fmap_2; [|done]. intros ? ? Heq. by injection Heq.
    + intros i item Hi. apply list_elem_of_lookup_2 in Hi.
      apply _normalizeItems_origin in Hi as (r & link & _ & Hn).
      apply _normalizeItem_Some in Hn as (_ & _ & Hu & _).
      unfold key_of. by rewrite Hu.
  - unfold _normalizeItems. rewrite _normalizeItems_loop_first_seen.
    apply (first_seen_loop_length _normalizeItem rs ∅ []).
Qed.

(** The alias chains, spelled out.  In bigmodel-web-search-prime.ts
    the URL is the first of [link], [url], [href] and (only when it is a
    string) [sourceUrl] that is neither [undefined] nor [null], provided
    that value is a non-empty string.  In index.js it is the first of
    the four that is truthy, provided that value is a string. *)
Lemma resolveUrl_chain (o : JsValue) :
  resolveUrl o
  = match first_present
            [ o.["link"]; o.["url"]; o.["href"];
              if String.eqb (typeof o.["sourceUrl"]) "string"
              then o.["sourceUrl"] else JUndefined ]%js with
    | Some (JStr u) => if String.eqb u "" then None else Some u
    | _ => None
    end.
Proof.
  unfold resolveUrl.
  set (d := if String.eqb (typeof o.["sourceUrl"]%js) "string"
            then o.["sourceUrl"]%js else JUndefined).
  set (v := (o.["link"] ?? o.["url"] ?? o.["href"] ?? d)%js).
  assert (Hv : first_present [o.["link"]; o.["url"]; o.["href"]; d]%js
               = if nullish v then None else Some v).
  { unfold first_present, v, nullish_coalesce. simpl.
    destruct (nullish o.["link"]%js) eqn:Hl; simpl; [|by rewrite Hl].
    destruct (nullish o.["url"]%js) eqn:Hu; simpl; [|by rewrite Hu].
    destruct (nullish o.["href"]%js) eqn:Hh; simpl; [|by rewrite Hh].
    by destruct (nullish d). }
  rewrite Hv. destruct v as [| |?|?|u|?|?]; simpl; rewrite ?orb_true_r;
    try done.
  by destruct u.
Qed.

Lemma _resolveLink_chain (r : JsValue) :
  _resolveLink r
  = match find truthy [ r.["link"]; r.["url"]; r.["href"];
                        r.["sourceUrl"] ]%js with
    | Some (JStr l) => Some l
    | _ => None
    end.
Proof.
  unfold _resolveLink.
  generalize (r.["link"]%js) (r.["url"]%js) (r.["href"]%js)
    (r.["sourceUrl"]%js).
  intros a b c d. set (v := (a || b || c || d)%js).
  assert (Hv : find truthy [a; b; c; d]
               = if truthy v then Some v else None).
  { unfold v, js_or. simpl.
    destruct (truthy a) eqn:Ha; simpl; [by repeat (rewrite Ha; simpl)|].
    destruct (truthy b) eqn:Hb; simpl; [by repeat (rewrite Hb; simpl)|].
    destruct (truthy c) eqn:Hc; simpl; [by repeat (rewrite Hc; simpl)|].
    destruct (truthy d) eqn:Hd; simpl; by rewrite ?Hd. }
  rewrite Hv. destruct v as [| |[]|?|u|?|?]; simpl; rewrite ?orb_true_r;
    try done.
  - by destruct (negb _).
  - by destruct u.
Qed.

(** The records of several blocks are extracted block after block into
    one list, so the normalizer's first-seen rule runs across blocks. *)
Lemma parseItemsFromBlocks_loop_app `{Host} (blocks out : list JsValue) :
  parseItemsFromBlocks_loop blocks out
  = out ++ parseItemsFromBlocks_loop blocks [].
Proof.
  revert out. induction blocks as [|b blocks IH]; intros out; simpl.
  - by rewrite app_nil_r.
  - destruct (b.["type"]%js); try apply IH.
    destruct (b.["text"]%js); try apply IH.
    destruct (String.eqb _ _); [|apply IH].
    rewrite (IH (out ++ _)), (IH (block_contribution _)).
    by rewrite app_assoc.
Qed.

Lemma parseItemsFromBlocks_app `{Host} (blocks1 blocks2 : list JsValue) :
  parseItemsFromBlocks (blocks1 ++ blocks2)
  = parseItemsFromBlocks blocks1 ++ parseItemsFromBlocks blocks2.
Proof.
  unfold parseItemsFromBlocks.
  rewrite <- (parseItemsFromBlocks_loop_app blocks2).
  generalize (@nil JsValue).
  induction blocks1 as [|b blocks1 IH]; intros out; simpl; [done|].
  destruct (b.["type"]%js); try apply IH.
  destruct (b.["text"]%js); try apply IH.
  destruct (String.eqb _ _); apply IH.
Qed.

Lemma _extractArrayFromBlocks_loop_app `{Host} (blocks out : list JsValue) :
  _extractArrayFromBlocks_loop blocks out
  = out ++ _extractArrayFromBlocks_loop blocks [].
Proof.
  revert out. induction blocks as [|b blocks IH]; intros out; simpl.
  - by rewrite app_nil_r.
  - destruct (negb (truthy b)); [apply IH|].
    destruct (b.["type"]%js); try apply IH.
    destruct (b.["text"]%js); try apply IH.
    destruct (String.eqb _ _); [|apply IH].
    rewrite (IH (out ++ _)), (IH (block_contribution _)).
    by rewrite app_assoc.
Qed.

Lemma _extractArrayFromBlocks_app `{Host} (blocks1 blocks2 : list JsValue) :
  _extractArrayFromBlocks (blocks1 ++ blocks2)
  = _extractArrayFromBlocks blocks1 ++ _extractArrayFromBlocks blocks2.
Proof.
  unfold _extractArrayFromBlocks.
  rewrite <- (_extractArrayFromBlocks_loop_app blocks2).
  generalize (@nil JsValue).
  induction blocks1 as [|b blocks1 IH]; intros out; simpl; [done|].
  destruct (negb (truthy b)); [apply IH|].
  destruct (b.["type"]%js); try apply IH.
  destruct (b.["text"]%js); try apply IH.
  destruct (String.eqb _ _); apply IH.
Qed.

(** The selection depends on the key only through the records at hand. *)
Lemma spec_first_seen_ext_all (key1 key2 : JsValue → option string)
    (rs : list JsValue) :
  (∀ r, key1 r = key2 r) →
  spec_first_seen key1 rs = spec_first_seen key2 rs.
Proof.
  intros Hk. unfold spec_first_seen.
  assert (Hfmap : ∀ l : list JsValue, key1 <$> l = key2 <$> l).
  { intros l. apply list_fmap_ext. intros i r _. apply Hk. }
  induction (seq 0 (length rs)) as [|i idx IH]; [done|].
  rewrite !omap_cons_eq, IH. destruct (rs !! i) as [r|]; [|done]. simpl.
  by rewrite Hk, Hfmap.
Qed.

(** [resolveUrl] computes the specification's rule: the guard on
    [sourceUrl] changes nothing, as a [sourceUrl] that is no string
    resolves no URL either way. *)
Lemma resolveUrl_first_present (r : JsValue) :
  resolveUrl r = spec_resolve_url r.
Proof.
  rewrite resolveUrl_chain. unfold spec_resolve_url, url_aliases, first_present.
  cbn [fmap list_fmap find].
  destruct (negb (nullish r.["link"]%js)); [done|].
  destruct (negb (nullish r.["url"]%js)); [done|].
  destruct (negb (nullish r.["href"]%js)); [done|].
  by destruct (r.["sourceUrl"]%js).
Qed.

(** [_resolveLink] computes the rule read with truthiness. *)
Lemma _resolveLink_first_truthy (r : JsValue) :
  _resolveLink r = first_truthy_url r.
Proof. by rewrite _resolveLink_chain. Qed.

(** C1, as the code has it.  For every list of content blocks,
    normalizing the records extracted from them returns exactly the
    extracted records that resolve a URL, each kept only where its URL
    first occurs among all the extracted records (whatever block they
    came from), in their original order; every returned item carries
    the URL resolved from its record, no URL occurs twice, and there are
    at most as many items as extracted records.  What resolves a URL
    differs between the files.  For [normalizeItems] over
    [parseItemsFromBlocks] it is the specification's rule: the first of
    [link], [url], [href], [sourceUrl] that is neither [undefined] nor
    [null] must be a non-empty string.  For [_normalizeItems] over
    [_extractArrayFromBlocks] the first of the four that is truthy must
    be a string. *)
Theorem normalize_extracted_records `{Host} (blocks : list JsValue) :
  (let records := parseItemsFromBlocks blocks in
   let out := normalizeItems records in
   raw <$> out = spec_first_seen spec_resolve_url records
   ∧ Forall (λ item, spec_resolve_url (raw item) = Some (url item)) out
   ∧ NoDup (url <$> out)
   ∧ (length out ≤ length records)%nat)
  ∧
  (let records := _extractArrayFromBlocks blocks in
   let out := _normalizeItems records in
   (λ item, item.["raw"]%js) <$> out = spec_first_seen first_truthy_url records
   ∧ Forall (λ item, ∃ link, item.["url"]%js = JStr link
                             ∧ first_truthy_url item.["raw"]%js = Some link)
       out
   ∧ NoDup ((λ item, item.["url"]%js) <$> out)
   ∧ (length out ≤ length records)%nat).
Proof.
  split; cbv zeta.
  - destruct (normalizeItems_spec (parseItemsFromBlocks blocks))
      as (Hraw & Hurl & Hnd & Hlen).
    split; [|split; [|done]].
    + rewrite Hraw. apply spec_first_seen_ext_all, resolveUrl_first_present.
    + eapply Forall_impl; [exact Hurl|]. intros item Hitem. simpl in *.
      by rewrite <- resolveUrl_first_present.
  - destruct (_normalizeItems_spec (_extractArrayFromBlocks blocks))
      as (Hraw & Hurl & Hnd & Hlen).
    split; [|split; [|done]].
    + rewrite Hraw. apply spec_first_seen_ext_all, _resolveLink_first_truthy.
    + eapply Forall_impl; [exact Hurl|]. intros item (link & Hu & Hl).
      exists link. by rewrite <- _resolveLink_first_truthy.
Qed.

(** C1, as stated, fails: the two files do not resolve the same records
    under one alias chain.  A block carries one record whose [link] is
    the empty string and one whose [link] is the number 5, each with a
    URL in [url].  Under first-present-wins neither record resolves a
    URL, and bigmodel-web-search-prime.ts returns nothing; index.js
    passes over the empty [link] and returns the first record under its
    [url], which the rule does not select.  Neither file returns the
    second record, whose [url] holds a URL as well. *)
Lemma index_resolves_past_an_empty_link :
  let blocks := [text_block odd_link_text] in
  let records := [empty_link_record; numeric_link_record] in
  @parseItemsFromBlocks silent_host blocks = records
  ∧ @_extractArrayFromBlocks silent_host blocks = records
  ∧ spec_first_seen spec_resolve_url records = []
  ∧ raw <$> normalizeItems (@parseItemsFromBlocks silent_host blocks) = []
  ∧ (λ item, item.["raw"]%js)
      <$> _normalizeItems (@_extractArrayFromBlocks silent_host blocks)
    = [empty_link_record]
  ∧ (λ item, item.["url"]%js)
      <$> _normalizeItems (@_extractArrayFromBlocks silent_host blocks)
    = [JStr "http://x"]
  ∧ (λ item, item.["raw"]%js)
      <$> _normalizeItems (@_extractArrayFromBlocks silent_host blocks)
    ≠ spec_first_seen spec_resolve_url
        (@_extractArrayFromBlocks silent_host blocks).
Proof. by_evaluation. Qed.

(** In bigmodel-web-search-prime.ts every kept item's title is the first
    of its record's [title], [name], [page_title] that is present
    (neither [undefined] nor [null]), and its URL when none is. *)
Lemma normalizeItems_title (rs : list JsValue) :
  Forall (λ item,
            let r := raw item in
            title item
            = default (JStr (url item))
                (first_present [r.["title"]; r.["name"]; r.["page_title"]]%js))
    (normalizeItems rs).
Proof.
  apply Forall_forall. intros item Hin.
  apply normalizeItems_origin in Hin as (r & _ & Hn).
  apply normalizeItem_Some in Hn as (_ & -> & ->).
  unfold resolveTitle, first_present, nullish_coalesce. simpl.
  destruct (nullish r.["title"]%js); [|done].
  destruct (nullish r.["name"]%js); [|done].
  by destruct (nullish r.["page_title"]%js).
Qed.

(** C6.  For the record [{ page_title: "P", link: "http://x" }], whose
    only title field is [page_title], [_normalizeItems] of index.js
    returns the URL as the title, where the claim (and [normalizeItems]
    of bigmodel-web-search-prime.ts) gives ["P"]. *)
Theorem index_title_skips_page_title :
  let r := JObj [("page_title", JStr "P"); ("link", JStr "http://x")] in
  (λ item, item.["title"]%js) <$> _normalizeItems [r] = [JStr "http://x"]
  ∧ title <$> normalizeItems [r] = [JStr "P"].
Proof. by_evaluation. Qed.

(** ** Payload unwrapper *)

Section DoubleEncoding.
Context `{Host}.

(** What the claim needs of the platform's codec: encoding a string and
    decoding it gives the string back, and no encoding of an array
    decodes to a string. *)
Hypothesis parse_stringify_string :
  ∀ s t, JSON_stringify (JStr s) = Some t → JSON_parse t = Some (JStr s).
Hypothesis parse_stringify_array :
  ∀ a t s, JSON_stringify (JArr a) = Some t → JSON_parse t ≠ Some (JStr s).

Lemma parse_rounds_twice_encoded (a : list JsValue) (once twice : string) :
  JSON_stringify (JArr a) = Some once →
  JSON_stringify (JStr once) = Some twice →
  parse_rounds 2 (JStr twice) = parse_rounds 2 (JStr once).
Proof.
  intros Ha Hs. simpl. rewrite (parse_stringify_string _ _ Hs).
  destruct (JSON_parse once) as [v|] eqn:Hv; [|done].
  destruct v; try done. by destruct (parse_stringify_array _ _ s Ha).
Qed.

End DoubleEncoding.

(** C7.  Let the platform's codec give a string back when it decodes the
    encoding of that string, and never decode the encoding of an array
    to a string.  Then for every array [a], a text block whose text is
    [a] encoded twice unwraps to the same records as a text block whose
    text is [a] encoded once, under [parseItemsFromBlocks] and under
    [_extractArrayFromBlocks]. *)
Theorem double_encoding_unwraps_alike `{Host} :
  (∀ s t, JSON_stringify (JStr s) = Some t → JSON_parse t = Some (JStr s)) →
  (∀ a t s, JSON_stringify (JArr a) = Some t → JSON_parse t ≠ Some (JStr s)) →
  ∀ (a : list JsValue) (once twice : string) (b1 b2 : JsValue),
    JSON_stringify (JArr a) = Some once →
    JSON_stringify (JStr once) = Some twice →
    b1.["type"]%js = JStr "text" → b1.["text"]%js = JStr twice →
    b2.["type"]%js = JStr "text" → b2.["text"]%js = JStr once →
    parseItemsFromBlocks [b1] = parseItemsFromBlocks [b2]
    ∧ _extractArrayFromBlocks [b1] = _extractArrayFromBlocks [b2].
Proof.
  intros Hs Ha a once twice b1 b2 Honce Htwice Hty1 Htx1 Hty2 Htx2.
  assert (Hp := parse_rounds_twice_encoded Hs Ha a once twice Honce Htwice).
  assert (Ht1 : truthy b1 = true) by (by destruct b1).
  assert (Ht2 : truthy b2 = true) by (by destruct b2).
  unfold parseItemsFromBlocks, _extractArrayFromBlocks.
  cbn [parseItemsFromBlocks_loop _extractArrayFromBlocks_loop].
  rewrite Ht1, Ht2, Hty1, Htx1, Hty2, Htx2. cbn [negb].
  unfold parsePossiblyNestedJson, _parseNestedJson. by rewrite Hp.
Qed.

(** ** The reference codec obeys the laws the unwrapper relies on *)

Lemma string_app_cons (c : ascii) (s1 s2 : string) :
  String c s1 +:+ s2 = String c (s1 +:+ s2).
Proof. reflexivity. Qed.

Lemma string_app_nil_r (s : string) : s +:+ "" = s.
Proof.
  induction s as [|c s IH]; [done|]. by rewrite string_app_cons, IH.
Qed.

Lemma string_app_assoc (s1 s2 s3 : string) :
  (s1 +:+ s2) +:+ s3 = s1 +:+ (s2 +:+ s3).
Proof.
  induction s1 as [|c s1 IH]; [done|]. by rewrite !string_app_cons, IH.
Qed.

Lemma lex_escape_char (c : ascii) (acc : string) (toks : list Token)
    (tail : string) :
  lex (LexString acc) toks (escape_char c +:+ tail)
  = lex (LexString (snoc acc c)) toks tail.
Proof. by destruct c as [[] [] [] [] [] [] [] []]. Qed.

Lemma lex_escape (s acc : string) (toks : list Token) (tail : string) :
  lex (LexString acc) toks (escape s +:+ tail)
  = lex (LexString (acc +:+ s)) toks tail.
Proof.
  revert acc. induction s as [|c s IH]; intros acc.
  - by rewrite string_app_nil_r.
  - cbn [escape]. rewrite string_app_assoc, lex_escape_char, IH.
    unfold snoc. by rewrite string_app_assoc.
Qed.

Lemma lex_quote (s : string) : lex LexDefault [] (quote s) = Some [TString s].
Proof.
  unfold quote. cbn [lex lex_step lex_start]. simpl.
  change (lex (LexString "") [] (escape s +:+ dquote) = Some [TString s]).
  by rewrite lex_escape.
Qed.

(** Decoding the encoding of a string gives the string back. *)
Lemma ref_parse_stringify_string (s t : string) :
  ref_JSON_stringify (JStr s) = Some t → ref_JSON_parse t = Some (JStr s).
Proof.
  intros [= <-]. unfold ref_JSON_parse. by rewrite lex_quote.
Qed.

(** The tokens found so far stay at the front of the lexer's result. *)
Lemma lex_keeps_tokens (s : string) (st : LexState) (toks out : list Token) :
  lex st toks s = Some out → ∃ more, out = rev toks ++ more.
Proof.
  revert st toks. induction s as [|c s IH]; intros st toks; simpl.
  - destruct st as [| | | |bare]; simpl; try done.
    + intros [= <-]. exists []. by rewrite app_nil_r.
    + destruct (bare_token bare) as [t|]; simpl; [|done].
      intros [= <-]. exists [t]. done.
  - destruct (lex_step st c) as [[ts st']|]; [|done].
    intros Hl. apply IH in Hl as [more ->].
    rewrite rev_append_rev, rev_app_distr, rev_involutive, <- app_assoc.
    eauto.
Qed.

Lemma parse_elements_array (value : list Token → option (JsValue * list Token))
    (n : nat) (acc : list JsValue) (ts rest : list Token) (v : JsValue) :
  parse_elements value n acc ts = Some (v, rest) → isArray v = true.
Proof.
  revert acc ts. induction n as [|n IH]; intros acc ts; simpl; [done|].
  destruct (value ts) as [[x [|[] ts']]|]; try done.
  - by intros [= <- _].
  - apply IH.
Qed.

Lemma parse_value_bracket (fuel : nat) (ts rest : list Token) (v : JsValue) :
  parse_value fuel (TLBracket :: ts) = Some (v, rest) → isArray v = true.
Proof.
  destruct fuel as [|fuel]; simpl; [done|].
  destruct ts as [|t ts].
  - apply parse_elements_array.
  - destruct t; try apply parse_elements_array. by intros [= <- _].
Qed.

Lemma ref_parse_bracket (tail s : string) :
  ref_JSON_parse (String "[" tail) ≠ Some (JStr s).
Proof.
  unfold ref_JSON_parse.
  change (lex LexDefault [] (String "[" tail))
    with (lex LexDefault [TLBracket] tail).
  destruct (lex LexDefault [TLBracket] tail) as [ts|] eqn:Hl;
    cbn [mbind option_bind]; [|done].
  apply lex_keeps_tokens in Hl as [more ->].
  change (rev [TLBracket] ++ more) with (TLBracket :: more).
  destruct (parse_value (S (length (TLBracket :: more))) (TLBracket :: more))
    as [[v [|]]|] eqn:Hp; try done.
  apply parse_value_bracket in Hp. by destruct v.
Qed.

(** No encoding of an array decodes to a string. *)
Lemma ref_parse_stringify_array (a : list JsValue) (t s : string) :
  ref_JSON_stringify (JArr a) = Some t → ref_JSON_parse t ≠ Some (JStr s).
Proof. intros [= <-]. apply ref_parse_bracket. Qed.

Lemma double_encoding_witness :
  (∀ s t, @JSON_stringify silent_host (JStr s) = Some t
          → @JSON_parse silent_host t = Some (JStr s))
  ∧ (∀ a t s, @JSON_stringify silent_host (JArr a) = Some t
              → @JSON_parse silent_host t ≠ Some (JStr s))
  ∧ @JSON_stringify silent_host (JArr sample_records) = Some sample_once
  ∧ @JSON_stringify silent_host (JStr sample_once) = Some sample_twice
  ∧ @parseItemsFromBlocks silent_host [text_block sample_twice]
    = @parseItemsFromBlocks silent_host [text_block sample_once]
  ∧ @_extractArrayFromBlocks silent_host [text_block sample_twice]
    = @_extractArrayFromBlocks silent_host [text_block sample_once].
Proof.
  split; [exact ref_parse_stringify_string|].
  split; [exact ref_parse_stringify_array|].
  split; [reflexivity|]. split; [reflexivity|].
  apply (@double_encoding_unwraps_alike silent_host
           ref_parse_stringify_string ref_parse_stringify_array
           sample_records sample_once sample_twice);
    reflexivity.
Defined.

(** The doubly encoded sample unwraps to the sample records. *)
Example double_encoding_sample :
  @parseItemsFromBlocks silent_host [text_block sample_twice] = sample_records
  ∧ @_extractArrayFromBlocks silent_host [text_block sample_once]
    = sample_records.
Proof. by_evaluation. Qed.

(** ** Asynchronous computations *)

Lemma bind_Resolved {A B} (m : Async A) (k : A → Async B) (w w' : World)
    (b : B) :
  bind m k w = (Resolved b, w') →
  ∃ a w1, m w = (Resolved a, w1) ∧ k a w1 = (Resolved b, w').
Proof.
  unfold bind. destruct (m w) as [[a| |] w1]; try done. eauto.
Qed.

Lemma bind_run {A B} (m : Async A) (k : A → Async B) (w w1 : World) (a : A) :
  m w = (Resolved a, w1) → bind m k w = k a w1.
Proof. unfold bind. by intros ->. Qed.

Lemma keeps_ret {A} (a : A) : keeps_clientCache (ret a).
Proof. done. Qed.

Lemma keeps_throw {A} (e : Thrown) : keeps_clientCache (@throw A e).
Proof. done. Qed.

Lemma keeps_Date_now : keeps_clientCache Date_now.
Proof. done. Qed.

Lemma keeps_emit (ev : Event) : keeps_clientCache (emit ev).
Proof. done. Qed.

Lemma keeps_await {A} (p : Promise A) : keeps_clientCache (await p).
Proof. intros w. by destruct p. Qed.

Lemma keeps_bind {A B} (m : Async A) (k : A → Async B) :
  keeps_clientCache m → (∀ a, keeps_clientCache (k a)) →
  keeps_clientCache (bind m k).
Proof.
  intros Hm Hk w. unfold bind. specialize (Hm w).
  destruct (m w) as [[a| |] w1]; simpl in *; try done.
  by rewrite Hk.
Qed.

Create HintDb frame.
#[export] Hint Resolve keeps_ret keeps_throw keeps_Date_now keeps_emit
  keeps_await keeps_bind : frame.

Section ToolFrame.
Context `{Host}.

Lemma createClientPromise_trace (endpoint apiKey : string)
    (headers : option (gmap string string)) (w : World) :
  URL_valid endpoint = true →
  let sent := mergedHeaders apiKey headers in
  let client := {| client_id := next_client_id w;
                   client_endpoint := endpoint;
                   client_headers := sent |} in
  ∃ p w', createClientPromise endpoint apiKey headers w = (inr p, w')
          ∧ trace w' = trace w ++ [NewTransport endpoint sent; Connect client]
          ∧ clientCache w' = clientCache w
          ∧ fate p = fate (catch_rethrow (then_ (sdk_connect client) (λ _, client))
                             (λ e, BigModelMCPError "Failed to connect MCP client"
                                     TRANSPORT_OR_CONNECT_ERROR (Some e))).
Proof.
  intros Hurl. unfold createClientPromise. rewrite Hurl. simpl.
  eexists _, _. split; [reflexivity|]. simpl.
  by rewrite <- app_assoc.
Qed.

Lemma keeps_createEphemeralClient (endpoint apiKey : string)
    (headers : option (gmap string string)) :
  keeps_clientCache (createEphemeralClient endpoint apiKey headers).
Proof.
  intros w. unfold createEphemeralClient, createClientPromise.
  destruct (URL_valid endpoint); simpl; [|done].
  by destruct (sdk_connect _) as [d [[]|e]|].
Qed.

Lemma keeps_validateTool (options : BigModelMCPOptions.t) (endpoint : string)
    (client : Client) :
  keeps_clientCache (validateTool options endpoint client).
Proof.
  unfold validateTool. case_bool_decide; [|apply keeps_ret].
  apply keeps_bind; [apply keeps_emit|]. intros _.
  apply keeps_bind; [apply keeps_await|]. intros toolList.
  destruct (negb (tool_exists toolList)); auto with frame.
Qed.

Lemma keeps_invokeTool (options : BigModelMCPOptions.t) (client : Client)
    (params : JsValue) :
  keeps_clientCache (invokeTool options client params).
Proof. unfold invokeTool. auto with frame. Qed.

(** With [reuseConnection: false], [bigmodelWebSearchPrime] never touches
    [clientCache], however the call ends. *)
Lemma ephemeral_call_keeps_clientCache (params : JsValue)
    (options : BigModelMCPOptions.t) :
  BigModelMCPOptions.reuseConnection options = Some false →
  keeps_clientCache (bigmodelWebSearchPrime params options).
Proof.
  intros Hre w. unfold bigmodelWebSearchPrime.
  destruct (apiKey_missing _); [done|].
  apply keeps_bind; [apply keeps_Date_now|]. intros start.
  apply keeps_bind.
  { unfold acquireClient. rewrite Hre. simpl.
    apply keeps_createEphemeralClient. }
  intros client.
  apply keeps_bind; [apply keeps_validateTool|]. intros _.
  apply keeps_bind; [apply keeps_invokeTool|]. intros result.
  destruct (truthy _); auto with frame.
Qed.

(** With [reuseConnection: false] and a credential, a call to a valid
    endpoint opens with a transport and a client of its own. *)
Lemma ephemeral_call_fresh_session (params : JsValue)
    (options : BigModelMCPOptions.t) (w : World) :
  BigModelMCPOptions.reuseConnection options = Some false →
  apiKey_missing (resolvedApiKey options w) = false →
  URL_valid (resolvedEndpoint options) = true →
  let endpoint := resolvedEndpoint options in
  let sent := mergedHeaders (default "" (resolvedApiKey options w))
                (BigModelMCPOptions.transportHeaders options) in
  let client := {| client_id := next_client_id w;
                   client_endpoint := endpoint;
                   client_headers := sent |} in
  ∃ evs, trace (bigmodelWebSearchPrime params options w).2
         = trace w ++ NewTransport endpoint sent :: Connect client :: evs.
Proof.
  intros Hre Hkey Hurl. cbv zeta. unfold bigmodelWebSearchPrime.
  rewrite Hkey. unfold bind at 1. simpl.
  unfold bind at 1. unfold acquireClient. rewrite Hre. simpl.
  unfold createEphemeralClient, createClientPromise. rewrite Hurl. simpl.
  set (client := {| client_id := next_client_id w |}).
  set (w1 := record_event (Connect client) _).
  assert (Hw1 : trace w1 = trace w ++ [NewTransport (resolvedEndpoint options)
                  (client_headers client); Connect client]).
  { subst w1. simpl. by rewrite <- app_assoc. }
  clearbody w1.
  destruct (sdk_connect client) as [d [[]|e]|]; simpl;
    try (exists []; by rewrite Hw1).
  unfold bind at 1. unfold validateTool.
  case_bool_decide.
  - unfold bind at 1. simpl. unfold bind at 1.
    destruct (sdk_listTools client) as [d' [toolList|e]|]; simpl;
      try (eexists; rewrite Hw1, <- !app_assoc; simpl; reflexivity).
    destruct (tool_exists toolList); simpl;
      [|eexists; rewrite Hw1, <- !app_assoc; simpl; reflexivity].
    unfold bind at 1, invokeTool. unfold bind at 1. simpl.
    destruct (withSoftTimeout _ _) as [d2 [result|e]|]; simpl;
      try (eexists; rewrite Hw1, <- !app_assoc; simpl; reflexivity).
    destruct (truthy _); simpl;
      eexists; rewrite Hw1, <- !app_assoc; simpl; reflexivity.
  - simpl. unfold bind at 1, invokeTool. unfold bind at 1. simpl.
    destruct (withSoftTimeout _ _) as [d2 [result|e]|]; simpl;
      try (eexists; rewrite Hw1, <- !app_assoc; simpl; reflexivity).
    destruct (truthy _); simpl;
      eexists; rewrite Hw1, <- !app_assoc; simpl; reflexivity.
Qed.

End ToolFrame.

(** ** Transport headers *)

Lemma mergedHeaders_caller (apiKey : string)
    (headers : option (gmap string string)) (k v : string) :
  default ∅ headers !! k = Some v → mergedHeaders apiKey headers !! k = Some v.
Proof. intros Hk. unfold mergedHeaders. by apply lookup_union_Some_l. Qed.

Lemma mergedHeaders_bearer (apiKey : string)
    (headers : option (gmap string string)) :
  default ∅ headers !! "Authorization" = None →
  mergedHeaders apiKey headers !! "Authorization"
  = Some ("Bearer " +:+ apiKey).
Proof.
  intros Hk. unfold mergedHeaders.
  by rewrite lookup_union_r, lookup_singleton_eq.
Qed.

Lemma mergedHeaders_other (apiKey : string)
    (headers : option (gmap string string)) (k : string) :
  k ≠ "Authorization" →
  mergedHeaders apiKey headers !! k = default ∅ headers !! k.
Proof.
  intros Hk. unfold mergedHeaders.
  destruct (default ∅ headers !! k) as [v|] eqn:Hv.
  - by apply lookup_union_Some_l.
  - by rewrite lookup_union_r, lookup_singleton_ne.
Qed.

(** C3, as the code has it.  Every session that [createClientPromise]
    establishes (for a well-formed endpoint) constructs its transport
    with the merged headers and connects a new client through it.  The
    merged headers contain every caller-supplied header unchanged; they
    contain [Authorization: Bearer <credential>] when the caller supplies
    no [Authorization] header, and the caller's value when one is
    supplied; apart from [Authorization] they contain nothing else.  The
    session index.js establishes sends exactly
    [Authorization: Bearer <credential>]; it takes no caller headers. *)
Theorem transport_headers_merge `{Host} (endpoint apiKey : string)
    (headers : option (gmap string string)) (w : World) :
  URL_valid endpoint = true →
  let sent := mergedHeaders apiKey headers in
  (∃ p w', createClientPromise endpoint apiKey headers w = (inr p, w')
           ∧ trace w'
             = trace w ++ [ NewTransport endpoint sent;
                            Connect {| client_id := next_client_id w;
                                       client_endpoint := endpoint;
                                       client_headers := sent |} ])
  ∧ (∀ k v, default ∅ headers !! k = Some v → sent !! k = Some v)
  ∧ (default ∅ headers !! "Authorization" = None
     → sent !! "Authorization" = Some ("Bearer " +:+ apiKey))
  ∧ (∀ k, k ≠ "Authorization" → sent !! k = default ∅ headers !! k)
  ∧ (let bearer : gmap string string :=
       {[ "Authorization" := "Bearer " +:+ apiKey ]} in
     trace (_connectClient endpoint apiKey w).2
     = trace w ++ [ NewTransport endpoint bearer;
                    Connect {| client_id := next_client_id w;
                               client_endpoint := endpoint;
                               client_headers := bearer |} ]).
Proof.
  intros Hurl sent. split; [|split; [|split; [|split]]].
  - destruct (createClientPromise_trace endpoint apiKey headers w Hurl)
      as (p & w' & Hc & Ht & _). eauto.
  - apply mergedHeaders_caller.
  - apply mergedHeaders_bearer.
  - apply mergedHeaders_other.
  - unfold _connectClient. rewrite Hurl. simpl. by rewrite <- app_assoc.
Qed.

Lemma transport_headers_merge_witness :
  @URL_valid silent_host "https://e" = true
  ∧ mergedHeaders "k" (Some {[ "X-Trace" := "1" ]}) !! "Authorization"
    = Some "Bearer k"
  ∧ mergedHeaders "k" (Some {[ "X-Trace" := "1" ]}) !! "X-Trace" = Some "1".
Proof.
  split; [reflexivity|].
  destruct (@transport_headers_merge silent_host "https://e" "k"
              (Some {[ "X-Trace" := "1" ]}) world0 eq_refl)
    as (_ & Hcaller & Hbearer & _).
  split.
  - apply Hbearer. reflexivity.
  - apply Hcaller. reflexivity.
Defined.

(** C3, as stated, fails: a caller who passes an [Authorization] header
    replaces the bearer credential in what the transport sends. *)
Lemma caller_Authorization_replaces_bearer :
  let headers : gmap string string := {[ "Authorization" := "Basic x" ]} in
  let w := (@createClientPromise silent_host "https://e" "k" (Some headers)
              world0).2 in
  trace w
  = [ NewTransport "https://e" headers;
      Connect {| client_id := 0; client_endpoint := "https://e";
                 client_headers := headers |} ]
  ∧ headers !! "Authorization" ≠ Some ("Bearer " +:+ "k").
Proof. by_evaluation. Qed.

(** ** Connection cache with [reuseConnection: false] *)

(** C2.  In index.js a call with [reuseConnection: false] on a fresh
    process stores its session in [_clientCache] under the key
    [ephemeral::<clock reading>], and a second such call within the same
    millisecond finds that entry and runs over the first call's session:
    it constructs no transport and connects no client.  (In
    bigmodel-web-search-prime.ts the cache is left alone:
    [ephemeral_call_keeps_clientCache].) *)
Theorem index_ephemeral_session_is_cached :
  let options :=
    {| WebSearchPrimeOptions.apiKey := Some "k";
       WebSearchPrimeOptions.endpoint := Some "https://e";
       WebSearchPrimeOptions.reuseConnection := Some false |} in
  let bearer : gmap string string := {[ "Authorization" := "Bearer k" ]} in
  let client := {| client_id := 0; client_endpoint := "https://e";
                   client_headers := bearer |} in
  let params := _toParams (JStr "q") in
  let w1 := (@webSearchPrime instant_host (JStr "q") options world0).2 in
  let w2 := (@webSearchPrime instant_host (JStr "q") options w1).2 in
  _clientCache world0 = ∅
  ∧ _clientCache w1 = {[ "ephemeral::1000" := Resolved client ]}
  ∧ trace w1 = [ NewTransport "https://e" bearer; Connect client;
                 CallTool client "webSearchPrime" params ]
  ∧ now w1 = now world0
  ∧ trace w2 = trace w1 ++ [ CallTool client "webSearchPrime" params ].
Proof. by_evaluation. Qed.

(** ** Credential gating *)

Lemma trimStart_all_space (s : string) :
  all_trim_space s = true → trimStart s = "".
Proof.
  induction s as [|c s IH]; simpl; [done|].
  intros [Hc Hs]%andb_prop. rewrite Hc. by apply IH.
Qed.

Lemma trim_all_space (s : string) : all_trim_space s = true → trim s = "".
Proof.
  intros Hs. unfold trim. by rewrite (trimStart_all_space s Hs).
Qed.

Lemma apiKey_missing_blank (k : string) :
  all_trim_space k = true → apiKey_missing (Some k) = true.
Proof.
  intros Hk. unfold apiKey_missing. rewrite (trim_all_space k Hk).
  by rewrite orb_true_r.
Qed.

(** In bigmodel-web-search-prime.ts a call whose credential resolves to
    nothing ([options.apiKey] and the environment variable both absent)
    or to a blank string is rejected with [MISSING_API_KEY] and leaves
    the world as it was: no transport, no connect, no call. *)
Lemma missing_credential_rejected_offline `{Host} (params : JsValue)
    (options : BigModelMCPOptions.t) (w : World) :
  resolvedApiKey options w = None
  ∨ (∃ k, resolvedApiKey options w = Some k ∧ all_trim_space k = true) →
  bigmodelWebSearchPrime params options w
  = (Rejected (BigModelMCPError
                 "Missing BigModel API key: pass options.apiKey or set BIGMODEL_API_KEY"
                 MISSING_API_KEY None), w).
Proof.
  intros Hk. unfold bigmodelWebSearchPrime.
  assert (Hm : apiKey_missing (resolvedApiKey options w) = true).
  { destruct Hk as [->|(k & -> & Hk)]; [done|]. by apply apiKey_missing_blank. }
  by rewrite Hm.
Qed.

(** C4.  In index.js a call whose only credential is the whitespace
    string of three spaces is not rejected: it constructs a transport
    carrying [Authorization: Bearer ] followed by the three spaces,
    connects and invokes the tool.  The same call through
    bigmodel-web-search-prime.ts is rejected with [MISSING_API_KEY] and
    no transport activity. *)
Theorem index_blank_credential_reaches_network :
  let blank := "   " in
  let bearer : gmap string string :=
    {[ "Authorization" := "Bearer " +:+ blank ]} in
  let client := {| client_id := 0; client_endpoint := DEFAULT_ENDPOINT;
                   client_headers := bearer |} in
  let host := sample_host sample_response in
  all_trim_space blank = true
  ∧ trace (@webSearchPrime host (JStr "q")
             {| WebSearchPrimeOptions.apiKey := Some blank;
                WebSearchPrimeOptions.endpoint := None;
                WebSearchPrimeOptions.reuseConnection := None |} world0).2
    = [ NewTransport DEFAULT_ENDPOINT bearer; Connect client;
        CallTool client "webSearchPrime" (_toParams (JStr "q")) ]
  ∧ @bigmodelWebSearchPrime host sample_params
      {| BigModelMCPOptions.apiKey := Some blank;
         BigModelMCPOptions.endpoint := None;
         BigModelMCPOptions.transportHeaders := None;
         BigModelMCPOptions.reuseConnection := None;
         BigModelMCPOptions.validateToolAvailability := None;
         BigModelMCPOptions.timeoutMs := None |} world0
    = (Rejected (BigModelMCPError
                   "Missing BigModel API key: pass options.apiKey or set BIGMODEL_API_KEY"
                   MISSING_API_KEY None), world0).
Proof. by_evaluation. Qed.

(** ** The search call *)

Section SearchCall.
Context `{Host}.

(** How a call of [bigmodelWebSearchPrime] that passes the credential
    check and obtains a response from the remote tool ends. *)
Lemma bigmodelWebSearchPrime_run (params : JsValue)
    (options : BigModelMCPOptions.t) (w w1 w2 w3 : World) (client : Client)
    (result : JsValue) :
  let endpoint := resolvedEndpoint options in
  let apiKey := default "" (resolvedApiKey options w) in
  apiKey_missing (resolvedApiKey options w) = false →
  acquireClient options endpoint apiKey w = (Resolved client, w1) →
  validateTool options endpoint client w1 = (Resolved tt, w2) →
  invokeTool options client params w2 = (Resolved result, w3) →
  bigmodelWebSearchPrime params options w
  = if truthy result.["isError"]%js
    then (Rejected (BigModelMCPError
                      ("MCP tool " +:+ dquote +:+ TOOL_NAME +:+ dquote +:+
                       " returned isError=true")
                      MCP_TOOL_ERROR (Some (Foreign result))), w3)
    else
      let items := normalizeItems (parseItemsFromBlocks (content_blocks result)) in
      (Resolved
         {| items := items;
            rawBlocks := content_blocks result;
            meta := {| meta_endpoint := endpoint;
                       meta_toolName := TOOL_NAME;
                       meta_tookMs := now w3 - now w;
                       meta_requestedCount := params.["count"]%js;
                       meta_returnedCount := length items;
                       meta_reusedConnection :=
                         negb (bool_decide
                                 (BigModelMCPOptions.reuseConnection options
                                  = Some false)) |} |}, w3).
Proof.
  intros endpoint apiKey Hkey Hacq Hval Hinv. unfold bigmodelWebSearchPrime.
  rewrite Hkey. fold endpoint apiKey.
  rewrite (bind_run Date_now _ w w (now w)) by done.
  rewrite (bind_run _ _ w w1 client Hacq).
  rewrite (bind_run _ _ w1 w2 tt Hval).
  rewrite (bind_run _ _ w2 w3 result Hinv).
  by destruct (truthy _).
Qed.

(** Conversely, a call that resolves has passed through these stages. *)
Lemma bigmodelWebSearchPrime_Resolved (params : JsValue)
    (options : BigModelMCPOptions.t) (w w' : World)
    (out : WebSearchPrimeOutput) :
  bigmodelWebSearchPrime params options w = (Resolved out, w') →
  let endpoint := resolvedEndpoint options in
  let apiKey := default "" (resolvedApiKey options w) in
  apiKey_missing (resolvedApiKey options w) = false
  ∧ ∃ client w1 w2 result,
      acquireClient options endpoint apiKey w = (Resolved client, w1)
      ∧ validateTool options endpoint client w1 = (Resolved tt, w2)
      ∧ invokeTool options client params w2 = (Resolved result, w')
      ∧ truthy result.["isError"]%js = false.
Proof.
  intros Hrun endpoint apiKey. unfold bigmodelWebSearchPrime in Hrun.
  destruct (apiKey_missing _) eqn:Hkey; [done|]. split; [done|].
  fold endpoint apiKey in Hrun.
  apply bind_Resolved in Hrun as (start & w0 & [= <- <-] & Hrun).
  apply bind_Resolved in Hrun as (client & w1 & Hacq & Hrun).
  apply bind_Resolved in Hrun as ([] & w2 & Hval & Hrun).
  apply bind_Resolved in Hrun as (result & w3 & Hinv & Hrun).
  destruct (truthy result.["isError"]%js) eqn:Herr; [done|].
  apply bind_Resolved in Hrun as (finish & w4 & [= <- <-] & [= _ <-]).
  eauto 10.
Qed.

(** How a call of [webSearchPrime] of index.js that passes the
    credential check, obtains a client and gets a response ends. *)
Lemma webSearchPrime_run (input : JsValue)
    (options : WebSearchPrimeOptions.t) (w w0 w1 : World) (cacheKey : string)
    (client : Client) (d : Z) (result : JsValue) :
  let endpoint := _resolvedEndpoint options in
  let apiKey := default "" (_resolvedApiKey options w) in
  _apiKey_missing (_resolvedApiKey options w) = false →
  _cacheKey options endpoint apiKey w = (Resolved cacheKey, w0) →
  _acquireClient cacheKey endpoint apiKey w0 = (Resolved client, w1) →
  sdk_callTool client "webSearchPrime" (_toParams input)
  = Settles d (inl result) →
  let w2 :=
    advance d
      (record_event (CallTool client "webSearchPrime" (_toParams input)) w1) in
  webSearchPrime input options w
  = if truthy result && truthy result.["isError"]%js
    then (Rejected
            (Error ("MCP tool " +:+ dquote +:+ "webSearchPrime" +:+ dquote
                    +:+ " error: "
                    +:+ default "undefined" (JSON_stringify result))), w2)
    else
      (Resolved
         (JObj [ ("items",
                  JArr (_normalizeItems
                          (_extractArrayFromBlocks (content_blocks result))));
                 ("rawBlocks", JArr (content_blocks result)) ]), w2).
Proof.
  intros endpoint apiKey Hkey Hck Hacq Hcall w2. unfold webSearchPrime.
  rewrite Hkey. fold endpoint apiKey.
  rewrite (bind_run _ _ w w0 cacheKey Hck).
  rewrite (bind_run _ _ w0 w1 client Hacq).
  rewrite (bind_run (emit _) _ w1 _ tt eq_refl).
  rewrite (bind_run (await _) _ _ w2 result) by (by rewrite Hcall).
  by destruct (truthy result && truthy _).
Qed.

Lemma webSearchPrime_Resolved (input : JsValue)
    (options : WebSearchPrimeOptions.t) (w w' : World) (v : JsValue) :
  webSearchPrime input options w = (Resolved v, w') →
  ∃ items rawBlocks,
    v = JObj [("items", JArr items); ("rawBlocks", JArr rawBlocks)].
Proof.
  unfold webSearchPrime. destruct (_apiKey_missing _); [done|].
  intros Hrun.
  apply bind_Resolved in Hrun as (cacheKey & w0 & _ & Hrun).
  apply bind_Resolved in Hrun as (client & w1 & _ & Hrun).
  apply bind_Resolved in Hrun as ([] & w2 & _ & Hrun).
  apply bind_Resolved in Hrun as (result & w3 & _ & Hrun).
  destruct (truthy result && truthy _); [done|].
  injection Hrun as <- _. eauto.
Qed.

End SearchCall.

(** C5, as the code has it.  Every call of [bigmodelWebSearchPrime]
    that resolves returns [{ items, rawBlocks, meta }] whose [meta]
    records the endpoint the call resolved, the tool name
    [webSearchPrime], the clock difference between the end of the call
    and its start, [params.count], the number of items returned, and as
    [reusedConnection] whether connection reuse was enabled for the call
    ([options.reuseConnection] is not [false]); the items are the
    normalized records of the raw blocks.  Every call of [webSearchPrime]
    of index.js that resolves returns [{ items, rawBlocks }] and no
    [meta]. *)
Theorem search_result_shape `{Host} :
  (∀ params options w out w',
     bigmodelWebSearchPrime params options w = (Resolved out, w') →
     meta_endpoint (meta out)
     = default DEFAULT_ENDPOINT (BigModelMCPOptions.endpoint options)
     ∧ meta_toolName (meta out) = "webSearchPrime"
     ∧ meta_tookMs (meta out) = now w' - now w
     ∧ meta_requestedCount (meta out) = params.["count"]%js
     ∧ meta_returnedCount (meta out) = length (items out)
     ∧ meta_reusedConnection (meta out)
       = negb (bool_decide (BigModelMCPOptions.reuseConnection options
                            = Some false))
     ∧ items out = normalizeItems (parseItemsFromBlocks (rawBlocks out)))
  ∧ (∀ input options w v w',
       webSearchPrime input options w = (Resolved v, w') →
       (∃ items rawBlocks,
          v = JObj [("items", JArr items); ("rawBlocks", JArr rawBlocks)])
       ∧ v.["meta"]%js = JUndefined).
Proof.
  split.
  - intros params options w out w' Hrun.
    destruct (bigmodelWebSearchPrime_Resolved _ _ _ _ _ Hrun)
      as (Hkey & client & w1 & w2 & result & Hacq & Hval & Hinv & Herr).
    rewrite (bigmodelWebSearchPrime_run _ _ _ _ _ _ _ _ Hkey Hacq Hval Hinv)
      in Hrun.
    rewrite Herr in Hrun. injection Hrun as <-. by simpl.
  - intros input options w v w' Hrun.
    apply webSearchPrime_Resolved in Hrun as (items & rawBlocks & ->).
    split; [eauto|done].
Qed.

Lemma search_result_shape_witness :
  match @bigmodelWebSearchPrime (sample_host sample_response)
          sample_params key_only world0 with
  | (Resolved out, w') =>
      meta_endpoint (meta out) = DEFAULT_ENDPOINT
      ∧ meta_toolName (meta out) = "webSearchPrime"
      ∧ meta_tookMs (meta out) = now w' - now world0
      ∧ meta_requestedCount (meta out) = sample_params.["count"]%js
      ∧ meta_returnedCount (meta out) = length (items out)
      ∧ meta_reusedConnection (meta out) = true
      ∧ items out = normalizeItems
                      (@parseItemsFromBlocks (sample_host sample_response)
                         (rawBlocks out))
  | _ => False
  end
  ∧ match @webSearchPrime (sample_host sample_response)
            sample_params _key_only world0 with
    | (Resolved v, _) =>
        (∃ items rawBlocks,
           v = JObj [("items", JArr items); ("rawBlocks", JArr rawBlocks)])
        ∧ v.["meta"]%js = JUndefined
    | _ => False
    end.
Proof.
  pose proof (@search_result_shape (sample_host sample_response)) as [HT HJ].
  split.
  - destruct (@bigmodelWebSearchPrime (sample_host sample_response)
                sample_params key_only world0) as [[out| |] w'] eqn:Hrun;
      [|by vm_compute in Hrun..].
    exact (HT _ _ _ _ _ Hrun).
  - destruct (@webSearchPrime (sample_host sample_response)
                sample_params _key_only world0) as [[v| |] w'] eqn:Hrun;
      [|by vm_compute in Hrun..].
    exact (HJ _ _ _ _ _ Hrun).
Defined.

(** The specification's end-to-end example: one item, five requested,
    43 ms on the clock (3 to connect, 40 for the call). *)
Example search_result_sample :
  let run := @bigmodelWebSearchPrime (sample_host sample_response)
               sample_params key_only world0 in
  (meta <$> resolved_value run.1)
  = Some {| meta_endpoint := DEFAULT_ENDPOINT;
            meta_toolName := "webSearchPrime";
            meta_tookMs := 43;
            meta_requestedCount := JNum 5;
            meta_returnedCount := 1;
            meta_reusedConnection := true |}
  ∧ ((λ out, (λ item, (title item, url item, summary item)) <$> items out)
       <$> resolved_value run.1)
    = Some [(JStr "T", "http://x", JStr "S")].
Proof. by_evaluation. Qed.

(** C5, as stated, fails for index.js: the value a successful call
    returns has [items] and [rawBlocks] but no [meta]. *)
Lemma index_result_has_no_meta :
  let run := @webSearchPrime (sample_host sample_response)
               sample_params _key_only world0 in
  ((λ v, isArray v.["items"]%js) <$> resolved_value run.1) = Some true
  ∧ ((λ v, isArray v.["rawBlocks"]%js) <$> resolved_value run.1) = Some true
  ∧ ((λ v, v.["meta"]%js) <$> resolved_value run.1) = Some JUndefined.
Proof. by_evaluation. Qed.

(** C10.  Whenever a call obtains a response from the remote tool whose
    [isError] is not truthy and whose [content] is absent or not an
    array, the call resolves with [rawBlocks] and [items] both empty:
    for [bigmodelWebSearchPrime], and for [webSearchPrime] of index.js. *)
Theorem missing_content_gives_empty_result `{Host} :
  (∀ params options w w1 w2 w3 client result,
     let endpoint := resolvedEndpoint options in
     let apiKey := default "" (resolvedApiKey options w) in
     apiKey_missing (resolvedApiKey options w) = false →
     acquireClient options endpoint apiKey w = (Resolved client, w1) →
     validateTool options endpoint client w1 = (Resolved tt, w2) →
     invokeTool options client params w2 = (Resolved result, w3) →
     truthy result.["isError"]%js = false →
     isArray result.["content"]%js = false →
     ∃ out, bigmodelWebSearchPrime params options w = (Resolved out, w3)
            ∧ rawBlocks out = [] ∧ items out = [])
  ∧ (∀ input options w w0 w1 cacheKey client d result,
       let endpoint := _resolvedEndpoint options in
       let apiKey := default "" (_resolvedApiKey options w) in
       _apiKey_missing (_resolvedApiKey options w) = false →
       _cacheKey options endpoint apiKey w = (Resolved cacheKey, w0) →
       _acquireClient cacheKey endpoint apiKey w0 = (Resolved client, w1) →
       sdk_callTool client "webSearchPrime" (_toParams input)
       = Settles d (inl result) →
       truthy result.["isError"]%js = false →
       isArray result.["content"]%js = false →
       ∃ w2, webSearchPrime input options w
             = (Resolved (JObj [("items", JArr []); ("rawBlocks", JArr [])]),
                w2)).
Proof.
  split.
  - intros params options w w1 w2 w3 client result endpoint apiKey
      Hkey Hacq Hval Hinv Herr Hcontent.
    rewrite (bigmodelWebSearchPrime_run _ _ _ _ _ _ _ _ Hkey Hacq Hval Hinv).
    rewrite Herr. eexists. split; [reflexivity|].
    assert (Hb : content_blocks result = []).
    { unfold content_blocks. by destruct (result.["content"]%js). }
    simpl. by rewrite Hb.
  - intros input options w w0 w1 cacheKey client d result endpoint apiKey
      Hkey Hck Hacq Hcall Herr Hcontent.
    rewrite (webSearchPrime_run _ _ _ _ _ _ _ _ _ Hkey Hck Hacq Hcall).
    rewrite Herr, andb_false_r.
    assert (Hb : content_blocks result = []).
    { unfold content_blocks. by destruct (result.["content"]%js). }
    rewrite Hb. eauto.
Qed.

Lemma missing_content_gives_empty_result_witness :
  let response := JObj [("isError", JBool false); ("content", JStr "none")] in
  (let run := @bigmodelWebSearchPrime (sample_host response)
                sample_params (with_timeout 100) world0 in
   ∃ out, run.1 = Resolved out ∧ rawBlocks out = [] ∧ items out = [])
  ∧ (let run := @webSearchPrime (sample_host response)
                  sample_params _key_only world0 in
     run.1 = Resolved (JObj [("items", JArr []); ("rawBlocks", JArr [])])).
Proof.
  intros response.
  pose proof (@missing_content_gives_empty_result (sample_host response))
    as [HT HJ].
  split; cbv zeta.
  - edestruct (HT sample_params (with_timeout 100) world0) as (out & -> & ?);
      [vm_compute; reflexivity..|].
    by exists out.
  - edestruct (HJ sample_params _key_only world0) as (w2 & ->);
      [vm_compute; reflexivity..|].
    done.
Defined.

(** ** Soft timeout *)




Lemma withSoftTimeout_in_time {T} (p : Promise T) (timeoutMs : option Z)
    (d : Z) (r : T + Thrown) :
  p = Settles d r →
  (∀ t, timeoutMs = Some t → 0 < t → d < setTimeout_delay t) →
  withSoftTimeout p timeoutMs = p.
Proof.
  intros -> Ht. unfold withSoftTimeout. destruct timeoutMs as [t|]; [|done].
  destruct ((t =? 0) || (t <=? 0)) eqn:Hpos; [done|].
  assert (d < setTimeout_delay t) by (apply Ht; [done|lia]).
  by replace (d <? setTimeout_delay t) with true by lia.
Qed.




(** ** Parameter defaults *)

Lemma lookup_last_app (k : string) (l1 l2 : list (string * JsValue)) :
  lookup_last k (l1 ++ l2)
  = match lookup_last k l2 with
    | Some v => Some v
    | None => lookup_last k l1
    end.
Proof.
  induction l1 as [|[k' v] l1 IH]; simpl.
  - by destruct (lookup_last k l2).
  - rewrite IH. by destruct (lookup_last k l2).
Qed.

(** What [webSearchPrime] of index.js asks of the transport: nothing but
    transports, connections and calls of [webSearchPrime] with the
    parameters [_toParams] built. *)
Lemma webSearchPrime_calls `{Host} (input : JsValue)
    (options : WebSearchPrimeOptions.t) (w : World) :
  ∃ evs, trace (webSearchPrime input options w).2 = trace w ++ evs
         ∧ ∀ c name args, CallTool c name args ∈ evs →
                          name = "webSearchPrime" ∧ args = _toParams input.
Proof.
  assert (Hnil : ∀ w', trace w' = trace w →
            ∃ evs, trace w' = trace w ++ evs
                   ∧ ∀ c name args, CallTool c name args ∈ evs →
                       name = "webSearchPrime" ∧ args = _toParams input).
  { intros w' ->. exists []. rewrite app_nil_r. split; [done|].
    intros c name args Hin. by apply elem_of_nil in Hin. }
  unfold webSearchPrime. destruct (_apiKey_missing _); [by apply Hnil|].
  set (endpoint := _resolvedEndpoint options).
  set (apiKey := default "" (_resolvedApiKey options w)).
  set (params := _toParams input).
  (* after a client is at hand: the call itself *)
  assert (Hcall : ∀ client w1 pre,
            trace w1 = trace w ++ pre →
            (∀ c name args, CallTool c name args ∉ pre) →
            ∃ evs,
              trace
                (bind (emit (CallTool client "webSearchPrime" params))
                   (λ _,
                      bind (await (sdk_callTool client "webSearchPrime" params))
                        (λ result,
                           if truthy result && truthy result.["isError"]%js
                           then throw (Error
                                  ("MCP tool " +:+ dquote +:+ "webSearchPrime"
                                   +:+ dquote +:+ " error: "
                                   +:+ default "undefined"
                                         (JSON_stringify result)))
                           else
                             ret (JObj
                                    [ ("items",
                                       JArr (_normalizeItems
                                               (_extractArrayFromBlocks
                                                  (content_blocks result))));
                                      ("rawBlocks",
                                       JArr (content_blocks result)) ])))
                   w1).2
              = trace w ++ evs
              ∧ ∀ c name args, CallTool c name args ∈ evs →
                  name = "webSearchPrime" ∧ args = _toParams input).
  { intros client w1 pre Hw1 Hpre.
    exists (pre ++ [CallTool client "webSearchPrime" params]). split.
    - unfold bind, emit, await.
      destruct (sdk_callTool client "webSearchPrime" params)
        as [d [result|e]|]; simpl;
        try destruct (truthy result && truthy _); simpl;
        by rewrite Hw1, <- app_assoc.
    - intros c name args [Hin|Hin]%elem_of_app.
      + by destruct (Hpre c name args).
      + apply list_elem_of_singleton in Hin. by injection Hin as -> -> ->. }
  assert (Hkey : ∃ cacheKey,
            _cacheKey options endpoint apiKey w = (Resolved cacheKey, w)).
  { unfold _cacheKey. case_bool_decide; eauto. }
  destruct Hkey as [cacheKey Hkey].
  rewrite (bind_run _ _ w w cacheKey Hkey).
  unfold bind at 1. unfold _acquireClient.
  destruct (_clientCache w !! cacheKey) as [[client| |]|] eqn:Hhit;
    unfold await_settled.
  - apply (Hcall client w []); [by rewrite app_nil_r|].
    intros c name args Hin. by apply elem_of_nil in Hin.
  - by apply Hnil.
  - by apply Hnil.
  - unfold _connectClient. destruct (URL_valid endpoint); simpl;
      [|by apply Hnil].
    set (client := {| client_id := next_client_id w |}).
    set (headers := ({[ "Authorization" := "Bearer " +:+ apiKey ]}
                     : gmap string string)).
    assert (Hpre : ∀ c name args,
              CallTool c name args
              ∉ [NewTransport endpoint headers; Connect client]).
    { intros c name args Hin.
      apply elem_of_cons in Hin as [?|Hin]; [done|].
      apply elem_of_cons in Hin as [?|Hin]; [done|].
      by apply elem_of_nil in Hin. }
    destruct (sdk_connect client) as [d [[]|e]|]; simpl.
    + apply (Hcall client _ [NewTransport endpoint headers; Connect client]);
        [|done]. simpl. by rewrite <- app_assoc.
    + exists [NewTransport endpoint headers; Connect client].
      split; [by rewrite <- app_assoc|].
      intros c name args Hin. by destruct (Hpre c name args).
    + exists [NewTransport endpoint headers; Connect client].
      split; [by rewrite <- app_assoc|].
      intros c name args Hin. by destruct (Hpre c name args).
Qed.

(** C8, as the code has it.  At the entry point of index.js, before the
    remote procedure is invoked: a bare query string becomes
    [{ search_query, count: 10, content_size: 'medium', location: 'cn' }];
    for a params object, every property the caller supplies is kept as
    supplied, [count], [content_size] and [location] get the defaults
    10, medium and cn when the caller supplies none, and every other
    property the caller omits, [search_recency_filter] among them, stays
    absent; and every invocation the call makes passes exactly these
    parameters. *)
Theorem toParams_defaults `{Host} :
  (∀ q, _toParams (JStr q)
        = JObj [ ("search_query", JStr q); ("count", JNum 10);
                 ("content_size", JStr "medium"); ("location", JStr "cn") ])
  ∧ (∀ fields k,
       (_toParams (JObj fields)).[k]%js
       = match lookup_last k fields with
         | Some v => v
         | None => (JObj default_params).[k]%js
         end)
  ∧ (JObj default_params).["count"]%js = JNum 10
  ∧ (JObj default_params).["content_size"]%js = JStr "medium"
  ∧ (JObj default_params).["location"]%js = JStr "cn"
  ∧ (∀ k, k ≠ "count" → k ≠ "content_size" → k ≠ "location" →
          (JObj default_params).[k]%js = JUndefined)
  ∧ (∀ input options w,
       ∃ evs, trace (webSearchPrime input options w).2 = trace w ++ evs
              ∧ ∀ c name args, CallTool c name args ∈ evs →
                  name = "webSearchPrime" ∧ args = _toParams input).
Proof.
  split; [done|]. split; [|split; [done|split; [done|split; [done|split]]]].
  - intros fields k.
    change (_toParams (JObj fields)) with (JObj (default_params ++ fields)).
    unfold get. rewrite lookup_last_app. by destruct (lookup_last k fields).
  - intros k Hc Hs Hl. unfold get, default_params. cbn [lookup_last].
    by rewrite !(proj2 (String.eqb_neq _ _)) by congruence.
  - apply webSearchPrime_calls.
Qed.

(** C8, as stated, fails: nothing writes a default for
    [search_recency_filter], for a bare query or for a params object
    that omits it. *)
Lemma search_recency_filter_has_no_default :
  (_toParams (JStr "q")).["search_recency_filter"]%js = JUndefined
  ∧ (_toParams (JObj [("search_query", JStr "q")])).["search_recency_filter"]%js
    = JUndefined
  ∧ (_toParams (JStr "q")).["search_recency_filter"]%js ≠ JStr "noLimit"
  ∧ (_toParams (JStr "q")).["count"]%js = JNum 10
  ∧ trace (@webSearchPrime (sample_host sample_response) (JStr "q")
             _key_only world0).2
    = (let headers : gmap string string :=
         {[ "Authorization" := "Bearer k" ]} in
       let client := {| client_id := 0; client_endpoint := DEFAULT_ENDPOINT;
                        client_headers := headers |} in
       [ NewTransport DEFAULT_ENDPOINT headers; Connect client;
         CallTool client "webSearchPrime"
           (JObj [ ("search_query", JStr "q"); ("count", JNum 10);
                   ("content_size", JStr "medium");
                   ("location", JStr "cn") ]) ]).
Proof. by_evaluation. Qed.

(** * Further properties of the code *)

(** ** The first-seen loop, continued *)

Section FirstSeenLoopMore.
Context {I : Type} (view : JsValue → option (string * I)).

Lemma first_seen_loop_split (rs1 rs2 : list JsValue) (seen : gset string)
    (out : list I) :
  first_seen_loop view (rs1 ++ rs2) seen out
  = first_seen_loop view rs2 (seen_after view rs1 seen)
      (first_seen_loop view rs1 seen out).
Proof.
  revert seen out. induction rs1 as [|r rs1 IH]; intros seen out; simpl.
  - done.
  - destruct (view r) as [[u item]|]; [|apply IH].
    case_bool_decide; apply IH.
Qed.

Lemma seen_after_mono (rs : list JsValue) (seen : gset string) :
  seen ⊆ seen_after view rs seen.
Proof.
  revert seen. induction rs as [|r rs IH]; intros seen; simpl; [done|].
  destruct (view r) as [[u item]|]; [|apply IH].
  case_bool_decide; [apply IH|].
  etrans; [|apply IH]. set_solver.
Qed.

Lemma seen_after_key (rs : list JsValue) (seen : gset string) (r : JsValue)
    (u : string) (item : I) :
  r ∈ rs → view r = Some (u, item) → u ∈ seen_after view rs seen.
Proof.
  revert seen. induction rs as [|r' rs IH]; intros seen Hin Hv.
  - by apply elem_of_nil in Hin.
  - apply elem_of_cons in Hin as [<-|Hin]; simpl.
    + rewrite Hv. case_bool_decide.
      * by apply seen_after_mono.
      * apply seen_after_mono. set_solver.
    + destruct (view r') as [[u' item']|]; [|by apply IH].
      case_bool_decide; by apply IH.
Qed.

(** A record without a key leaves the pass as if it were not there. *)
Lemma first_seen_loop_skip_keyless (pre post : list JsValue) (r : JsValue)
    (seen : gset string) (out : list I) :
  view r = None →
  first_seen_loop view (pre ++ r :: post) seen out
  = first_seen_loop view (pre ++ post) seen out.
Proof.
  intros Hv. rewrite !first_seen_loop_split. simpl. by rewrite Hv.
Qed.

(** So does a record whose key an earlier record has. *)
Lemma first_seen_loop_skip_repeat (pre mid post : list JsValue)
    (r1 r2 : JsValue) (u : string) (item1 item2 : I) (seen : gset string)
    (out : list I) :
  view r1 = Some (u, item1) → view r2 = Some (u, item2) →
  first_seen_loop view (pre ++ r1 :: mid ++ r2 :: post) seen out
  = first_seen_loop view (pre ++ r1 :: mid ++ post) seen out.
Proof.
  intros Hv1 Hv2.
  replace (pre ++ r1 :: mid ++ r2 :: post)
    with ((pre ++ r1 :: mid) ++ r2 :: post)
    by (by rewrite <- app_assoc).
  replace (pre ++ r1 :: mid ++ post) with ((pre ++ r1 :: mid) ++ post)
    by (by rewrite <- app_assoc).
  rewrite !first_seen_loop_split. simpl. rewrite Hv2.
  rewrite bool_decide_true; [done|].
  apply (seen_after_key _ _ r1 u item1); [|done].
  apply elem_of_app. right. apply elem_of_cons. by left.
Qed.

(** Passing again over the records of kept items keeps them all. *)
Lemma first_seen_loop_kept_again (record : I → JsValue) (key_of : I → string)
    (items : list I) (seen : gset string) (out : list I) :
  (∀ item, item ∈ items → view (record item) = Some (key_of item, item)) →
  (∀ item, item ∈ items → key_of item ∉ seen) →
  NoDup (key_of <$> items) →
  first_seen_loop view (record <$> items) seen out = out ++ items.
Proof.
  revert seen out. induction items as [|item items IH];
    intros seen out Hview Hfresh Hnd; simpl.
  - by rewrite app_nil_r.
  - rewrite (Hview item) by (apply elem_of_cons; by left).
    rewrite bool_decide_false
      by (apply Hfresh; apply elem_of_cons; by left).
    apply NoDup_cons in Hnd as [Hnotin Hnd].
    rewrite IH; [by rewrite <- app_assoc| | |done].
    + intros it Hit. apply Hview. apply elem_of_cons. by right.
    + intros it Hit. rewrite elem_of_union, elem_of_singleton.
      intros [Heq|Hin].
      * apply Hnotin. rewrite <- Heq. by apply list_elem_of_fmap_2.
      * apply (Hfresh it); [|done]. apply elem_of_cons. by right.
Qed.

End FirstSeenLoopMore.

(** ** Item normalizer, continued *)

Lemma normalizeItems_as_loop (rs : list JsValue) :
  normalizeItems rs = first_seen_loop view_item rs ∅ [].
Proof. apply normalizeItems_loop_first_seen. Qed.

Lemma _normalizeItems_as_loop (rs : list JsValue) :
  _normalizeItems rs = first_seen_loop _normalizeItem rs ∅ [].
Proof. apply _normalizeItems_loop_first_seen. Qed.

Lemma view_item_None (r : JsValue) : resolveUrl r = None → view_item r = None.
Proof.
  intros Hr. pose proof (view_item_key r) as Hk. rewrite Hr in Hk.
  by destruct (view_item r).
Qed.

Lemma view_item_Some (r : JsValue) (u : string) :
  resolveUrl r = Some u → ∃ item, view_item r = Some (u, item).
Proof.
  intros Hr. pose proof (view_item_key r) as Hk. rewrite Hr in Hk.
  destruct (view_item r) as [[u' item]|]; simplify_eq/=. eauto.
Qed.

Lemma _normalizeItem_None (r : JsValue) :
  _resolveLink r = None → _normalizeItem r = None.
Proof.
  intros Hr. pose proof (_normalizeItem_key r) as Hk. rewrite Hr in Hk.
  by destruct (_normalizeItem r).
Qed.

Lemma _normalizeItem_Some_key (r : JsValue) (u : string) :
  _resolveLink r = Some u → ∃ item, _normalizeItem r = Some (u, item).
Proof.
  intros Hr. pose proof (_normalizeItem_key r) as Hk. rewrite Hr in Hk.
  destruct (_normalizeItem r) as [[u' item]|]; simplify_eq/=. eauto.
Qed.

Lemma no_alias_no_url (r : JsValue) :
  (∀ k, k ∈ url_aliases → nullish r.[k]%js = true) →
  resolveUrl r = None ∧ _resolveLink r = None.
Proof.
  intros Hn.
  assert (Hl : nullish r.["link"]%js = true) by (apply Hn; set_solver).
  assert (Hu : nullish r.["url"]%js = true) by (apply Hn; set_solver).
  assert (Hh : nullish r.["href"]%js = true) by (apply Hn; set_solver).
  assert (Hs : nullish r.["sourceUrl"]%js = true) by (apply Hn; set_solver).
  unfold resolveUrl, _resolveLink, nullish_coalesce, js_or.
  rewrite Hl, Hu, Hh.
  destruct (r.["link"]%js); try done;
    destruct (r.["url"]%js); try done;
    destruct (r.["href"]%js); try done;
    by destruct (r.["sourceUrl"]%js).
Qed.

(** X1.  A record none of whose fields [link], [url], [href],
    [sourceUrl] holds a value (each is [undefined] or [null]; in
    particular any record that is not an object) is dropped without a
    trace by both normalizers: the output is the one the other records
    alone would give. *)
Theorem record_without_url_is_dropped (pre post : list JsValue)
    (r : JsValue) :
  (∀ k, k ∈ url_aliases → nullish r.[k]%js = true) →
  normalizeItems (pre ++ r :: post) = normalizeItems (pre ++ post)
  ∧ _normalizeItems (pre ++ r :: post) = _normalizeItems (pre ++ post).
Proof.
  intros Hn. destruct (no_alias_no_url r Hn) as [Ht Hj].
  rewrite !normalizeItems_as_loop, !_normalizeItems_as_loop. split.
  - apply first_seen_loop_skip_keyless. by apply view_item_None.
  - apply first_seen_loop_skip_keyless. by apply _normalizeItem_None.
Qed.

Lemma record_without_url_is_dropped_witness :
  let r := JObj [("title", JStr "no address"); ("link", JNull)] in
  let a := JObj [("link", JStr "http://a")] in
  let b := JObj [("url", JStr "http://b")] in
  (∀ k, k ∈ url_aliases → nullish r.[k]%js = true)
  ∧ normalizeItems ([a] ++ r :: [b]) = normalizeItems ([a] ++ [b])
  ∧ _normalizeItems ([a] ++ r :: [b]) = _normalizeItems ([a] ++ [b]).
Proof.
  intros r a b.
  assert (Hn : ∀ k, k ∈ url_aliases → nullish r.[k]%js = true).
  { intros k Hk. unfold url_aliases in Hk.
    repeat (apply elem_of_cons in Hk as [->|Hk]; [done|]).
    by apply elem_of_nil in Hk. }
  split; [exact Hn|]. exact (record_without_url_is_dropped [a] [b] r Hn).
Defined.

(** X2.  Of two records that resolve the same URL only the earlier one
    counts: dropping the later one from the input changes nothing in
    the output of either normalizer, whatever its other fields hold. *)
Theorem later_duplicate_is_dropped (pre mid post : list JsValue)
    (r1 r2 : JsValue) (u : string) :
  (resolveUrl r1 = Some u → resolveUrl r2 = Some u →
   normalizeItems (pre ++ r1 :: mid ++ r2 :: post)
   = normalizeItems (pre ++ r1 :: mid ++ post))
  ∧ (_resolveLink r1 = Some u → _resolveLink r2 = Some u →
     _normalizeItems (pre ++ r1 :: mid ++ r2 :: post)
     = _normalizeItems (pre ++ r1 :: mid ++ post)).
Proof.
  split; intros H1 H2.
  - apply view_item_Some in H1 as [i1 H1]. apply view_item_Some in H2 as [i2 H2].
    rewrite !normalizeItems_as_loop.
    by apply (first_seen_loop_skip_repeat _ _ _ _ _ _ u i1 i2).
  - apply _normalizeItem_Some_key in H1 as [i1 H1].
    apply _normalizeItem_Some_key in H2 as [i2 H2].
    rewrite !_normalizeItems_as_loop.
    by apply (first_seen_loop_skip_repeat _ _ _ _ _ _ u i1 i2).
Qed.

Lemma later_duplicate_is_dropped_witness :
  let first := JObj [("link", JStr "http://x"); ("title", JStr "first")] in
  let other := JObj [("url", JStr "http://y")] in
  let again := JObj [("href", JStr "http://x"); ("title", JStr "second")] in
  (title <$> normalizeItems ([] ++ first :: [other] ++ again :: []))
  = [JStr "first"; JStr "http://y"]
  ∧ normalizeItems ([] ++ first :: [other] ++ again :: [])
    = normalizeItems ([] ++ first :: [other] ++ [])
  ∧ _normalizeItems ([] ++ first :: [other] ++ again :: [])
    = _normalizeItems ([] ++ first :: [other] ++ []).
Proof.
  intros first other again. split; [by vm_compute|].
  destruct (later_duplicate_is_dropped [] [other] [] first again "http://x")
    as [HT HJ].
  split; [apply HT|apply HJ]; reflexivity.
Defined.

(** X3.  Normalizing is stable: feeding the records of the items it
    returned ([raw]) through the normalizer again returns the same
    items, for both normalizers. *)
Theorem normalize_again_is_identity (rs : list JsValue) :
  normalizeItems (raw <$> normalizeItems rs) = normalizeItems rs
  ∧ _normalizeItems ((λ item, item.["raw"]%js) <$> _normalizeItems rs)
    = _normalizeItems rs.
Proof.
  split.
  - destruct (normalizeItems_spec rs) as (_ & _ & Hnd & _).
    rewrite (normalizeItems_as_loop (raw <$> _)).
    rewrite (first_seen_loop_kept_again view_item raw url); [done| | |done].
    + intros item Hin. apply normalizeItems_origin in Hin as (r & _ & Hn).
      unfold view_item.
      destruct (normalizeItem_Some _ _ Hn) as (_ & -> & _). by rewrite Hn.
    + intros item _. apply not_elem_of_empty.
  - set (key_of := λ item : JsValue,
                     match item.["url"]%js with JStr u => u | _ => "" end).
    rewrite (_normalizeItems_as_loop (_ <$> _)).
    rewrite (first_seen_loop_kept_again _normalizeItem
               (λ item, item.["raw"]%js) key_of); [done| | |].
    + intros item Hin.
      apply _normalizeItems_origin in Hin as (r & link & _ & Hn).
      destruct (_normalizeItem_Some _ _ _ Hn) as (_ & Hraw & Hurl & _).
      unfold key_of. by rewrite Hraw, Hurl.
    + intros item _. apply not_elem_of_empty.
    + unfold _normalizeItems. rewrite _normalizeItems_loop_first_seen.
      apply first_seen_loop_NoDup.
      * intros r u item Hv. unfold key_of.
        by destruct (_normalizeItem_Some _ _ _ Hv) as (_ & _ & -> & _).
      * constructor.
      * intros item Hin. by apply elem_of_nil in Hin.
Qed.

Lemma first_seen_loop_origin {I} (view : JsValue → option (string * I))
    (rs : list JsValue) (seen : gset string) (item : I) :
  item ∈ first_seen_loop view rs seen [] →
  ∃ r u, r ∈ rs ∧ view r = Some (u, item).
Proof.
  revert seen. induction rs as [|r rs IH]; intros seen; simpl.
  - intros Hin. by apply elem_of_nil in Hin.
  - destruct (view r) as [[u it]|] eqn:Hv.
    + case_bool_decide.
      * intros Hin. apply IH in Hin as (r' & u' & ? & ?).
        exists r', u'. split; [by apply elem_of_cons; right|done].
      * rewrite first_seen_loop_app. intros [Hin|Hin]%elem_of_app.
        -- apply list_elem_of_singleton in Hin as ->.
           exists r, u. split; [by apply elem_of_cons; left|done].
        -- apply IH in Hin as (r' & u' & ? & ?).
           exists r', u'. split; [by apply elem_of_cons; right|done].
    + intros Hin. apply IH in Hin as (r' & u' & ? & ?).
      exists r', u'. split; [by apply elem_of_cons; right|done].
Qed.

(** X4.  Later records never displace earlier results: the items of a
    list of records are an initial segment of the items of any longer
    list that starts with it, and what follows comes from the added
    records.  So the items of the first block keep their places however
    many blocks follow. *)
Theorem normalize_extends_prefix (rs1 rs2 : list JsValue) :
  (∃ more, normalizeItems (rs1 ++ rs2) = normalizeItems rs1 ++ more
           ∧ ∀ item, item ∈ more →
                     ∃ r, r ∈ rs2 ∧ normalizeItem r = Some item)
  ∧ (∃ more, _normalizeItems (rs1 ++ rs2) = _normalizeItems rs1 ++ more
             ∧ ∀ item, item ∈ more →
                       ∃ r link, r ∈ rs2
                                 ∧ _normalizeItem r = Some (link, item)).
Proof.
  split.
  - exists (first_seen_loop view_item rs2 (seen_after view_item rs1 ∅) []).
    split.
    + rewrite !normalizeItems_as_loop, first_seen_loop_split.
      apply first_seen_loop_app.
    + intros item Hin.
      apply first_seen_loop_origin in Hin as (r & u & Hr & Hv).
      exists r. split; [done|]. unfold view_item in Hv.
      destruct (normalizeItem r); by simplify_eq/=.
  - exists (first_seen_loop _normalizeItem rs2
              (seen_after _normalizeItem rs1 ∅) []).
    split.
    + rewrite !_normalizeItems_as_loop, first_seen_loop_split.
      apply first_seen_loop_app.
    + intros item Hin.
      apply first_seen_loop_origin in Hin as (r & u & Hr & Hv). eauto.
Qed.

Lemma resolveUrl_nonempty (r : JsValue) (u : string) :
  resolveUrl r = Some u → u ≠ "".
Proof.
  rewrite resolveUrl_chain.
  destruct (first_present _) as [[| |?|?|s|?|?]|]; try done.
  destruct (String.eqb s "") eqn:Hs; [done|].
  intros [= <-]. by apply String.eqb_neq.
Qed.

Lemma _resolveLink_nonempty (r : JsValue) (u : string) :
  _resolveLink r = Some u → u ≠ "".
Proof.
  rewrite _resolveLink_chain.
  destruct (find truthy _) as [v|] eqn:Hf; [|done].
  apply find_some in Hf as [_ Ht].
  destruct v as [| |?|?|s|?|?]; try done.
  intros [= <-]. simpl in Ht. apply negb_true_iff in Ht.
  by apply String.eqb_neq.
Qed.

(** X5.  Every item either normalizer returns has a non-empty string
    as its [url]. *)
Theorem item_urls_are_nonempty (rs : list JsValue) :
  Forall (λ item, url item ≠ "") (normalizeItems rs)
  ∧ Forall (λ item, ∃ link, item.["url"]%js = JStr link ∧ link ≠ "")
      (_normalizeItems rs).
Proof.
  split; apply Forall_forall; intros item Hin.
  - apply normalizeItems_origin in Hin as (r & _ & Hn).
    destruct (normalizeItem_Some _ _ Hn) as (Hu & _).
    by apply (resolveUrl_nonempty r).
  - apply _normalizeItems_origin in Hin as (r & link & _ & Hn).
    destruct (_normalizeItem_Some _ _ _ Hn) as (Hl & _ & Hu & _).
    exists link. split; [done|]. by apply (_resolveLink_nonempty r).
Qed.

Lemma omap_ext_in {A B} (f g : A → option B) (l : list A) :
  (∀ x, x ∈ l → f x = g x) → omap f l = omap g l.
Proof.
  induction l as [|x l IH]; intros Hfg; [done|].
  rewrite !omap_cons_eq, (Hfg x) by (apply elem_of_cons; by left).
  rewrite IH; [done|]. intros y Hy. apply Hfg. apply elem_of_cons. by right.
Qed.

Lemma fmap_ext_elem {A B} (f g : A → B) (l : list A) :
  (∀ x, x ∈ l → f x = g x) → f <$> l = g <$> l.
Proof.
  intros Hfg. apply list_fmap_ext. intros i x Hi. apply Hfg.
  by eapply list_elem_of_lookup_2.
Qed.

(** The selection depends on the key only through the records at hand. *)
Lemma spec_first_seen_ext (key1 key2 : JsValue → option string)
    (rs : list JsValue) :
  (∀ r, r ∈ rs → key1 r = key2 r) →
  spec_first_seen key1 rs = spec_first_seen key2 rs.
Proof.
  intros Hk. unfold spec_first_seen. apply omap_ext_in. intros i _.
  destruct (rs !! i) as [r|] eqn:Hi; [|done]. simpl.
  rewrite (Hk r) by (by eapply list_elem_of_lookup_2).
  rewrite (fmap_ext_elem key1 key2 (take i rs)); [done|].
  intros x Hx. apply Hk. apply list_elem_of_lookup in Hx as [j Hj].
  apply lookup_take_Some in Hj as [Hj _]. by eapply list_elem_of_lookup_2.
Qed.

Lemma plain_aliases_resolve_alike (r : JsValue) :
  (∀ k, k ∈ url_aliases → plain_alias r.[k]%js = true) →
  resolveUrl r = _resolveLink r.
Proof.
  intros Hp.
  assert (Hl : plain_alias r.["link"]%js = true) by (apply Hp; set_solver).
  assert (Hu : plain_alias r.["url"]%js = true) by (apply Hp; set_solver).
  assert (Hh : plain_alias r.["href"]%js = true) by (apply Hp; set_solver).
  assert (Hs : plain_alias r.["sourceUrl"]%js = true)
    by (apply Hp; set_solver).
  unfold resolveUrl, _resolveLink, nullish_coalesce, js_or.
  destruct (r.["link"]%js) as [| |?|?|[|? ?]|?|?]; try done;
    destruct (r.["url"]%js) as [| |?|?|[|? ?]|?|?]; try done;
    destruct (r.["href"]%js) as [| |?|?|[|? ?]|?|?]; try done;
    by destruct (r.["sourceUrl"]%js) as [| |?|?|[|? ?]|?|?].
Qed.

(** X6.  On records whose alias fields are each absent or a non-empty
    string, the two normalizers keep the same records, in the same
    order, under the same URLs. *)
Theorem normalizers_agree_on_plain_records (rs : list JsValue) :
  (∀ r k, r ∈ rs → k ∈ url_aliases → plain_alias r.[k]%js = true) →
  raw <$> normalizeItems rs
  = (λ item, item.["raw"]%js) <$> _normalizeItems rs
  ∧ (λ item, JStr (url item)) <$> normalizeItems rs
    = (λ item, item.["url"]%js) <$> _normalizeItems rs.
Proof.
  intros Hp.
  assert (Hres : ∀ r, r ∈ rs → resolveUrl r = _resolveLink r).
  { intros r Hr. apply plain_aliases_resolve_alike. intros k. by apply Hp. }
  destruct (normalizeItems_spec rs) as (HrawT & HurlT & _).
  destruct (_normalizeItems_spec rs) as (HrawJ & HurlJ & _).
  assert (Hraw : raw <$> normalizeItems rs
                 = (λ item, item.["raw"]%js) <$> _normalizeItems rs).
  { rewrite HrawT, HrawJ. by apply spec_first_seen_ext. }
  split; [done|].
  set (f := λ r, match resolveUrl r with
                 | Some u => JStr u
                 | None => JUndefined
                 end).
  set (g := λ r, match _resolveLink r with
                 | Some u => JStr u
                 | None => JUndefined
                 end).
  trans (f <$> (raw <$> normalizeItems rs)).
  { rewrite <- list_fmap_compose. apply fmap_ext_elem. intros item Hin.
    rewrite Forall_forall in HurlT. simpl. unfold f.
    by rewrite (HurlT item Hin). }
  trans (g <$> ((λ item, item.["raw"]%js) <$> _normalizeItems rs)).
  { rewrite Hraw. apply fmap_ext_elem. intros r Hr. unfold f, g.
    rewrite Hres; [done|].
    apply list_elem_of_fmap in Hr as (item & -> & Hin).
    apply _normalizeItems_origin in Hin as (r' & link & Hr' & Hn).
    by destruct (_normalizeItem_Some _ _ _ Hn) as (_ & -> & _). }
  rewrite <- list_fmap_compose. apply fmap_ext_elem. intros item Hin.
  rewrite Forall_forall in HurlJ. simpl. unfold g.
  destruct (HurlJ item Hin) as (link & -> & ->). done.
Qed.

Lemma normalizers_agree_on_plain_records_witness :
  let rs := [ JObj [("link", JStr "http://a"); ("title", JStr "A")];
              JObj [("sourceUrl", JStr "http://b")];
              JObj [("url", JStr "http://a")] ] in
  (∀ r k, r ∈ rs → k ∈ url_aliases → plain_alias r.[k]%js = true)
  ∧ raw <$> normalizeItems rs
    = (λ item, item.["raw"]%js) <$> _normalizeItems rs
  ∧ (λ item, JStr (url item)) <$> normalizeItems rs
    = (λ item, item.["url"]%js) <$> _normalizeItems rs.
Proof.
  intros rs.
  assert (Hp : ∀ r k, r ∈ rs → k ∈ url_aliases →
                      plain_alias r.[k]%js = true).
  { intros r k Hr Hk. unfold rs, url_aliases in *.
    repeat (apply elem_of_cons in Hr as [->|Hr]);
      try (by apply elem_of_nil in Hr);
      repeat (apply elem_of_cons in Hk as [->|Hk]);
      try (by apply elem_of_nil in Hk); reflexivity. }
  split; [exact Hp|]. exact (normalizers_agree_on_plain_records rs Hp).
Defined.

(** Without that proviso they differ: an empty [link] hides a usable
    [url] from bigmodel-web-search-prime.ts but not from index.js. *)
Example normalizers_differ_on_empty_link :
  let r := JObj [("link", JStr ""); ("url", JStr "http://x")] in
  normalizeItems [r] = []
  ∧ (λ item, item.["url"]%js) <$> _normalizeItems [r] = [JStr "http://x"].
Proof. by_evaluation. Qed.

(** ** Payload unwrapper, continued *)

Section UnwrapperMore.
Context `{Host}.

Lemma extract_loops_agree (blocks out : list JsValue) :
  _extractArrayFromBlocks_loop blocks out
  = parseItemsFromBlocks_loop blocks out.
Proof.
  revert out. induction blocks as [|b blocks IH]; intros out; simpl; [done|].
  destruct (negb (truthy b)) eqn:Hb.
  - rewrite IH. by destruct b as [| |[]|?|[|? ?]|?|?].
  - destruct (b.["type"]%js); try apply IH.
    destruct (b.["text"]%js); try apply IH.
    destruct (String.eqb _ _); apply IH.
Qed.

Lemma _extractArrayFromBlocks_as_parse (blocks : list JsValue) :
  _extractArrayFromBlocks blocks = parseItemsFromBlocks blocks.
Proof. apply extract_loops_agree. Qed.

(** X7.  The extractors of the two files compute the same function:
    [_extractArrayFromBlocks] of index.js and [parseItemsFromBlocks] of
    bigmodel-web-search-prime.ts return the same records for every list
    of blocks. *)
Theorem extractors_agree (blocks : list JsValue) :
  _extractArrayFromBlocks blocks = parseItemsFromBlocks blocks.
Proof. apply extract_loops_agree. Qed.

(** X8.  Extraction works block by block: the records of a list of
    blocks are the records of its first part followed by the records of
    the rest. *)
Theorem extraction_concatenates (blocks1 blocks2 : list JsValue) :
  parseItemsFromBlocks (blocks1 ++ blocks2)
  = parseItemsFromBlocks blocks1 ++ parseItemsFromBlocks blocks2
  ∧ _extractArrayFromBlocks (blocks1 ++ blocks2)
    = _extractArrayFromBlocks blocks1 ++ _extractArrayFromBlocks blocks2.
Proof.
  split; [apply parseItemsFromBlocks_app|apply _extractArrayFromBlocks_app].
Qed.

Lemma block_contribution_string (s : string) :
  block_contribution (JStr s) = [].
Proof. unfold block_contribution. simpl. by rewrite andb_false_r. Qed.

Lemma parseItemsFromBlocks_single (b : JsValue) :
  parseItemsFromBlocks [b]
  = match b.["type"]%js, b.["text"]%js with
    | JStr ty, JStr text =>
        if String.eqb ty "text"
        then block_contribution (parsePossiblyNestedJson text)
        else []
    | _, _ => []
    end.
Proof.
  unfold parseItemsFromBlocks. cbn [parseItemsFromBlocks_loop app].
  by destruct (b.["type"]%js).
Qed.

Lemma text_block_contribution (text : string) :
  parseItemsFromBlocks [text_block text]
  = block_contribution (parsePossiblyNestedJson text).
Proof. reflexivity. Qed.

(** X9.  A block that is not a text block, or whose text is not a
    string, or whose text fails to decode, contributes nothing and
    raises nothing: the records are those of the other blocks. *)
Theorem undecodable_block_is_skipped (pre post : list JsValue) (b : JsValue) :
  b.["type"]%js ≠ JStr "text"
  ∨ (∀ t, b.["text"]%js ≠ JStr t)
  ∨ (∃ t, b.["text"]%js = JStr t ∧ JSON_parse t = None) →
  parseItemsFromBlocks (pre ++ b :: post) = parseItemsFromBlocks (pre ++ post)
  ∧ _extractArrayFromBlocks (pre ++ b :: post)
    = _extractArrayFromBlocks (pre ++ post).
Proof.
  intros Hb.
  assert (Hnone : parseItemsFromBlocks [b] = []).
  { rewrite parseItemsFromBlocks_single.
    destruct (b.["type"]%js) as [| |?|?|ty|?|?] eqn:Hty; try done.
    destruct (b.["text"]%js) as [| |?|?|text|?|?] eqn:Htx; try done.
    destruct (String.eqb ty "text") eqn:Heq; [|done].
    apply String.eqb_eq in Heq as ->.
    destruct Hb as [Hb|[Hb|(t & [= <-] & Hp)]]; [by destruct Hb|by destruct (Hb text)|].
    unfold parsePossiblyNestedJson. simpl. rewrite Hp.
    apply block_contribution_string. }
  rewrite !_extractArrayFromBlocks_as_parse.
  change (b :: post) with ([b] ++ post).
  by rewrite !parseItemsFromBlocks_app, Hnone.
Qed.

(** X10.  Unwrapping stops after two layers.  If the platform's codec
    decodes an encoded string to that string, a text wrapped in two
    further string encodings comes out of the two rounds as that text,
    still a string, and its block contributes no records, whatever the
    text itself encodes. *)
Theorem third_layer_is_not_unwrapped (t once twice : string) :
  (∀ s e, JSON_stringify (JStr s) = Some e → JSON_parse e = Some (JStr s)) →
  JSON_stringify (JStr t) = Some once →
  JSON_stringify (JStr once) = Some twice →
  parsePossiblyNestedJson twice = JStr t
  ∧ _parseNestedJson twice = JStr t
  ∧ parseItemsFromBlocks [text_block twice] = []
  ∧ _extractArrayFromBlocks [text_block twice] = [].
Proof.
  intros Hs Honce Htwice.
  assert (Hp : parsePossiblyNestedJson twice = JStr t).
  { unfold parsePossiblyNestedJson. simpl.
    by rewrite (Hs _ _ Htwice), (Hs _ _ Honce). }
  split; [done|]. split; [done|].
  rewrite _extractArrayFromBlocks_as_parse, text_block_contribution.
  by rewrite Hp, block_contribution_string.
Qed.

(** X11.  Among the wrappers the first array found wins, even an empty
    one: when a text decodes to an object whose [items] is an array, its
    block contributes exactly the elements of [items], whatever
    [results] and [data] hold. *)
Theorem items_wrapper_wins (text : string) (fields : list (string * JsValue))
    (xs : list JsValue) :
  JSON_parse text = Some (JObj fields) →
  (JObj fields).["items"]%js = JArr xs →
  parseItemsFromBlocks [text_block text] = xs
  ∧ _extractArrayFromBlocks [text_block text] = xs.
Proof.
  intros Hp Hi.
  rewrite _extractArrayFromBlocks_as_parse, text_block_contribution.
  unfold parsePossiblyNestedJson. cbn [parse_rounds]. rewrite Hp.
  unfold block_contribution, wrapped_array.
  cbn [truthy typeof andb]. by rewrite Hi.
Qed.

End UnwrapperMore.

Lemma third_layer_is_not_unwrapped_witness :
  let thrice :=
    default "" (@JSON_stringify silent_host (JStr sample_twice)) in
  @JSON_parse silent_host sample_once = Some (JArr sample_records)
  ∧ @parsePossiblyNestedJson silent_host thrice = JStr sample_once
  ∧ @parseItemsFromBlocks silent_host [text_block thrice] = []
  ∧ @_extractArrayFromBlocks silent_host [text_block thrice] = [].
Proof.
  intros thrice. split; [by vm_compute|].
  destruct (@third_layer_is_not_unwrapped silent_host sample_once
              sample_twice thrice ref_parse_stringify_string)
    as (Hp & _ & Ht & Hj); [reflexivity..|].
  by rewrite Hp, Ht, Hj.
Defined.

Lemma undecodable_block_is_skipped_witness :
  let bad := JObj [("type", JStr "text"); ("text", JStr "{oops")] in
  let good := text_block sample_once in
  @JSON_parse silent_host "{oops" = None
  ∧ @parseItemsFromBlocks silent_host ([good] ++ bad :: [])
    = @parseItemsFromBlocks silent_host ([good] ++ [])
  ∧ @_extractArrayFromBlocks silent_host ([good] ++ bad :: [])
    = @_extractArrayFromBlocks silent_host ([good] ++ []).
Proof.
  intros bad good. split; [by vm_compute|].
  apply (@undecodable_block_is_skipped silent_host [good] [] bad).
  right. right. exists "{oops". split; [reflexivity|by vm_compute].
Defined.

Lemma items_wrapper_wins_witness :
  let fields := [ ("items", JArr []);
                  ("results", JArr [JObj [("url", JStr "http://r")]]) ] in
  let text := default "" (@JSON_stringify silent_host (JObj fields)) in
  @JSON_parse silent_host text = Some (JObj fields)
  ∧ @parseItemsFromBlocks silent_host [text_block text] = []
  ∧ @_extractArrayFromBlocks silent_host [text_block text] = [].
Proof.
  intros fields text.
  assert (Hp : @JSON_parse silent_host text = Some (JObj fields))
    by (by vm_compute).
  split; [exact Hp|].
  exact (@items_wrapper_wins silent_host text fields [] Hp eq_refl).
Defined.

(** ** The credential fingerprint *)

Lemma ToInt32_range (z : Z) : - 2 ^ 31 ≤ ToInt32 z < 2 ^ 31.
Proof.
  unfold ToInt32. pose proof (Z.mod_pos_bound z (2 ^ 32) ltac:(lia)).
  case_match; lia.
Qed.

Lemma ToInt32_cong (x k : Z) : ToInt32 (x + k * 2 ^ 32) = ToInt32 x.
Proof. unfold ToInt32. by rewrite Z_mod_plus_full. Qed.

Lemma ToInt32_repr (z : Z) : ∃ k, ToInt32 z = z + k * 2 ^ 32.
Proof.
  unfold ToInt32. pose proof (Z.div_mod z (2 ^ 32) ltac:(lia)) as Hz.
  case_match.
  - exists (- (z / 2 ^ 32)). lia.
  - exists (- (z / 2 ^ 32) - 1). lia.
Qed.

Lemma ToInt32_small (z : Z) : - 2 ^ 31 ≤ z < 2 ^ 31 → ToInt32 z = z.
Proof.
  intros Hz. destruct (ToInt32_repr z) as [k Hk].
  pose proof (ToInt32_range z). lia.
Qed.

(** One turn of the loop multiplies by 31 and adds the code unit,
    modulo 2^32. *)
Lemma hashKey_step (h c : Z) :
  ToInt32 (ToInt32 (Z.shiftl h 5) - h + c) = ToInt32 (31 * h + c).
Proof.
  rewrite Z.shiftl_mul_pow2 by lia.
  destruct (ToInt32_repr (h * 2 ^ 5)) as [k ->].
  replace (h * 2 ^ 5 + k * 2 ^ 32 - h + c) with (31 * h + c + k * 2 ^ 32)
    by lia.
  apply ToInt32_cong.
Qed.

Lemma hash_poly_shift (s : string) (h d : Z) :
  hash_poly s (h + d) = hash_poly s h + 31 ^ Z.of_nat (String.length s) * d.
Proof.
  revert h d. induction s as [|c s IH]; intros h d.
  - simpl. lia.
  - cbn [hash_poly String.length].
    replace (31 * (h + d) + Z.of_nat (nat_of_ascii c))
      with (31 * h + Z.of_nat (nat_of_ascii c) + 31 * d) by lia.
    rewrite IH, Nat2Z.inj_succ, Z.pow_succ_r by lia. lia.
Qed.

Lemma hashKey_loop_cons (c : ascii) (s : string) (h : Z) :
  hashKey_loop (String c s) h
  = hashKey_loop s (ToInt32 (31 * h + Z.of_nat (nat_of_ascii c))).
Proof. cbn [hashKey_loop]. by rewrite hashKey_step. Qed.

Lemma hashKey_loop_repr (s : string) (h : Z) :
  ∃ k, hashKey_loop s h = hash_poly s h + k * 2 ^ 32.
Proof.
  revert h. induction s as [|c s IH]; intros h.
  - exists 0. simpl. lia.
  - rewrite hashKey_loop_cons. cbn [hash_poly].
    destruct (ToInt32_repr (31 * h + Z.of_nat (nat_of_ascii c))) as [j ->].
    destruct (IH (31 * h + Z.of_nat (nat_of_ascii c) + j * 2 ^ 32))
      as [k ->].
    rewrite hash_poly_shift.
    exists (31 ^ Z.of_nat (String.length s) * j + k). lia.
Qed.

Lemma hashKey_loop_range (s : string) (h : Z) :
  - 2 ^ 31 ≤ h < 2 ^ 31 → - 2 ^ 31 ≤ hashKey_loop s h < 2 ^ 31.
Proof.
  revert h. induction s as [|c s IH]; intros h Hh; [done|].
  rewrite hashKey_loop_cons. apply IH, ToInt32_range.
Qed.

(** The loop computes the 32-bit wrap of the polynomial. *)
Lemma hashKey_loop_poly (s : string) :
  hashKey_loop s 0 = ToInt32 (hash_poly s 0).
Proof.
  destruct (hashKey_loop_repr s 0) as [k Hk].
  rewrite <- (ToInt32_small (hashKey_loop s 0))
    by (apply hashKey_loop_range; lia).
  rewrite Hk. apply ToInt32_cong.
Qed.

Lemma hashKey_loop_app (s1 s2 : string) (h : Z) :
  hashKey_loop (s1 +:+ s2) h = hashKey_loop s2 (hashKey_loop s1 h).
Proof.
  revert h. induction s1 as [|c s1 IH]; intros h; [done|].
  rewrite string_app_cons, !hashKey_loop_cons. apply IH.
Qed.

(** X12.  The fingerprint of a credential is the letter k followed by
    the decimal digits of a number between 0 and 2^31: the absolute
    value of the 32-bit signed wrap of the polynomial
    [c1 * 31^(n-1) + ... + cn] in the credential's code units.  The two
    files compute the same fingerprint. *)
Theorem fingerprint_shape (s : string) :
  let n := Z.abs (ToInt32 (hash_poly s 0)) in
  hashKey s = "k" +:+ pretty n
  ∧ _hashKey s = hashKey s
  ∧ 0 ≤ n ≤ 2 ^ 31.
Proof.
  cbv zeta. unfold hashKey, _hashKey. rewrite hashKey_loop_poly.
  split; [done|]. split; [done|].
  pose proof (ToInt32_range (hash_poly s 0)). lia.
Qed.

Lemma hashKey_loop_Aa_BB (h : Z) :
  hashKey_loop "Aa" h = hashKey_loop "BB" h.
Proof.
  rewrite !hashKey_loop_cons. cbn [hashKey_loop].
  change (Z.of_nat (nat_of_ascii "A")) with 65.
  change (Z.of_nat (nat_of_ascii "a")) with 97.
  change (Z.of_nat (nat_of_ascii "B")) with 66.
  destruct (ToInt32_repr (31 * h + 65)) as [j ->].
  destruct (ToInt32_repr (31 * h + 66)) as [k ->].
  replace (31 * (31 * h + 65 + j * 2 ^ 32) + 97)
    with (961 * h + 2112 + 31 * j * 2 ^ 32) by lia.
  replace (31 * (31 * h + 66 + k * 2 ^ 32) + 66)
    with (961 * h + 2112 + 31 * k * 2 ^ 32) by lia.
  by rewrite !ToInt32_cong.
Qed.

(** X13.  The fingerprint does not separate credentials: two
    credentials that differ only in having [Aa] where the other has
    [BB] have the same fingerprint, in both files. *)
Theorem fingerprint_collides (before after : string) :
  hashKey (before +:+ "Aa" +:+ after) = hashKey (before +:+ "BB" +:+ after)
  ∧ _hashKey (before +:+ "Aa" +:+ after)
    = _hashKey (before +:+ "BB" +:+ after)
  ∧ before +:+ "Aa" +:+ after ≠ before +:+ "BB" +:+ after.
Proof.
  assert (Hh : hashKey_loop (before +:+ "Aa" +:+ after) 0
               = hashKey_loop (before +:+ "BB" +:+ after) 0).
  { by rewrite !hashKey_loop_app, hashKey_loop_Aa_BB. }
  unfold hashKey, _hashKey. rewrite Hh. split; [done|]. split; [done|].
  intros Heq. by apply (inj (String.app before)) in Heq.
Qed.

(** ** The connection cache *)

Section CacheFacts.
Context `{Host}.

Lemma getOrCreateClient_hit (endpoint apiKey : string)
    (headers : option (gmap string string)) (w : World) (o : Outcome Client) :
  clientCache w !! (endpoint +:+ "::" +:+ hashKey apiKey) = Some o →
  getOrCreateClient endpoint apiKey headers w = (o, w).
Proof. intros Hhit. unfold getOrCreateClient. by rewrite Hhit. Qed.

(** How an acquisition through the cache ends: on a hit with what the
    cache holds and the world untouched; on a miss with a malformed
    endpoint with a [TypeError] and the world untouched; on a miss
    otherwise with the fate of the new session, stored under the key,
    after a transport and a connect. *)
Lemma getOrCreateClient_cases (endpoint apiKey : string)
    (headers : option (gmap string string)) (w w1 : World)
    (o : Outcome Client) :
  let key := endpoint +:+ "::" +:+ hashKey apiKey in
  getOrCreateClient endpoint apiKey headers w = (o, w1) →
  (clientCache w !! key = Some o ∧ w1 = w)
  ∨ (clientCache w !! key = None ∧ URL_valid endpoint = false ∧ w1 = w
     ∧ o = Rejected (TypeError "Invalid URL"))
  ∨ (clientCache w !! key = None ∧ URL_valid endpoint = true
     ∧ clientCache w1 = <[key := o]> (clientCache w)
     ∧ ∃ client,
         trace w1 = trace w ++ [ NewTransport endpoint
                                   (mergedHeaders apiKey headers);
                                 Connect client ]).
Proof.
  intros key Hrun. unfold getOrCreateClient in Hrun. fold key in Hrun.
  destruct (clientCache w !! key) as [existing|] eqn:Hhit.
  { injection Hrun as <- <-. by left. }
  right. unfold createClientPromise in Hrun.
  destruct (URL_valid endpoint); simpl in Hrun.
  - right. split; [done|]. split; [done|].
    set (client := {| client_id := next_client_id w |}) in *.
    destruct (sdk_connect client) as [d [[]|e]|]; simpl in Hrun;
      injection Hrun as <- <-; simpl;
      (split; [done|]); exists client; by rewrite <- app_assoc.
  - injection Hrun as <- <-. by left.
Qed.

(** X14.  Acquiring a session through the cache a second time, for the
    same endpoint and a credential with the same fingerprint, returns
    what the first acquisition returned and leaves the world as it is:
    no transport, no connect, no clock time, whatever headers the second
    caller passes.  This holds when the first acquisition succeeded
    (the session is shared), when it failed (the failure is served
    again) and when it never settled. *)
Theorem cached_outcome_is_served_again (endpoint apiKey1 apiKey2 : string)
    (headers1 headers2 : option (gmap string string)) (w w1 : World)
    (o : Outcome Client) :
  hashKey apiKey2 = hashKey apiKey1 →
  getOrCreateClient endpoint apiKey1 headers1 w = (o, w1) →
  getOrCreateClient endpoint apiKey2 headers2 w1 = (o, w1).
Proof.
  intros Hfp Hrun.
  destruct (getOrCreateClient_cases _ _ _ _ _ _ Hrun)
    as [[Hhit ->]|[(Hmiss & Hurl & -> & ->)|(Hmiss & Hurl & Hc & _)]].
  - apply getOrCreateClient_hit. by rewrite Hfp.
  - unfold getOrCreateClient, createClientPromise.
    by rewrite Hfp, Hmiss, Hurl.
  - apply getOrCreateClient_hit. by rewrite Hfp, Hc, lookup_insert_eq.
Qed.

Lemma getOrCreateClient_keeps_other_cache (endpoint apiKey : string)
    (headers : option (gmap string string)) (w : World) :
  _clientCache (getOrCreateClient endpoint apiKey headers w).2
  = _clientCache w.
Proof.
  unfold getOrCreateClient, createClientPromise.
  destruct (clientCache w !! _); [done|].
  destruct (URL_valid endpoint); simpl; [|done].
  by destruct (sdk_connect _) as [d [[]|e]|].
Qed.

(** X15.  An acquisition through the cache changes the cache at its own
    key at most, and never replaces an entry that is there. *)
Theorem cache_grows_at_own_key (endpoint apiKey : string)
    (headers : option (gmap string string)) (w : World) :
  let key := endpoint +:+ "::" +:+ hashKey apiKey in
  let w1 := (getOrCreateClient endpoint apiKey headers w).2 in
  (∀ key', key' ≠ key → clientCache w1 !! key' = clientCache w !! key')
  ∧ (∀ o, clientCache w !! key = Some o → clientCache w1 = clientCache w)
  ∧ _clientCache w1 = _clientCache w.
Proof.
  intros key w1.
  split; [|split; [|apply getOrCreateClient_keeps_other_cache]]; subst w1;
    destruct (getOrCreateClient endpoint apiKey headers w) as [o w'] eqn:Hrun;
    simpl;
    destruct (getOrCreateClient_cases _ _ _ _ _ _ Hrun)
      as [[Hhit ->]|[(Hmiss & Hurl & -> & ->)|(Hmiss & Hurl & Hc & _)]];
    try done.
  - intros key' Hne. rewrite Hc. by apply lookup_insert_ne.
  - fold key in Hmiss. intros o' Ho. by rewrite Hmiss in Ho.
Qed.

End CacheFacts.

Lemma cached_outcome_is_served_again_witness :
  let first :=
    @getOrCreateClient silent_host "https://e" "xAay" None world0 in
  let second :=
    @getOrCreateClient silent_host "https://e" "xBBy"
      (Some {[ "X-Other" := "1" ]}) first.2 in
  hashKey "xBBy" = hashKey "xAay"
  ∧ second = first
  ∧ (client_headers <$> resolved_value second.1)
    = Some {[ "Authorization" := "Bearer xAay" ]}.
Proof.
  intros first second.
  assert (Hfp : hashKey "xBBy" = hashKey "xAay") by (by vm_compute).
  split; [exact Hfp|].
  assert (Hsecond : second = first).
  { unfold second. destruct first as [o w1] eqn:Hfirst.
    exact (@cached_outcome_is_served_again silent_host "https://e"
             "xAay" "xBBy" None _ world0 w1 o Hfp Hfirst). }
  split; [exact Hsecond|]. rewrite Hsecond. by vm_compute.
Defined.

(** ** What a call asks of the transport *)

Section CallEvents.
Context `{Host}.

Lemma createClientPromise_cases (endpoint apiKey : string)
    (headers : option (gmap string string)) (w : World) :
  (URL_valid endpoint = false
   ∧ createClientPromise endpoint apiKey headers w
     = (inl (TypeError "Invalid URL"), w))
  ∨ (URL_valid endpoint = true
     ∧ ∃ p w1 client,
         createClientPromise endpoint apiKey headers w = (inr p, w1)
         ∧ p = catch_rethrow (then_ (sdk_connect client) (λ _, client))
                 (λ e, BigModelMCPError "Failed to connect MCP client"
                         TRANSPORT_OR_CONNECT_ERROR (Some e))
         ∧ client = {| client_id := next_client_id w;
                       client_endpoint := endpoint;
                       client_headers := mergedHeaders apiKey headers |}
         ∧ trace w1 = trace w ++ [ NewTransport endpoint
                                     (mergedHeaders apiKey headers);
                                   Connect client ]
         ∧ clientCache w1 = clientCache w
         ∧ _clientCache w1 = _clientCache w
         ∧ now w1 = now w
         ∧ BIGMODEL_API_KEY w1 = BIGMODEL_API_KEY w).
Proof.
  unfold createClientPromise. destruct (URL_valid endpoint); simpl.
  - right. split; [done|]. eexists _, _, _. split; [reflexivity|].
    split; [reflexivity|]. split; [reflexivity|]. simpl.
    by rewrite <- app_assoc.
  - by left.
Qed.

Lemma await_trace {A} (p : Promise A) (w : World) :
  trace (await p w).2 = trace w.
Proof. by destruct p. Qed.

Lemma acquireClient_trace (options : BigModelMCPOptions.t)
    (endpoint apiKey : string) (w : World) :
  ∃ session,
    trace (acquireClient options endpoint apiKey w).2 = trace w ++ session
    ∧ (session = []
       ∨ ∃ client,
           session = [ NewTransport endpoint
                         (mergedHeaders apiKey
                            (BigModelMCPOptions.transportHeaders options));
                       Connect client ]).
Proof.
  set (headers := BigModelMCPOptions.transportHeaders options).
  assert (Hnil : ∀ w', trace w' = trace w →
            ∃ session, trace w' = trace w ++ session
              ∧ (session = []
                 ∨ ∃ client,
                     session = [ NewTransport endpoint
                                   (mergedHeaders apiKey headers);
                                 Connect client ])).
  { intros w' ->. exists []. rewrite app_nil_r. by split; [|left]. }
  assert (Hnew : ∀ w' client,
            trace w' = trace w ++ [ NewTransport endpoint
                                      (mergedHeaders apiKey headers);
                                    Connect client ] →
            ∃ session, trace w' = trace w ++ session
              ∧ (session = []
                 ∨ ∃ client,
                     session = [ NewTransport endpoint
                                   (mergedHeaders apiKey headers);
                                 Connect client ])).
  { intros w' client ->. eexists. split; [done|]. right. eauto. }
  unfold acquireClient. fold headers.
  destruct (negb (bool_decide _)).
  - unfold getOrCreateClient.
    destruct (clientCache w !! _) as [existing|]; [by apply Hnil|].
    destruct (createClientPromise_cases endpoint apiKey headers w)
      as [[_ ->]|(_ & p & w1 & client & -> & _ & _ & Ht & _)];
      [by apply Hnil|].
    apply (Hnew _ client). by rewrite await_trace.
  - unfold createEphemeralClient.
    destruct (createClientPromise_cases endpoint apiKey headers w)
      as [[_ ->]|(_ & p & w1 & client & -> & _ & _ & Ht & _)];
      [by apply Hnil|].
    apply (Hnew _ client). by rewrite await_trace.
Qed.

Lemma validateTool_trace (options : BigModelMCPOptions.t) (endpoint : string)
    (client : Client) (w : World) :
  ∃ listing,
    trace (validateTool options endpoint client w).2 = trace w ++ listing
    ∧ (listing = []
       ∨ (BigModelMCPOptions.validateToolAvailability options = Some true
          ∧ listing = [ListTools client])).
Proof.
  unfold validateTool. case_bool_decide as Hv.
  - exists [ListTools client]. split; [|by right].
    unfold bind, emit. simpl.
    destruct (sdk_listTools client) as [d [toolList|e]|]; simpl; try done.
    by destruct (tool_exists toolList).
  - exists []. rewrite app_nil_r. by split; [|left].
Qed.

Lemma invokeTool_trace (options : BigModelMCPOptions.t) (client : Client)
    (params : JsValue) (w : World) :
  trace (invokeTool options client params w).2
  = trace w ++ [CallTool client TOOL_NAME params].
Proof. unfold invokeTool, bind, emit. simpl. apply await_trace. Qed.

(** What a call sends once [acquireClient] has returned. *)
Lemma call_trace_after_acquire (params : JsValue)
    (options : BigModelMCPOptions.t) (w w1 : World) (o : Outcome Client) :
  apiKey_missing (resolvedApiKey options w) = false →
  acquireClient options (resolvedEndpoint options)
    (default "" (resolvedApiKey options w)) w = (o, w1) →
  ∃ listing calling,
    trace (bigmodelWebSearchPrime params options w).2
    = trace w1 ++ listing ++ calling
    ∧ (listing = []
       ∨ (BigModelMCPOptions.validateToolAvailability options = Some true
          ∧ ∃ client, listing = [ListTools client]))
    ∧ (calling = []
       ∨ ∃ client, calling = [CallTool client "webSearchPrime" params]).
Proof.
  intros Hkey Hacq. unfold bigmodelWebSearchPrime. rewrite Hkey.
  set (endpoint := resolvedEndpoint options) in *.
  set (apiKey := default "" (resolvedApiKey options w)) in *.
  rewrite (bind_run Date_now _ w w (now w)) by done.
  unfold bind at 1. rewrite Hacq.
  destruct o as [client| |];
    try (exists [], []; simpl; rewrite !app_nil_r;
         by repeat split; try done; left).
  destruct (validateTool_trace options endpoint client w1)
    as (listing & Hl & Hlisting).
  assert (Hlisting' : listing = []
            ∨ (BigModelMCPOptions.validateToolAvailability options
               = Some true ∧ ∃ client, listing = [ListTools client])).
  { destruct Hlisting as [->|[? ->]]; [by left|right; eauto]. }
  clear Hlisting. unfold bind at 1.
  destruct (validateTool options endpoint client w1) as [[[]| |] w2];
    simpl in Hl;
    try (exists listing, []; simpl; rewrite !app_nil_r, Hl;
         by repeat split; try done; left).
  pose proof (invokeTool_trace options client params w2) as Hc.
  unfold bind at 1.
  destruct (invokeTool options client params w2) as [[result| |] w3];
    simpl in Hc;
    exists listing, [CallTool client TOOL_NAME params];
    (split; [|split; [done|right; by exists client]]);
    try (by simpl; rewrite Hc, Hl, <- !app_assoc).
  destruct (truthy _); simpl; by rewrite Hc, Hl, <- !app_assoc.
Qed.

(** X16.  One call of [bigmodelWebSearchPrime] asks the transport for
    at most one session (a transport and a connect), then at most one
    tool listing, and only if [validateToolAvailability] is set, then at
    most one invocation, in that order and nothing else; the invocation
    names [webSearchPrime] and passes the caller's [params] unchanged. *)
Theorem call_events_in_order (params : JsValue)
    (options : BigModelMCPOptions.t) (w : World) :
  ∃ session listing calling,
    trace (bigmodelWebSearchPrime params options w).2
    = trace w ++ session ++ listing ++ calling
    ∧ (session = []
       ∨ ∃ client headers,
           session = [ NewTransport (resolvedEndpoint options) headers;
                       Connect client ])
    ∧ (listing = []
       ∨ (BigModelMCPOptions.validateToolAvailability options = Some true
          ∧ ∃ client, listing = [ListTools client]))
    ∧ (calling = []
       ∨ ∃ client, calling = [CallTool client "webSearchPrime" params]).
Proof.
  destruct (apiKey_missing (resolvedApiKey options w)) eqn:Hkey.
  { exists [], [], []. unfold bigmodelWebSearchPrime. rewrite Hkey. simpl.
    rewrite app_nil_r. by repeat split; left. }
  set (endpoint := resolvedEndpoint options).
  set (apiKey := default "" (resolvedApiKey options w)).
  destruct (acquireClient_trace options endpoint apiKey w)
    as (session & Hs & Hsession).
  destruct (acquireClient options endpoint apiKey w) as [o w1] eqn:Hacq.
  simpl in Hs.
  destruct (call_trace_after_acquire params options w w1 o Hkey Hacq)
    as (listing & calling & Ht & Hlisting & Hcalling).
  exists session, listing, calling.
  split; [by rewrite Ht, Hs, <- !app_assoc|].
  split; [|done].
  destruct Hsession as [->|(c & ->)]; [by left|right; eauto].
Qed.

End CallEvents.

(** ** The credential check *)

Lemma all_trim_space_rev_app (s t : string) :
  all_trim_space (String.rev_app s t) = all_trim_space s && all_trim_space t.
Proof.
  revert t. induction s as [|c s IH]; intros t; [done|].
  simpl. rewrite IH. simpl.
  destruct (is_trim_space c); simpl; [done|]. by rewrite andb_false_r.
Qed.

Lemma all_trim_space_rev (s : string) :
  all_trim_space (String.rev s) = all_trim_space s.
Proof.
  unfold String.rev. rewrite all_trim_space_rev_app. simpl.
  by rewrite andb_true_r.
Qed.

Lemma trimStart_empty (s : string) :
  trimStart s = "" → all_trim_space s = true.
Proof.
  induction s as [|c s IH]; simpl; [done|].
  destruct (is_trim_space c); [done|discriminate].
Qed.

Lemma trimStart_head (s : string) :
  all_trim_space (trimStart s) = true → all_trim_space s = true.
Proof.
  induction s as [|c s IH]; simpl; [done|].
  destruct (is_trim_space c) eqn:Hc; [done|].
  simpl. by rewrite Hc.
Qed.

Lemma string_rev_app_empty (s t : string) :
  String.rev_app s t = "" → s = "".
Proof.
  revert t. induction s as [|c s IH]; intros t; [done|].
  simpl. intros Hs. by specialize (IH _ Hs) as ->.
Qed.

Lemma string_rev_empty (s : string) : String.rev s = "" → s = "".
Proof. apply string_rev_app_empty. Qed.

Lemma trim_empty (s : string) : trim s = "" → all_trim_space s = true.
Proof.
  unfold trim. intros Hs%string_rev_empty%trimStart_empty.
  rewrite all_trim_space_rev in Hs. by apply trimStart_head.
Qed.

(** X17.  The credential check of bigmodel-web-search-prime.ts
    ([!apiKey || apiKey.trim() === '']) refuses a string exactly when
    every one of its code units is white space that [trim] strips: the
    empty string, blanks, tabs and line breaks, and nothing else. *)
Theorem credential_refused_iff_blank (k : string) :
  apiKey_missing (Some k) = all_trim_space k.
Proof.
  unfold apiKey_missing. destruct (all_trim_space k) eqn:Hk.
  - by rewrite (trim_all_space k Hk), orb_true_r.
  - apply orb_false_intro.
    + apply String.eqb_neq. by intros ->.
    + apply String.eqb_neq. intros Ht%trim_empty. congruence.
Qed.

(** X18.  An [apiKey] option that is the empty string is treated
    differently by the two implementations.  bigmodel-web-search-prime.ts
    resolves it with [??], so it hides the environment variable and the
    call is rejected with [MISSING_API_KEY] without touching the world;
    index.js resolves it with [||], so the environment variable is used
    in its place. *)
Theorem empty_option_key `{Host} (params : JsValue)
    (options : BigModelMCPOptions.t) (_options : WebSearchPrimeOptions.t)
    (w : World) :
  BigModelMCPOptions.apiKey options = Some "" →
  WebSearchPrimeOptions.apiKey _options = Some "" →
  bigmodelWebSearchPrime params options w
  = (Rejected (BigModelMCPError
                 "Missing BigModel API key: pass options.apiKey or set BIGMODEL_API_KEY"
                 MISSING_API_KEY None), w)
  ∧ _resolvedApiKey _options w = BIGMODEL_API_KEY w.
Proof.
  intros Hk _Hk. split.
  - unfold bigmodelWebSearchPrime, resolvedApiKey. by rewrite Hk.
  - unfold _resolvedApiKey. by rewrite _Hk.
Qed.

Lemma empty_option_key_witness :
  let options :=
    {| BigModelMCPOptions.apiKey := Some "";
       BigModelMCPOptions.endpoint := None;
       BigModelMCPOptions.transportHeaders := None;
       BigModelMCPOptions.reuseConnection := None;
       BigModelMCPOptions.validateToolAvailability := None;
       BigModelMCPOptions.timeoutMs := None |} in
  let _options :=
    {| WebSearchPrimeOptions.apiKey := Some "";
       WebSearchPrimeOptions.endpoint := None;
       WebSearchPrimeOptions.reuseConnection := None |} in
  let w :=
    {| now := 1000; BIGMODEL_API_KEY := Some "secret";
       clientCache := ∅; _clientCache := ∅;
       next_client_id := 0; trace := [] |} in
  outcome_code (@bigmodelWebSearchPrime instant_host sample_params options w).1
  = Some MISSING_API_KEY
  ∧ @_resolvedApiKey _options w = Some "secret".
Proof.
  intros options _options w.
  destruct (@empty_option_key instant_host sample_params options _options w
              eq_refl eq_refl) as [-> ->].
  by split.
Defined.

(** ** How a call fails *)

Section CallFailures.
Context `{Host}.

(** The session a call obtains when none is cached for it. *)
Lemma acquireClient_fresh (options : BigModelMCPOptions.t)
    (endpoint apiKey : string) (w : World) :
  BigModelMCPOptions.reuseConnection options = Some false
  ∨ clientCache w !! (endpoint +:+ "::" +:+ hashKey apiKey) = None →
  URL_valid endpoint = true →
  let client :=
    {| client_id := next_client_id w;
       client_endpoint := endpoint;
       client_headers :=
         mergedHeaders apiKey (BigModelMCPOptions.transportHeaders options) |} in
  (acquireClient options endpoint apiKey w).1
  = fate (catch_rethrow (then_ (sdk_connect client) (λ _, client))
            (λ e, BigModelMCPError "Failed to connect MCP client"
                    TRANSPORT_OR_CONNECT_ERROR (Some e))).
Proof.
  intros Hfresh Hurl client. unfold acquireClient.
  assert (Heph : (createEphemeralClient endpoint apiKey
                    (BigModelMCPOptions.transportHeaders options) w).1
                 = fate (catch_rethrow (then_ (sdk_connect client) (λ _, client))
                           (λ e, BigModelMCPError "Failed to connect MCP client"
                                   TRANSPORT_OR_CONNECT_ERROR (Some e)))).
  { unfold createEphemeralClient, createClientPromise. rewrite Hurl. simpl.
    fold client. by destruct (sdk_connect client) as [d [[]|e]|]. }
  case_bool_decide as Hre; simpl; [done|].
  destruct Hfresh as [Hre'|Hmiss]; [done|].
  unfold getOrCreateClient. rewrite Hmiss.
  unfold createClientPromise. rewrite Hurl. simpl.
  fold client. by destruct (sdk_connect client) as [d [[]|e]|].
Qed.

Lemma acquireClient_invalid_URL (options : BigModelMCPOptions.t)
    (endpoint apiKey : string) (w : World) :
  BigModelMCPOptions.reuseConnection options = Some false
  ∨ clientCache w !! (endpoint +:+ "::" +:+ hashKey apiKey) = None →
  URL_valid endpoint = false →
  acquireClient options endpoint apiKey w
  = (Rejected (TypeError "Invalid URL"), w).
Proof.
  intros Hfresh Hurl. unfold acquireClient.
  case_bool_decide as Hre; simpl.
  - unfold createEphemeralClient, createClientPromise. by rewrite Hurl.
  - destruct Hfresh as [Hre'|Hmiss]; [done|].
    unfold getOrCreateClient. rewrite Hmiss.
    unfold createClientPromise. by rewrite Hurl.
Qed.

Lemma validateTool_Rejected (options : BigModelMCPOptions.t)
    (endpoint : string) (client : Client) (w w' : World) (e : Thrown) :
  validateTool options endpoint client w = (Rejected e, w') →
  thrown_code e = Some TRANSPORT_OR_CONNECT_ERROR
  ∨ thrown_code e = Some INVALID_RESPONSE.
Proof.
  unfold validateTool. case_bool_decide; [|done].
  unfold bind, emit. simpl.
  destruct (sdk_listTools client) as [d [toolList|e']|]; simpl; [| |done].
  - destruct (tool_exists toolList); simpl; [done|].
    intros [= <- _]. by right.
  - intros [= <- _]. by left.
Qed.

Lemma invokeTool_Rejected (options : BigModelMCPOptions.t) (client : Client)
    (params : JsValue) (w w' : World) (e : Thrown) :
  invokeTool options client params w = (Rejected e, w') →
  thrown_code e = Some TRANSPORT_OR_CONNECT_ERROR.
Proof.
  unfold invokeTool, bind, emit. simpl. unfold withSoftTimeout.
  destruct (BigModelMCPOptions.timeoutMs options) as [t|];
    [destruct ((t =? 0) || (t <=? 0))|];
    destruct (sdk_callTool client TOOL_NAME params) as [d [result|e']|];
    simpl; try destruct (d <? setTimeout_delay t); simpl; try done;
    by intros [= <- _].
Qed.

(** X19.  A call of [bigmodelWebSearchPrime] that finds no cached
    session never rejects with a raw error of the SDK: a rejection is
    the [TypeError] of an unparsable endpoint or a [BigModelMCPError]
    carrying one of the four codes, and [MISSING_API_KEY] only when the
    credential check failed. *)
Theorem rejections_are_typed (params : JsValue)
    (options : BigModelMCPOptions.t) (w w' : World) (e : Thrown) :
  let endpoint := resolvedEndpoint options in
  let apiKey := default "" (resolvedApiKey options w) in
  BigModelMCPOptions.reuseConnection options = Some false
  ∨ clientCache w !! (endpoint +:+ "::" +:+ hashKey apiKey) = None →
  bigmodelWebSearchPrime params options w = (Rejected e, w') →
  (e = TypeError "Invalid URL" ∧ URL_valid endpoint = false)
  ∨ (thrown_code e = Some MISSING_API_KEY
     ∧ apiKey_missing (resolvedApiKey options w) = true)
  ∨ (apiKey_missing (resolvedApiKey options w) = false
     ∧ (thrown_code e = Some TRANSPORT_OR_CONNECT_ERROR
        ∨ thrown_code e = Some INVALID_RESPONSE
        ∨ thrown_code e = Some MCP_TOOL_ERROR)).
Proof.
  intros endpoint apiKey Hfresh. unfold bigmodelWebSearchPrime.
  destruct (apiKey_missing _) eqn:Hkey.
  { intros [= <- _]. right. left. by split. }
  fold endpoint apiKey.
  rewrite (bind_run Date_now _ w w (now w)) by done.
  unfold bind at 1.
  destruct (acquireClient options endpoint apiKey w) as [[client| |] w1]
    eqn:Hacq; [| |done].
  2:{ intros [= <- _].
      destruct (URL_valid endpoint) eqn:Hurl.
      - right. right. split; [done|]. left.
        pose proof (acquireClient_fresh options endpoint apiKey w Hfresh Hurl)
          as Hout.
        rewrite Hacq in Hout. simpl in Hout.
        destruct (sdk_connect _) as [d [[]|e']|]; simpl in Hout; try done.
        by injection Hout as ->.
      - left. split; [|done].
        rewrite (acquireClient_invalid_URL options endpoint apiKey w
                   Hfresh Hurl) in Hacq.
        by injection Hacq as <- _. }
  unfold bind at 1.
  destruct (validateTool options endpoint client w1) as [[[]| |] w2]
    eqn:Hval; [| |done].
  2:{ intros [= <- _]. right. right. split; [done|].
      destruct (validateTool_Rejected _ _ _ _ _ _ Hval); auto. }
  unfold bind at 1.
  destruct (invokeTool options client params w2) as [[result| |] w3]
    eqn:Hinv; [| |done].
  2:{ intros [= <- _]. right. right. split; [done|]. left.
      by apply (invokeTool_Rejected _ _ _ _ _ _ Hinv). }
  destruct (truthy _); [|done].
  intros [= <- _]. right. right. split; [done|]. by right; right.
Qed.

(** X20.  When the endpoint is not a URL, a call of
    [bigmodelWebSearchPrime] with a credential and no cached session is
    rejected with the [TypeError] of [new URL] and leaves the world as
    it was: nothing is cached, nothing is sent. *)
Theorem invalid_endpoint_leaves_no_trace (params : JsValue)
    (options : BigModelMCPOptions.t) (w : World) :
  let endpoint := resolvedEndpoint options in
  let apiKey := default "" (resolvedApiKey options w) in
  apiKey_missing (resolvedApiKey options w) = false →
  BigModelMCPOptions.reuseConnection options = Some false
  ∨ clientCache w !! (endpoint +:+ "::" +:+ hashKey apiKey) = None →
  URL_valid endpoint = false →
  bigmodelWebSearchPrime params options w
  = (Rejected (TypeError "Invalid URL"), w).
Proof.
  intros endpoint apiKey Hkey Hfresh Hurl. unfold bigmodelWebSearchPrime.
  rewrite Hkey. fold endpoint apiKey.
  rewrite (bind_run Date_now _ w w (now w)) by done.
  unfold bind at 1.
  by rewrite (acquireClient_invalid_URL options endpoint apiKey w Hfresh Hurl).
Qed.

(** X21.  In index.js the same failure is remembered: the rejected
    promise is stored in [_clientCache] under the call's key before it is
    awaited, so the entry stays and later calls under that key are
    served the same rejection. *)
Theorem index_invalid_endpoint_is_cached (cacheKey endpoint apiKey : string)
    (w : World) :
  _clientCache w !! cacheKey = None →
  URL_valid endpoint = false →
  ∃ w', _acquireClient cacheKey endpoint apiKey w
        = (Rejected (TypeError "Invalid URL"), w')
        ∧ _clientCache w' !! cacheKey = Some (Rejected (TypeError "Invalid URL"))
        ∧ trace w' = trace w
        ∧ ∀ endpoint2 apiKey2,
            _acquireClient cacheKey endpoint2 apiKey2 w'
            = (Rejected (TypeError "Invalid URL"), w').
Proof.
  intros Hmiss Hurl. unfold _acquireClient at 1. rewrite Hmiss.
  unfold _connectClient. rewrite Hurl. simpl.
  eexists. split; [reflexivity|]. simpl.
  split; [by rewrite lookup_insert_eq|]. split; [done|].
  intros endpoint2 apiKey2. unfold _acquireClient. simpl.
  by rewrite lookup_insert_eq.
Qed.

(** X22.  The soft timeout covers the tool call only.  If the server
    never completes the connect, a call with a credential, a valid
    endpoint and no cached session stays pending whatever [timeoutMs]
    is. *)
Theorem timeout_does_not_bound_connect (params : JsValue)
    (options : BigModelMCPOptions.t) (w : World) :
  let endpoint := resolvedEndpoint options in
  let apiKey := default "" (resolvedApiKey options w) in
  apiKey_missing (resolvedApiKey options w) = false →
  BigModelMCPOptions.reuseConnection options = Some false
  ∨ clientCache w !! (endpoint +:+ "::" +:+ hashKey apiKey) = None →
  URL_valid endpoint = true →
  (∀ client, sdk_connect client = Never) →
  (bigmodelWebSearchPrime params options w).1 = Pending.
Proof.
  intros endpoint apiKey Hkey Hfresh Hurl Hnever.
  unfold bigmodelWebSearchPrime. rewrite Hkey. fold endpoint apiKey.
  rewrite (bind_run Date_now _ w w (now w)) by done.
  unfold bind at 1.
  pose proof (acquireClient_fresh options endpoint apiKey w Hfresh Hurl)
    as Hout.
  cbv zeta in Hout. rewrite Hnever in Hout. simpl in Hout.
  by destruct (acquireClient options endpoint apiKey w) as [[client| |] w1];
    simpl in Hout.
Qed.

(** X23.  With tool validation on, a server whose listing lacks
    [webSearchPrime] is never sent the call: the call is rejected with
    [INVALID_RESPONSE], the listing attached as details, and the request
    for the listing is the last thing sent. *)
Theorem missing_tool_is_never_invoked (params : JsValue)
    (options : BigModelMCPOptions.t) (w w1 : World) (client : Client)
    (d : Z) (toolList : JsValue) :
  let endpoint := resolvedEndpoint options in
  let apiKey := default "" (resolvedApiKey options w) in
  apiKey_missing (resolvedApiKey options w) = false →
  BigModelMCPOptions.validateToolAvailability options = Some true →
  acquireClient options endpoint apiKey w = (Resolved client, w1) →
  sdk_listTools client = Settles d (inl toolList) →
  tool_exists toolList = false →
  ∃ w',
    bigmodelWebSearchPrime params options w
    = (Rejected (BigModelMCPError
                   ("Tool " +:+ dquote +:+ "webSearchPrime" +:+ dquote +:+
                    " not found on MCP endpoint " +:+ endpoint)
                   INVALID_RESPONSE (Some (Foreign toolList))), w')
    ∧ trace w' = trace w1 ++ [ListTools client].
Proof.
  intros endpoint apiKey Hkey Hval Hacq Hlist Hmiss.
  unfold bigmodelWebSearchPrime. rewrite Hkey. fold endpoint apiKey.
  rewrite (bind_run Date_now _ w w (now w)) by done.
  rewrite (bind_run _ _ w w1 client Hacq).
  unfold bind at 1, validateTool. rewrite Hval.
  rewrite bool_decide_eq_true_2 by done.
  unfold bind, emit. simpl. rewrite Hlist. simpl. rewrite Hmiss. simpl.
  eexists. split; reflexivity.
Qed.

(** X24.  A response flagged [isError] is never parsed for items: the
    call is rejected with [MCP_TOOL_ERROR] and the response itself as
    details. *)
Theorem tool_error_is_rejected (params : JsValue)
    (options : BigModelMCPOptions.t) (w w1 w2 w3 : World) (client : Client)
    (result : JsValue) :
  let endpoint := resolvedEndpoint options in
  let apiKey := default "" (resolvedApiKey options w) in
  apiKey_missing (resolvedApiKey options w) = false →
  acquireClient options endpoint apiKey w = (Resolved client, w1) →
  validateTool options endpoint client w1 = (Resolved tt, w2) →
  invokeTool options client params w2 = (Resolved result, w3) →
  truthy result.["isError"]%js = true →
  bigmodelWebSearchPrime params options w
  = (Rejected (BigModelMCPError
                 ("MCP tool " +:+ dquote +:+ "webSearchPrime" +:+ dquote +:+
                  " returned isError=true")
                 MCP_TOOL_ERROR (Some (Foreign result))), w3).
Proof.
  intros endpoint apiKey Hkey Hacq Hval Hinv Herr.
  rewrite (bigmodelWebSearchPrime_run params options w w1 w2 w3 client result
             Hkey Hacq Hval Hinv).
  by rewrite Herr.
Qed.

End CallFailures.

(** ** Sessions across calls *)

Section SessionReuse.
Context `{Host}.

Lemma await_env {A} (p : Promise A) (w : World) :
  BIGMODEL_API_KEY (await p w).2 = BIGMODEL_API_KEY w.
Proof. by destruct p. Qed.

Lemma acquireClient_env (options : BigModelMCPOptions.t)
    (endpoint apiKey : string) (w : World) :
  BIGMODEL_API_KEY (acquireClient options endpoint apiKey w).2
  = BIGMODEL_API_KEY w.
Proof.
  unfold acquireClient, getOrCreateClient, createEphemeralClient.
  destruct (negb (bool_decide _)).
  - destruct (clientCache w !! _); [done|].
    destruct (createClientPromise_cases endpoint apiKey
                (BigModelMCPOptions.transportHeaders options) w)
      as [[_ ->]|(_ & p & w1 & client & -> & _ & _ & _ & _ & _ & _ & He)];
      [done|].
    by rewrite await_env.
  - destruct (createClientPromise_cases endpoint apiKey
                (BigModelMCPOptions.transportHeaders options) w)
      as [[_ ->]|(_ & p & w1 & client & -> & _ & _ & _ & _ & _ & _ & He)];
      [done|].
    by rewrite await_env.
Qed.

Lemma validateTool_env (options : BigModelMCPOptions.t) (endpoint : string)
    (client : Client) (w : World) :
  BIGMODEL_API_KEY (validateTool options endpoint client w).2
  = BIGMODEL_API_KEY w.
Proof.
  unfold validateTool. case_bool_decide; [|done].
  unfold bind, emit. simpl.
  destruct (sdk_listTools client) as [d [toolList|e]|]; simpl; try done.
  by destruct (tool_exists toolList).
Qed.

Lemma invokeTool_env (options : BigModelMCPOptions.t) (client : Client)
    (params : JsValue) (w : World) :
  BIGMODEL_API_KEY (invokeTool options client params w).2
  = BIGMODEL_API_KEY w.
Proof. unfold invokeTool, bind, emit. simpl. by rewrite await_env. Qed.

(** What a call leaves of the world [acquireClient] returned: the
    credential of the environment and the cache. *)
Lemma call_world_after_acquire (params : JsValue)
    (options : BigModelMCPOptions.t) (w w1 : World) (o : Outcome Client) :
  apiKey_missing (resolvedApiKey options w) = false →
  acquireClient options (resolvedEndpoint options)
    (default "" (resolvedApiKey options w)) w = (o, w1) →
  BIGMODEL_API_KEY (bigmodelWebSearchPrime params options w).2
  = BIGMODEL_API_KEY w
  ∧ clientCache (bigmodelWebSearchPrime params options w).2
    = clientCache w1.
Proof.
  intros Hkey Hacq.
  pose proof (acquireClient_env options (resolvedEndpoint options)
                (default "" (resolvedApiKey options w)) w) as Henv.
  rewrite Hacq in Henv. simpl in Henv. rewrite <- Henv.
  destruct (bigmodelWebSearchPrime params options w) as [out w'] eqn:Hrun.
  unfold bigmodelWebSearchPrime in Hrun. rewrite Hkey in Hrun.
  rewrite (bind_run Date_now _ w w (now w)) in Hrun by done.
  unfold bind at 1 in Hrun. rewrite Hacq in Hrun. simpl.
  destruct o as [client| |]; [|by injection Hrun as <- <-..].
  pose proof (validateTool_env options (resolvedEndpoint options) client w1)
    as Hv1.
  pose proof (keeps_validateTool options (resolvedEndpoint options) client w1)
    as Hv2.
  unfold bind at 1 in Hrun.
  destruct (validateTool _ _ client w1) as [[[]| |] w2]; simpl in Hv1, Hv2;
    [|by injection Hrun as <- <-..].
  pose proof (invokeTool_env options client params w2) as Hi1.
  pose proof (keeps_invokeTool options client params w2) as Hi2.
  unfold bind at 1 in Hrun.
  destruct (invokeTool options client params w2) as [[result| |] w3];
    simpl in Hi1, Hi2;
    [|injection Hrun as <- <-; split; congruence..].
  destruct (truthy _); simpl in Hrun; injection Hrun as <- <-;
    split; congruence.
Qed.

(** X25.  With connection reuse on, the call after a call with the same
    options opens no session: whatever it sends is a tool listing or
    the invocation, and it sends no transport and no connect, whether
    the first call succeeded, failed or was rejected. *)
Theorem second_call_opens_no_session (params1 params2 : JsValue)
    (options : BigModelMCPOptions.t) (w : World) :
  BigModelMCPOptions.reuseConnection options ≠ Some false →
  let w1 := (bigmodelWebSearchPrime params1 options w).2 in
  let w2 := (bigmodelWebSearchPrime params2 options w1).2 in
  ∃ listing calling,
    trace w2 = trace w1 ++ listing ++ calling
    ∧ (listing = [] ∨ ∃ client, listing = [ListTools client])
    ∧ (calling = []
       ∨ ∃ client, calling = [CallTool client "webSearchPrime" params2]).
Proof.
  intros Hre w1 w2.
  assert (Hnil : trace w2 = trace w1 →
            ∃ listing calling,
              trace w2 = trace w1 ++ listing ++ calling
              ∧ (listing = [] ∨ ∃ client, listing = [ListTools client])
              ∧ (calling = []
                 ∨ ∃ client,
                     calling = [CallTool client "webSearchPrime" params2])).
  { intros ->. exists [], []. rewrite app_nil_r. by repeat split; left. }
  destruct (apiKey_missing (resolvedApiKey options w)) eqn:Hkey.
  { apply Hnil. subst w2 w1. unfold bigmodelWebSearchPrime at 2.
    rewrite Hkey. simpl. unfold bigmodelWebSearchPrime. by rewrite Hkey. }
  set (endpoint := resolvedEndpoint options).
  set (apiKey := default "" (resolvedApiKey options w)).
  destruct (acquireClient options endpoint apiKey w) as [o w'] eqn:Hacq.
  destruct (call_world_after_acquire params1 options w w' o Hkey Hacq)
    as [Henv Hcache].
  fold w1 in Henv, Hcache.
  assert (Hkey1 : resolvedApiKey options w1 = resolvedApiKey options w).
  { unfold resolvedApiKey. by rewrite Henv. }
  assert (Hreuse : acquireClient options endpoint apiKey
                   = getOrCreateClient endpoint apiKey
                       (BigModelMCPOptions.transportHeaders options)).
  { unfold acquireClient. by rewrite bool_decide_eq_false_2. }
  rewrite Hreuse in Hacq.
  assert (Hacq1 : ∃ o1, acquireClient options endpoint apiKey w1 = (o1, w1)).
  { rewrite Hreuse. unfold getOrCreateClient.
    destruct (getOrCreateClient_cases _ _ _ _ _ _ Hacq)
      as [[Hhit ->]|[(Hmiss & Hurl & -> & ->)|(Hmiss & Hurl & Hc & _)]];
      cbv zeta in *; rewrite Hcache.
    - rewrite Hhit. by eexists.
    - rewrite Hmiss. unfold createClientPromise. rewrite Hurl. by eexists.
    - rewrite Hc, lookup_insert_eq. by eexists. }
  destruct Hacq1 as [o1 Hacq1].
  assert (Hkey' : apiKey_missing (resolvedApiKey options w1) = false)
    by (by rewrite Hkey1).
  unfold endpoint, apiKey in Hacq1. rewrite <- Hkey1 in Hacq1.
  destruct (call_trace_after_acquire params2 options w1 w1 o1 Hkey' Hacq1)
    as (listing & calling & Ht & Hlisting & Hcalling).
  exists listing, calling. split; [done|]. split; [|done].
  destruct Hlisting as [->|[_ ?]]; [by left|by right].
Qed.


(** X27.  Without a [timeoutMs], or with one that is zero or negative,
    no timer is armed: the invocation ends exactly as the server's
    answer does, and stays pending if the server never answers. *)
Theorem no_timeout_waits_for_the_server (options : BigModelMCPOptions.t)
    (client : Client) (params : JsValue) (w : World) :
  BigModelMCPOptions.timeoutMs options = None
  ∨ (∃ t, BigModelMCPOptions.timeoutMs options = Some t ∧ t ≤ 0) →
  (invokeTool options client params w).1
  = fate (catch_rethrow (sdk_callTool client "webSearchPrime" params)
            (λ e, BigModelMCPError
                    ("MCP callTool(" +:+ dquote +:+ "webSearchPrime"
                     +:+ dquote +:+ ") failed")
                    TRANSPORT_OR_CONNECT_ERROR (Some e))).
Proof.
  intros Ht. unfold invokeTool, bind, emit. simpl.
  assert (Hoff : ∀ T (p : Promise T),
            withSoftTimeout p (BigModelMCPOptions.timeoutMs options) = p).
  { intros T p. destruct Ht as [->|(t & -> & Ht)]; [done|].
    unfold withSoftTimeout.
    by replace ((t =? 0) || (t <=? 0)) with true by lia. }
  rewrite Hoff. unfold TOOL_NAME.
  by destruct (sdk_callTool client _ params) as [d [result|e]|].
Qed.

End SessionReuse.

(** ** The properties above on sample servers *)

Lemma rejections_are_typed_witness :
  ∃ e w',
    @bigmodelWebSearchPrime failing_host sample_params key_only world0
    = (Rejected e, w')
    ∧ thrown_code e = Some TRANSPORT_OR_CONNECT_ERROR.
Proof.
  destruct (@bigmodelWebSearchPrime failing_host sample_params key_only world0)
    as [[out|e|] w'] eqn:Hrun; [by vm_compute in Hrun| |by vm_compute in Hrun].
  exists e, w'. split; [done|].
  destruct (@rejections_are_typed failing_host sample_params key_only world0
              w' e (or_intror eq_refl) Hrun)
    as [[_ Hurl]|[[_ Hk]|[_ Hc]]].
  - by vm_compute in Hurl.
  - by vm_compute in Hk.
  - vm_compute in Hrun. injection Hrun as <- _. reflexivity.
Defined.

Lemma invalid_endpoint_leaves_no_trace_witness :
  @bigmodelWebSearchPrime instant_host sample_params bad_endpoint world0
  = (Rejected (TypeError "Invalid URL"), world0).
Proof.
  apply (@invalid_endpoint_leaves_no_trace instant_host sample_params
           bad_endpoint world0).
  - by vm_compute.
  - right. by vm_compute.
  - by vm_compute.
Defined.

Lemma index_invalid_endpoint_is_cached_witness :
  ∃ w',
    @_acquireClient instant_host "e::k1" "open.bigmodel.cn" "k" world0
    = (Rejected (TypeError "Invalid URL"), w')
    ∧ _clientCache w' !! "e::k1" = Some (Rejected (TypeError "Invalid URL"))
    ∧ trace w' = trace world0
    ∧ ∀ endpoint2 apiKey2,
        @_acquireClient instant_host "e::k1" endpoint2 apiKey2 w'
        = (Rejected (TypeError "Invalid URL"), w').
Proof.
  apply (@index_invalid_endpoint_is_cached instant_host "e::k1"
           "open.bigmodel.cn" "k" world0); by vm_compute.
Defined.

Lemma timeout_does_not_bound_connect_witness :
  (@bigmodelWebSearchPrime stalled_host sample_params (with_timeout 50)
     world0).1 = Pending.
Proof.
  apply (@timeout_does_not_bound_connect stalled_host sample_params
           (with_timeout 50) world0).
  - by vm_compute.
  - right. by vm_compute.
  - by vm_compute.
  - done.
Defined.

Lemma missing_tool_is_never_invoked_witness :
  outcome_code
    (@bigmodelWebSearchPrime untooled_host sample_params (with_timeout 50)
       world0).1
  = Some INVALID_RESPONSE.
Proof.
  destruct (@acquireClient untooled_host (with_timeout 50)
              (resolvedEndpoint (with_timeout 50))
              (default "" (resolvedApiKey (with_timeout 50) world0)) world0)
    as [[client| |] w1] eqn:Hacq; [|by vm_compute in Hacq..].
  destruct (@missing_tool_is_never_invoked untooled_host sample_params
              (with_timeout 50) world0 w1 client 2 other_tools
              eq_refl eq_refl Hacq eq_refl eq_refl)
    as (w' & -> & _).
  reflexivity.
Defined.

Lemma tool_error_is_rejected_witness :
  outcome_code
    (@bigmodelWebSearchPrime (sample_host error_response) sample_params
       key_only world0).1
  = Some MCP_TOOL_ERROR.
Proof.
  destruct (@acquireClient (sample_host error_response) key_only
              (resolvedEndpoint key_only)
              (default "" (resolvedApiKey key_only world0)) world0)
    as [[client| |] w1] eqn:Hacq; [|by vm_compute in Hacq..].
  destruct (@validateTool (sample_host error_response) key_only
              (resolvedEndpoint key_only) client w1)
    as [[[]| |] w2] eqn:Hval; [|by vm_compute in Hval..].
  destruct (@invokeTool (sample_host error_response) key_only client
              sample_params w2)
    as [[result| |] w3] eqn:Hinv; [|by vm_compute in Hinv..].
  assert (Herr : truthy result.["isError"]%js = true).
  { vm_compute in Hinv. by injection Hinv as <- _. }
  by rewrite (@tool_error_is_rejected (sample_host error_response)
                sample_params key_only world0 w1 w2 w3 client result
                eq_refl Hacq Hval Hinv Herr).
Defined.

Lemma second_call_opens_no_session_witness :
  let w1 :=
    (@bigmodelWebSearchPrime instant_host sample_params (with_timeout 50)
       world0).2 in
  let w2 :=
    (@bigmodelWebSearchPrime instant_host (JObj []) (with_timeout 50) w1).2 in
  ∃ listing calling,
    trace w2 = trace w1 ++ listing ++ calling
    ∧ (listing = [] ∨ ∃ client, listing = [ListTools client])
    ∧ (calling = []
       ∨ ∃ client, calling = [CallTool client "webSearchPrime" (JObj [])]).
Proof.
  apply (@second_call_opens_no_session instant_host sample_params (JObj [])
           (with_timeout 50) world0).
  discriminate.
Defined.


Lemma no_timeout_waits_for_the_server_witness :
  let client := {| client_id := 0; client_endpoint := DEFAULT_ENDPOINT;
                   client_headers := ∅ |} in
  (@invokeTool silent_host key_only client sample_params world0).1 = Pending.
Proof.
  intros client.
  rewrite (@no_timeout_waits_for_the_server silent_host key_only client
             sample_params world0 (or_introl eq_refl)).
  reflexivity.
Defined.

(** ** The call of index.js *)

Section IndexCall.
Context `{Host}.

Lemma _cacheKey_run (options : WebSearchPrimeOptions.t)
    (endpoint apiKey : string) (w : World) :
  ∃ cacheKey, _cacheKey options endpoint apiKey w = (Resolved cacheKey, w).
Proof. unfold _cacheKey. case_bool_decide; by eexists. Qed.

Lemma _acquireClient_trace (cacheKey endpoint apiKey : string) (w : World) :
  ∃ session,
    trace (_acquireClient cacheKey endpoint apiKey w).2 = trace w ++ session
    ∧ (session = []
       ∨ ∃ client,
           session = [ NewTransport endpoint
                         {[ "Authorization" := "Bearer " +:+ apiKey ]};
                       Connect client ]).
Proof.
  unfold _acquireClient.
  destruct (_clientCache w !! cacheKey) as [clientPromise|].
  { exists []. rewrite app_nil_r. by split; [|left]. }
  unfold _connectClient. destruct (URL_valid endpoint); simpl.
  - eexists. split; [|right; by eexists].
    rewrite await_trace. simpl. by rewrite <- app_assoc.
  - exists []. rewrite app_nil_r. by split; [|left].
Qed.

(** X28.  One call of [webSearchPrime] of index.js asks the transport
    for at most one session, then for at most one invocation, and for
    nothing else: it never lists the server's tools, and the transport
    it builds carries the [Authorization] header alone. *)
Theorem index_call_events_in_order (input : JsValue)
    (options : WebSearchPrimeOptions.t) (w : World) :
  ∃ session calling,
    trace (webSearchPrime input options w).2 = trace w ++ session ++ calling
    ∧ (session = []
       ∨ ∃ client apiKey,
           session = [ NewTransport (_resolvedEndpoint options)
                         {[ "Authorization" := "Bearer " +:+ apiKey ]};
                       Connect client ])
    ∧ (calling = []
       ∨ ∃ client,
           calling = [CallTool client "webSearchPrime" (_toParams input)]).
Proof.
  unfold webSearchPrime.
  destruct (_apiKey_missing _).
  { exists [], []. simpl. rewrite app_nil_r. by repeat split; left. }
  set (endpoint := _resolvedEndpoint options).
  set (apiKey := default "" (_resolvedApiKey options w)).
  destruct (_cacheKey_run options endpoint apiKey w) as [cacheKey Hck].
  rewrite (bind_run _ _ w w cacheKey Hck).
  destruct (_acquireClient_trace cacheKey endpoint apiKey w)
    as (session & Hs & Hsession).
  assert (Hsession' : session = []
            ∨ ∃ client apiKey,
                session = [ NewTransport endpoint
                              {[ "Authorization" := "Bearer " +:+ apiKey ]};
                            Connect client ]).
  { destruct Hsession as [->|(c & ->)]; [by left|right; eauto]. }
  clear Hsession. unfold bind at 1.
  destruct (_acquireClient cacheKey endpoint apiKey w) as [[client| |] w1];
    simpl in Hs;
    try (exists session, []; simpl; rewrite !app_nil_r;
         by repeat split; try done; left).
  exists session, [CallTool client "webSearchPrime" (_toParams input)].
  split; [|split; [done|right; by exists client]].
  unfold bind, emit. simpl.
  destruct (sdk_callTool client "webSearchPrime" (_toParams input))
    as [d [result|e]|]; simpl; try (by rewrite Hs, <- !app_assoc).
  destruct (truthy result && truthy _); simpl; by rewrite Hs, <- !app_assoc.
Qed.

(** X29.  index.js neither bounds the invocation nor wraps its
    failure: once a client is at hand, a call whose invocation does not
    succeed ends as the SDK's promise does, rejected with the SDK's own
    error or pending for ever. *)
Theorem index_call_ends_as_the_server_does (input : JsValue)
    (options : WebSearchPrimeOptions.t) (w w0 w1 : World) (cacheKey : string)
    (client : Client) :
  let endpoint := _resolvedEndpoint options in
  let apiKey := default "" (_resolvedApiKey options w) in
  let answer := sdk_callTool client "webSearchPrime" (_toParams input) in
  _apiKey_missing (_resolvedApiKey options w) = false →
  _cacheKey options endpoint apiKey w = (Resolved cacheKey, w0) →
  _acquireClient cacheKey endpoint apiKey w0 = (Resolved client, w1) →
  (∀ d result, answer ≠ Settles d (inl result)) →
  (webSearchPrime input options w).1 = fate answer.
Proof.
  intros endpoint apiKey answer Hkey Hck Hacq Hfail.
  unfold webSearchPrime. rewrite Hkey. fold endpoint apiKey.
  rewrite (bind_run _ _ w w0 cacheKey Hck).
  rewrite (bind_run _ _ w0 w1 client Hacq).
  unfold bind, emit. simpl. fold answer.
  destruct answer as [d [result|e]|]; simpl; try done.
  by destruct (Hfail d result).
Qed.

End IndexCall.

Lemma index_call_ends_as_the_server_does_witness :
  (@webSearchPrime silent_host (JStr "q") _key_only world0).1 = Pending
  ∧ (@webSearchPrime failing_host (JStr "q") _key_only world0).1
    = Rejected (Foreign (JStr "socket hang up")).
Proof.
  split.
  - destruct (_cacheKey _key_only (@_resolvedEndpoint _key_only)
                (default "" (@_resolvedApiKey _key_only world0)) world0)
      as [[cacheKey| |] w0] eqn:Hck; [|by vm_compute in Hck..].
    destruct (@_acquireClient silent_host cacheKey
                (@_resolvedEndpoint _key_only)
                (default "" (@_resolvedApiKey _key_only world0)) w0)
      as [[client| |] w1] eqn:Hacq.
    + by rewrite (@index_call_ends_as_the_server_does silent_host (JStr "q")
                    _key_only world0 w0 w1 cacheKey client eq_refl Hck Hacq).
    + vm_compute in Hck. injection Hck as <- <-. by vm_compute in Hacq.
    + vm_compute in Hck. injection Hck as <- <-. by vm_compute in Hacq.
  - destruct (_cacheKey _key_only (@_resolvedEndpoint _key_only)
                (default "" (@_resolvedApiKey _key_only world0)) world0)
      as [[cacheKey| |] w0] eqn:Hck; [|by vm_compute in Hck..].
    destruct (@_acquireClient failing_host cacheKey
                (@_resolvedEndpoint _key_only)
                (default "" (@_resolvedApiKey _key_only world0)) w0)
      as [[client| |] w1] eqn:Hacq.
    + by rewrite (@index_call_ends_as_the_server_does failing_host (JStr "q")
                    _key_only world0 w0 w1 cacheKey client eq_refl Hck Hacq).
    + vm_compute in Hck. injection Hck as <- <-. by vm_compute in Hacq.
    + vm_compute in Hck. injection Hck as <- <-. by vm_compute in Hacq.
Defined.
